(** * Alert analysis engine: a shallow embedding of [engine.py]

    The pipeline of [AlertEngine] is embedded stage by stage: noise cut,
    episodes, union-find situations, temporal spread, the three correlation
    kernels, primary-cause scoring and the NDJSON emitter.

    Conventions of the embedding.
    - Python [int] is [Z]; list indices and lengths are [nat].
    - A [dict] used as a map whose iteration order is never observed is a
      [gmap]; a [dict] whose key order is observed (the bin matrix, the
      situation groups, the episode groups) is an association list kept in
      insertion order.
    - A [defaultdict(list)] is a [gmap] read through [dd_get] and created on
      first access by [dd_touch].
    - The iteration order of a Python [set] of strings is not fixed by the
      language: it is a function of the hash seed and of the insertion
      sequence.  The engine carries that function as [set_rank]; [set_iter]
      lists the distinct elements of the insertion sequence by rank.
    - The floats of the correlation kernels are IEEE binary64 values
      ([PrimFloat]), as Python's are.  The confidence score, which goes
      through [math.log], is taken over the real numbers. *)

From Stdlib Require Import ZArith List String Ascii Bool Lia QArith Qabs Reals Lra Floats Uint63.
From stdpp Require Import gmap strings list fin_maps pretty sorting.

Set Warnings "-inexact-float".

Local Open Scope string_scope.
Local Open Scope list_scope.
Local Open Scope Z_scope.

(** ** Constants *)

Definition PAD_MS_START : Z := 60000.
Definition MAX_PAD_MS : Z := 600000.
Definition BIN_SIZE_S_DEFAULT : Z := 1.
Definition BIN_SIZE_S_FALLBACK : Z := 5.
Definition MIN_SITUATION_MS : Z := 10000.
Definition MIN_BINS : Z := 3.
Definition JOIN_HALO_MS : Z := 300000.

(** ** Python helpers *)

(** Truthiness of an optional string ([None] and the empty string are falsy). *)
Definition truthy (o : option string) : bool :=
  match o with
  | Some s => negb (bool_decide (s = ""))
  | None => false
  end.

(** Stable insertion sort, as [sorted(l, key=...)] and [list.sort]: [lt x y]
    says that [x] goes strictly before [y]; elements that are not ordered by
    [lt] keep their input order. *)
Fixpoint insert_sorted {A} (lt : A -> A -> bool) (x : A) (l : list A) : list A :=
  match l with
  | [] => [x]
  | y :: l' => if lt y x then y :: insert_sorted lt x l' else x :: y :: l'
  end.

Fixpoint py_sorted {A} (lt : A -> A -> bool) (l : list A) : list A :=
  match l with
  | [] => []
  | x :: l' => insert_sorted lt x (py_sorted lt l')
  end.

(** First occurrences of a list of strings, in order: the members of
    [set(l)]. *)
Fixpoint distinct (l : list string) : list string :=
  match l with
  | [] => []
  | x :: l' => x :: filter (fun y => y <> x) (distinct l')
  end.

(** [defaultdict(list)]: reading a missing key yields the empty list and
    creates the key. *)
Definition dd_get {K} `{Countable K} {V} (m : gmap K (list V)) (k : K) : list V :=
  default [] (m !! k).

Definition dd_touch {K} `{Countable K} {V} (m : gmap K (list V)) (k : K) : gmap K (list V) :=
  match m !! k with
  | Some _ => m
  | None => <[k := []]> m
  end.

(** Sum of a list of integers: [sum(l)]. *)
Definition zsum (l : list Z) : Z := fold_left Z.add l 0.

(** ** Data model *)

Module Alert.
Record t := mk {
  ts : Z;
  source : string;
  vendor_event_id : string;
  resource_id : string;
  fingerprint : string;
  status : string;
  severity : string;
  service : option string;
  entity_key : string;
  deploy_key : option string;
  net_key : option string;
  urls : option string;
  (* the remaining keys of the alert dict (kind, title, component, resource,
     env, region, cluster, ns, pod, host, error_code, tags, k8s_key): no
     stage below reads them, they only take part in dict equality *)
  other_fields : list (string * string)
}.
End Alert.

#[global] Instance alert_eq_dec : EqDecision Alert.t.
Proof. solve_decision. Defined.

(** Command-line options and the per-run environment of the engine. *)
Record Args := {
  input : string;
  window : Z;
  hop : Z;
  dedup_ttl : Z;
  episode_gap : Z;
  max_lag : Z;
  min_support : Z
}.

Record Engine := {
  args : Args;
  graph : gmap string (list string);
  (* iteration order of Python sets, see the header *)
  set_rank : list string -> string -> Z
}.

(** [list(set(l))]: the distinct members of [l] in the order the runtime
    iterates the set. *)
Definition set_iter (self : Engine) (l : list string) : list string :=
  py_sorted (fun x y => set_rank self l x <? set_rank self l y) (distinct l).

(** ** Noise cut *)

Record NoiseState := {
  dedup_cache : gmap (string * string * string) Z;
  flap_tracker : gmap (string * string) (list (Z * string));
  echo_tracker : gmap (string * string) (list (Z * string))
}.

Definition fresh_noise : NoiseState :=
  {| dedup_cache := ∅; flap_tracker := ∅; echo_tracker := ∅ |}.

Definition dedup_key (alert : Alert.t) : string * string * string :=
  (Alert.fingerprint alert, Alert.severity alert, Alert.entity_key alert).

Definition echo_key (alert : Alert.t) : string * string :=
  (Alert.fingerprint alert, Alert.entity_key alert).

Definition echo_window : Z := 10 * 1000.
Definition flap_window : Z := 10 * 60 * 1000.

(** The dedup test of the loop body: the key is cached and the cached
    timestamp is less than [dedup_ttl] seconds back. *)
Definition is_duplicate (self : Engine) (st : NoiseState) (alert : Alert.t) : bool :=
  match dedup_cache st !! dedup_key alert with
  | Some prev => bool_decide (Alert.ts alert - prev < dedup_ttl (args self) * 1000)
  | None => false
  end.

(** The echo test: some tracked entry of the key is at most 10 s back and
    from another source. *)
Definition is_echo (st : NoiseState) (alert : Alert.t) : bool :=
  existsb
    (fun '(prev_ts, prev_source) =>
       bool_decide (Alert.ts alert - prev_ts <= echo_window)
       && negb (bool_decide (prev_source = Alert.source alert)))
    (dd_get (echo_tracker st) (echo_key alert)).

(** One iteration of the [for] loop of [_apply_noise_cut]: the new tracker
    state and the alert when it is appended to [filtered_alerts]. *)
Definition noise_cut_body (self : Engine) (st : NoiseState) (alert : Alert.t)
  : NoiseState * option Alert.t :=
  if is_duplicate self st alert then (st, None)
  else
    let st1 := {| dedup_cache := <[dedup_key alert := Alert.ts alert]> (dedup_cache st);
                  flap_tracker := flap_tracker st;
                  echo_tracker := dd_touch (echo_tracker st) (echo_key alert) |} in
    if is_echo st alert then (st1, None)
    else
      let echo' :=
        filter (fun '(t, _) => Alert.ts alert - t <= echo_window)
               (dd_get (echo_tracker st1) (echo_key alert)
                  ++ [(Alert.ts alert, Alert.source alert)]) in
      let flap' :=
        filter (fun '(t, _) => Alert.ts alert - t <= flap_window)
               (dd_get (flap_tracker st1) (echo_key alert)
                  ++ [(Alert.ts alert, Alert.status alert)]) in
      ({| dedup_cache := dedup_cache st1;
          flap_tracker := <[echo_key alert := flap']> (flap_tracker st1);
          echo_tracker := <[echo_key alert := echo']> (echo_tracker st1) |},
       Some alert).

(** The loop over the sorted alerts, threading the trackers and the list
    [filtered_alerts]. *)
Definition noise_cut_loop (self : Engine) (l : list Alert.t) (st : NoiseState)
  : NoiseState * list Alert.t :=
  fold_left
    (fun '(st, filtered_alerts) alert =>
       match noise_cut_body self st alert with
       | (st', Some a) => (st', filtered_alerts ++ [a])
       | (st', None) => (st', filtered_alerts)
       end)
    l (st, []).

Definition _apply_noise_cut (self : Engine) (st : NoiseState) (alerts : list Alert.t)
  : NoiseState * list Alert.t :=
  noise_cut_loop self (py_sorted (fun x y => Alert.ts x <? Alert.ts y) alerts) st.

(** The filter as a function on alert lists, with fresh trackers. *)
Definition noise_filter (self : Engine) (alerts : list Alert.t) : list Alert.t :=
  snd (_apply_noise_cut self fresh_noise alerts).

(** ** Episodes *)

Module Episode.
Record t := mk {
  entity_key : string;
  fingerprint : string;
  start : Z;
  end_ : Z;
  count : Z;
  vendors : list string;
  vendor_event_ids : list string;
  resource_ids : list string;
  deploy_keys : list string;
  net_keys : list string;
  sample_ts : list Z;
  alerts : list Alert.t
}.
End Episode.

#[global] Instance episode_eq_dec : EqDecision Episode.t.
Proof. solve_decision. Defined.

Definition ts_lt (x y : Alert.t) : bool := Alert.ts x <? Alert.ts y.

(** The truthy members of a list of optional strings, as in
    [x for x in ... if x]. *)
Definition truthy_values (l : list (option string)) : list string :=
  flat_map (fun o => match o with
                     | Some s => if truthy o then [s] else []
                     | None => []
                     end) l.

(** [_create_episode]; [None] stands for the [IndexError] of [alerts[0]] on
    an empty list (both call sites pass a non-empty list). *)
Definition _create_episode (self : Engine) (alerts : list Alert.t) : option Episode.t :=
  let alerts := py_sorted ts_lt alerts in
  match head alerts, last alerts with
  | Some first, Some final =>
      Some {| Episode.entity_key := Alert.entity_key first;
              Episode.fingerprint := Alert.fingerprint first;
              Episode.start := Alert.ts first;
              Episode.end_ := Alert.ts final;
              Episode.count := Z.of_nat (length alerts);
              Episode.vendors := set_iter self (map Alert.source alerts);
              Episode.vendor_event_ids :=
                take 50 (set_iter self (map Alert.vendor_event_id alerts));
              Episode.resource_ids :=
                take 50 (set_iter self (map Alert.resource_id alerts));
              Episode.deploy_keys :=
                set_iter self (truthy_values (map Alert.deploy_key alerts));
              Episode.net_keys :=
                set_iter self (truthy_values (map Alert.net_key alerts));
              Episode.sample_ts := take 50 (map Alert.ts alerts);
              Episode.alerts := alerts |}
  | _, _ => None
  end.

(** [d[k].append(v)] on an insertion-ordered [defaultdict(list)]. *)
Fixpoint group_append {K} `{EqDecision K} {V} (groups : list (K * list V)) (k : K) (v : V)
  : list (K * list V) :=
  match groups with
  | [] => [(k, [v])]
  | (k', vs) :: rest =>
      if decide (k' = k) then (k', vs ++ [v]) :: rest
      else (k', vs) :: group_append rest k v
  end.

(** [episodes.append(self._create_episode(current_episode))]. *)
Definition append_episode (self : Engine) (episodes : list Episode.t)
    (current_episode : list Alert.t) : list Episode.t :=
  match _create_episode self current_episode with
  | Some ep => episodes ++ [ep]
  | None => episodes
  end.

(** The gap walk over one sorted group: the episodes closed so far and the
    episode being built. *)
Definition split_body (self : Engine) (acc : list Episode.t * list Alert.t) (alert : Alert.t)
  : list Episode.t * list Alert.t :=
  let '(episodes, current_episode) := acc in
  match last current_episode with
  | Some prev =>
      if Alert.ts alert - Alert.ts prev >? episode_gap (args self) * 1000
      then (append_episode self episodes current_episode, [alert])
      else (episodes, current_episode ++ [alert])
  | None => (episodes, current_episode ++ [alert])
  end.

Definition split_group (self : Engine) (episodes : list Episode.t) (group_alerts : list Alert.t)
  : list Episode.t :=
  let '(episodes, current_episode) :=
    fold_left (split_body self) (py_sorted ts_lt group_alerts) (episodes, []) in
  match current_episode with
  | [] => episodes
  | _ => append_episode self episodes current_episode
  end.

Definition _build_episodes (self : Engine) (alerts : list Alert.t) : list Episode.t :=
  let groups :=
    fold_left (fun groups alert =>
                 group_append groups (Alert.entity_key alert, Alert.fingerprint alert) alert)
              alerts [] in
  fold_left (fun episodes '(_, group_alerts) => split_group self episodes group_alerts)
            groups [].

(** ** Union-find *)

Record UnionFind := {
  parent : gmap nat nat;
  rank : gmap nat nat
}.

Definition uf_empty : UnionFind := {| parent := ∅; rank := ∅ |}.

(** [find], with path compression.  The recursion follows parent links; its
    depth is bounded by [fuel] (the caller passes more than the number of
    nodes, which no chain of a forest exceeds). *)
Fixpoint find_rec (fuel : nat) (uf : UnionFind) (x : nat) : nat * UnionFind :=
  let uf :=
    match parent uf !! x with
    | Some _ => uf
    | None => {| parent := <[x := x]> (parent uf); rank := <[x := 0%nat]> (rank uf) |}
    end in
  let p := default x (parent uf !! x) in
  if bool_decide (p <> x) then
    match fuel with
    | O => (p, uf)
    | S fuel' =>
        let '(r, uf') := find_rec fuel' uf p in
        (r, {| parent := <[x := r]> (parent uf'); rank := rank uf' |})
    end
  else (p, uf).

Definition find (uf : UnionFind) (x : nat) : nat * UnionFind :=
  find_rec (S (size (parent uf))) uf x.

Definition union (uf : UnionFind) (x y : nat) : UnionFind :=
  let '(px, uf) := find uf x in
  let '(py, uf) := find uf y in
  if bool_decide (px = py) then uf
  else
    let rk k := default 0%nat (rank uf !! k) in
    let '(px, py) := if (rk px <? rk py)%nat then (py, px) else (px, py) in
    let uf := {| parent := <[py := px]> (parent uf); rank := rank uf |} in
    if bool_decide (rk px = rk py)
    then {| parent := parent uf; rank := <[px := S (rk px)]> (rank uf) |}
    else uf.

(** ** Situations *)

Record Window := { w_start : Z; w_end : Z }.

Record EpisodeSummary := {
  es_entity_key : string;
  es_fingerprint : string;
  es_start : Z;
  es_end : Z;
  es_count : Z
}.

Record ResourceRef := {
  rr_source : string;
  rr_resource_id : string;
  rr_urls : option string
}.

(** A change reference; [cr_started_at] is the episode start in epoch
    milliseconds (the source renders it as an ISO-8601 string). *)
Record ChangeRef := {
  cr_type : string;
  cr_sha : string;
  cr_started_at : Z
}.

Record RelatedAlert := {
  ra_ts : Z;
  ra_entity_key : string;
  ra_fingerprint : string;
  ra_vendor_event_id : string;
  ra_resource_id : string
}.

Record PrimaryCause := {
  pc_entity : string;
  pc_fingerprint : string;
  pc_confidence : R;
  pc_lag_ms : Z
}.

(** The bin matrix: series key (fingerprint) to its vector of counts, in the
    key order of the dict. *)
Definition Bins := list (string * list Z).

Module Situation.
Record t := mk {
  situation_id : string;
  window : Window;
  episodes : list EpisodeSummary;
  blast_entities : Z;
  blast_services : Z;
  change_refs : list ChangeRef;
  resource_refs : list ResourceRef;
  related_alerts : list RelatedAlert;
  all_alerts : list Alert.t;
  raw_episodes : list Episode.t;
  insufficient_temporal_spread : bool;
  reason : option string;
  pad_ms_used : Z;
  bin_size_s : Z;
  (* keys set by the later stages; [None] while the key is absent *)
  bins : option Bins;
  padded_window : option Window;
  rehydrated_alerts : option (list Alert.t);
  primary_cause : option PrimaryCause;
  score : option R;
  next_actions : option (list string)
}.
End Situation.

Definition summary (ep : Episode.t) : EpisodeSummary :=
  {| es_entity_key := Episode.entity_key ep;
     es_fingerprint := Episode.fingerprint ep;
     es_start := Episode.start ep;
     es_end := Episode.end_ ep;
     es_count := Episode.count ep |}.

(** [min(...)] and [max(...)] over a non-empty list, given its head. *)
Definition zmin_list (x : Z) (l : list Z) : Z := fold_left Z.min l x.
Definition zmax_list (x : Z) (l : list Z) : Z := fold_left Z.max l x.

(** The resource references of [_create_situation]: one per resource id not
    seen before, scanning the episodes in order. *)
Definition resource_refs_loop (episodes : list Episode.t) : list ResourceRef :=
  snd
    (fold_left
       (fun acc ep =>
          fold_left
            (fun '(seen_resources, resource_refs) resource_id =>
               if bool_decide (resource_id ∈ seen_resources)
               then (seen_resources, resource_refs)
               else
                 let alert_with_resource :=
                   List.find (fun alert => bool_decide (Alert.resource_id alert = resource_id))
                             (Episode.alerts ep) in
                 (resource_id :: seen_resources,
                  resource_refs ++
                    [{| rr_source :=
                          match Episode.alerts ep with
                          | a :: _ => Alert.source a
                          | [] => "unknown"
                          end;
                        rr_resource_id := resource_id;
                        rr_urls := alert_with_resource ≫= Alert.urls |}]))
            (Episode.resource_ids ep) acc)
       episodes ([], [])).

Definition _create_situation (episodes : list Episode.t) : option Situation.t :=
  match episodes with
  | [] => None
  | ep0 :: rest =>
      let start := zmin_list (Episode.start ep0) (map Episode.start rest) in
      let end_ := zmax_list (Episode.end_ ep0) (map Episode.end_ rest) in
      let situation_id :=
        "S-" +:+ pretty start +:+ "-" +:+ pretty end_ +:+ "-" +:+ pretty (length episodes) in
      let all_alerts := flat_map Episode.alerts episodes in
      let unique_entities := distinct (map Episode.entity_key episodes) in
      let unique_services :=
        distinct
          (flat_map (fun alert =>
                       match Alert.service alert with
                       | Some s =>
                           if truthy (Some s) && negb (bool_decide (s = "undefined"))
                           then [s] else []
                       | None => []
                       end) all_alerts) in
      let change_refs :=
        flat_map (fun ep =>
                    flat_map (fun deploy_key =>
                                if truthy (Some deploy_key)
                                then [{| cr_type := "deploy"; cr_sha := deploy_key;
                                         cr_started_at := Episode.start ep |}]
                                else [])
                             (Episode.deploy_keys ep)) episodes in
      let related_alerts :=
        map (fun alert =>
               {| ra_ts := Alert.ts alert;
                  ra_entity_key := Alert.entity_key alert;
                  ra_fingerprint := Alert.fingerprint alert;
                  ra_vendor_event_id := Alert.vendor_event_id alert;
                  ra_resource_id := Alert.resource_id alert |})
            (take 200 all_alerts) in
      Some {| Situation.situation_id := situation_id;
              Situation.window := {| w_start := start; w_end := end_ |};
              Situation.episodes := map summary episodes;
              Situation.blast_entities := Z.of_nat (length unique_entities);
              Situation.blast_services := Z.of_nat (length unique_services);
              Situation.change_refs := change_refs;
              Situation.resource_refs := resource_refs_loop episodes;
              Situation.related_alerts := related_alerts;
              Situation.all_alerts := all_alerts;
              Situation.raw_episodes := episodes;
              Situation.insufficient_temporal_spread := false;
              Situation.reason := None;
              Situation.pad_ms_used := PAD_MS_START;
              Situation.bin_size_s := BIN_SIZE_S_DEFAULT;
              Situation.bins := None;
              Situation.padded_window := None;
              Situation.rehydrated_alerts := None;
              Situation.primary_cause := None;
              Situation.score := None;
              Situation.next_actions := None |}
  end.

(** [list(enumerate(l))]. *)
Definition enumerate {A} (l : list A) : list (nat * A) := zip (seq 0 (length l)) l.

(** Non-empty intersection of two key lists: [a and b and set(a) & set(b)]. *)
Definition keys_intersect (a b : list string) : bool :=
  existsb (fun k => bool_decide (k ∈ b)) a.

(** The membership test on the adjacency dict:
    [e1 in graph and e2 in graph.get(e1, [])]. *)
Definition graph_edge (self : Engine) (e1 e2 : string) : bool :=
  match graph self !! e1 with
  | Some neighbours => bool_decide (e2 ∈ neighbours)
  | None => false
  end.

(** [if self.graph]: the adjacency dict is non-empty. *)
Definition has_graph (self : Engine) : bool := negb (bool_decide (graph self = ∅)).

(** The test under which [_build_situations] unions two episodes. *)
Definition should_union (self : Engine) (ep1 ep2 : Episode.t) : bool :=
  let overlap :=
    negb ((Episode.end_ ep1 + JOIN_HALO_MS <? Episode.start ep2)
          || (Episode.end_ ep2 + JOIN_HALO_MS <? Episode.start ep1)) in
  overlap &&
  (bool_decide (Episode.entity_key ep1 = Episode.entity_key ep2)
   || bool_decide (Episode.fingerprint ep1 = Episode.fingerprint ep2)
   || keys_intersect (Episode.deploy_keys ep1) (Episode.deploy_keys ep2)
   || keys_intersect (Episode.net_keys ep1) (Episode.net_keys ep2)
   || (has_graph self
       && (graph_edge self (Episode.entity_key ep1) (Episode.entity_key ep2)
           || graph_edge self (Episode.entity_key ep2) (Episode.entity_key ep1)))).

(** The grouping loop: every episode is appended to the group of its root;
    a root seen for the first time opens a new group at the end. *)
Fixpoint group_by_root (uf : UnionFind) (indexed : list (nat * Episode.t))
    (situation_groups : list (nat * list Episode.t)) : list (nat * list Episode.t) :=
  match indexed with
  | [] => situation_groups
  | (i, ep) :: rest =>
      let '(root, uf) := find uf i in
      group_by_root uf rest (group_append situation_groups root ep)
  end.

Definition _build_situations (self : Engine) (episodes : list Episode.t)
  : list (option Situation.t) :=
  match episodes with
  | [] => []
  | _ =>
      let indexed := enumerate episodes in
      let uf := fold_left (fun uf '(i, _) => snd (find uf i)) indexed uf_empty in
      let uf :=
        fold_left
          (fun uf '(i, ep1) =>
             fold_left
               (fun uf '(j, ep2) =>
                  if (j <=? i)%nat then uf
                  else if should_union self ep1 ep2 then union uf i j else uf)
               indexed uf)
          indexed uf in
      map (fun '(_, group_episodes) => _create_situation group_episodes)
          (group_by_root uf indexed [])
  end.

(** ** Temporal spread *)

(** [int(x / y)]: true division followed by truncation toward zero.  For the
    millisecond differences of a run (far below 2^53) the float quotient
    truncates to the integer quotient. *)
Definition int_div (x y : Z) : Z := Z.quot x y.

(** [bins[series_key][bin_idx] += 1]. *)
Fixpoint bins_incr (bins : Bins) (series_key : string) (bin_idx : nat) : Bins :=
  match bins with
  | [] => []
  | (k, series_bins) :: rest =>
      if decide (k = series_key)
      then (k, alter (fun count => count + 1) bin_idx series_bins) :: rest
      else (k, series_bins) :: bins_incr rest series_key bin_idx
  end.

Definition _create_bins (self : Engine) (alerts : list Alert.t)
    (start_ms end_ms bin_size_s : Z) : Bins :=
  let bin_size_ms := bin_size_s * 1000 in
  let num_bins := int_div (end_ms - start_ms) bin_size_ms + 1 in
  let series_keys := set_iter self (map Alert.fingerprint alerts) in
  let bins : Bins := map (fun series_key => (series_key, repeat 0 (Z.to_nat num_bins))) series_keys in
  fold_left
    (fun bins alert =>
       let bin_idx := int_div (Alert.ts alert - start_ms) bin_size_ms in
       if (0 <=? bin_idx) && (bin_idx <? num_bins)
       then bins_incr bins (Alert.fingerprint alert) (Z.to_nat bin_idx)
       else bins)
    alerts bins.

(** The counting loop of [_apply_temporal_spread] (the source names the
    counter [distinct_bins]): one more for every series that has a positive
    count somewhere. *)
Definition count_distinct_bins (bins : Bins) : Z :=
  fold_left
    (fun distinct_bins '(_, series_bins) =>
       if existsb (fun count => 0 <? count) series_bins
       then distinct_bins + 1 else distinct_bins)
    bins 0.

Definition mark_insufficient (situation : Situation.t) (reason : string) : Situation.t :=
  {| Situation.situation_id := Situation.situation_id situation;
     Situation.window := Situation.window situation;
     Situation.episodes := Situation.episodes situation;
     Situation.blast_entities := Situation.blast_entities situation;
     Situation.blast_services := Situation.blast_services situation;
     Situation.change_refs := Situation.change_refs situation;
     Situation.resource_refs := Situation.resource_refs situation;
     Situation.related_alerts := Situation.related_alerts situation;
     Situation.all_alerts := Situation.all_alerts situation;
     Situation.raw_episodes := Situation.raw_episodes situation;
     Situation.insufficient_temporal_spread := true;
     Situation.reason := Some reason;
     Situation.pad_ms_used := Situation.pad_ms_used situation;
     Situation.bin_size_s := Situation.bin_size_s situation;
     Situation.bins := Situation.bins situation;
     Situation.padded_window := Situation.padded_window situation;
     Situation.rehydrated_alerts := Situation.rehydrated_alerts situation;
     Situation.primary_cause := Situation.primary_cause situation;
     Situation.score := Situation.score situation;
     Situation.next_actions := Situation.next_actions situation |}.

Definition store_spread (situation : Situation.t) (pad_ms bin_size_s : Z) (bins : Bins)
    (padded : Window) (rehydrated_alerts : list Alert.t) : Situation.t :=
  {| Situation.situation_id := Situation.situation_id situation;
     Situation.window := Situation.window situation;
     Situation.episodes := Situation.episodes situation;
     Situation.blast_entities := Situation.blast_entities situation;
     Situation.blast_services := Situation.blast_services situation;
     Situation.change_refs := Situation.change_refs situation;
     Situation.resource_refs := Situation.resource_refs situation;
     Situation.related_alerts := Situation.related_alerts situation;
     Situation.all_alerts := Situation.all_alerts situation;
     Situation.raw_episodes := Situation.raw_episodes situation;
     Situation.insufficient_temporal_spread :=
       Situation.insufficient_temporal_spread situation;
     Situation.reason := Situation.reason situation;
     Situation.pad_ms_used := pad_ms;
     Situation.bin_size_s := bin_size_s;
     Situation.bins := Some bins;
     Situation.padded_window := Some padded;
     Situation.rehydrated_alerts := Some rehydrated_alerts;
     Situation.primary_cause := Situation.primary_cause situation;
     Situation.score := Situation.score situation;
     Situation.next_actions := Situation.next_actions situation |}.

(** The [while pad_ms <= MAX_PAD_MS] loop.  [fuel] bounds the number of
    iterations; [None] is returned only when it runs out. *)
Fixpoint spread_loop (fuel : nat) (self : Engine) (relevant_alerts : list Alert.t)
    (start end_ pad_ms : Z) (situation : Situation.t) : option Situation.t :=
  match fuel with
  | O => None
  | S fuel' =>
      if pad_ms <=? MAX_PAD_MS then
        let padded_start := start - pad_ms in
        let padded_end := end_ + pad_ms in
        let rehydrated_alerts :=
          filter (fun alert => padded_start <= Alert.ts alert <= padded_end) relevant_alerts in
        match rehydrated_alerts with
        | [] => spread_loop fuel' self relevant_alerts start end_ (pad_ms * 2) situation
        | _ =>
            let bin_size_s := BIN_SIZE_S_DEFAULT in
            let bins := _create_bins self rehydrated_alerts padded_start padded_end bin_size_s in
            let distinct_bins := count_distinct_bins bins in
            let '(bin_size_s, bins, distinct_bins) :=
              if distinct_bins <? MIN_BINS then
                let bin_size_s := BIN_SIZE_S_FALLBACK in
                let bins :=
                  _create_bins self rehydrated_alerts padded_start padded_end bin_size_s in
                (bin_size_s, bins, count_distinct_bins bins)
              else (bin_size_s, bins, distinct_bins) in
            let duration_ms := padded_end - padded_start in
            if (MIN_BINS <=? distinct_bins) && (MIN_SITUATION_MS <=? duration_ms) then
              Some (store_spread situation pad_ms bin_size_s bins
                      {| w_start := padded_start; w_end := padded_end |} rehydrated_alerts)
            else spread_loop fuel' self relevant_alerts start end_ (pad_ms * 2) situation
        end
      else
        Some (mark_insufficient situation
                ("Could not achieve " +:+ pretty MIN_BINS +:+ " distinct bins or "
                 +:+ pretty MIN_SITUATION_MS +:+ "ms duration"))
  end.

(** The alerts of the run that share an entity key, fingerprint, deploy key
    or net key with the situation's episodes. *)
Definition relevant_to (situation : Situation.t) (alerts : list Alert.t) : list Alert.t :=
  let situation_keys :=
    flat_map (fun ep => Episode.entity_key ep :: Episode.fingerprint ep
                          :: Episode.deploy_keys ep ++ Episode.net_keys ep)
             (Situation.raw_episodes situation) in
  let among (o : option string) :=
    match o with
    | Some k => truthy o && bool_decide (k ∈ situation_keys)
    | None => false
    end in
  List.filter
    (fun alert =>
       bool_decide (Alert.entity_key alert ∈ situation_keys)
       || bool_decide (Alert.fingerprint alert ∈ situation_keys)
       || among (Alert.deploy_key alert)
       || among (Alert.net_key alert))
    alerts.

(** Iterations granted to the padding loop: 60000 doubles past 600000 in
    four steps. *)
Definition SPREAD_FUEL : nat := 8.

(** [_apply_temporal_spread]; [alerts] is [self.alerts], the alerts that
    survived the noise cut. *)
Definition _apply_temporal_spread (self : Engine) (alerts : list Alert.t)
    (situation : Situation.t) : Situation.t :=
  let start := w_start (Situation.window situation) in
  let end_ := w_end (Situation.window situation) in
  if end_ - start <? MIN_SITUATION_MS then
    mark_insufficient situation
      ("Situation duration " +:+ pretty (end_ - start) +:+ "ms < minimum "
       +:+ pretty MIN_SITUATION_MS +:+ "ms")
  else
    match spread_loop SPREAD_FUEL self (relevant_to situation alerts) start end_
                      PAD_MS_START situation with
    | Some situation' => situation'
    | None => situation
    end.

(** ** Correlation kernels *)

Inductive Method := burst | pmi | leadlag.

#[global] Instance method_eq_dec : EqDecision Method.
Proof. solve_decision. Defined.

(** The method-specific metrics.  [pm_ratio] is [p_ab / (p_a * p_b)]; the
    source reports its base-2 logarithm as [pmi]. *)
Inductive Metrics :=
| BurstMetrics (aligned : Z) (score : float)
| PmiMetrics (pm_ratio : float) (co_count : Z)
| LeadlagMetrics (lag_ms : Z) (score : float).

Record Correlation := {
  method : Method;
  c_situation_id : string;
  series_a : string;
  series_b : string;
  (* [situation['padded_window']], set together with the bin matrix *)
  c_window : option Window;
  metrics : Metrics;
  resource_ids_a : list string;
  resource_ids_b : list string
}.

(** Conversion of a Python [int] to [float] (exact below 2^53). *)
Definition float_of_Z (z : Z) : float :=
  if z <? 0 then PrimFloat.opp (PrimFloat.of_uint63 (Uint63.of_Z (- z)))
  else PrimFloat.of_uint63 (Uint63.of_Z z).

Definition Qltb (x y : Q) : bool := negb (Qle_bool y x).

(** [statistics.median] of a non-empty list.  The values met here are
    integers and half-integers, exact in binary64, hence taken in [Q]. *)
Definition median (data : list Q) : Q :=
  let data := py_sorted Qltb data in
  let n := length data in
  if Nat.odd n then nth (n / 2) data 0%Q
  else ((nth (n / 2 - 1) data 0%Q + nth (n / 2) data 0%Q) / 2)%Q.

(** [get_burst_threshold]; [None] is [float('inf')]. *)
Definition get_burst_threshold (series : list Z) : option Q :=
  match series with
  | [] => None
  | x :: rest =>
      if bool_decide (zmax_list x rest = 0) then None
      else
        let m := median (map inject_Z series) in
        let mad := median (map (fun x => Qabs (inject_Z x - m)) series) in
        Some (m + 3 * mad)%Q
  end.

(** [[i for i, x in enumerate(series) if x > threshold]]. *)
Definition bursts_of (series : list Z) : list nat :=
  match get_burst_threshold series with
  | None => []
  | Some threshold =>
      flat_map (fun '(i, x) => if Qltb threshold (inject_Z x) then [i] else [])
               (enumerate series)
  end.

Definition _burst_correlation (self : Engine) (series_a series_b : list Z)
  : option (Z * float) :=
  if negb (bool_decide (length series_a = length series_b)) || (length series_a <? 3)%nat
  then None
  else
    let bursts_a := bursts_of series_a in
    let bursts_b := bursts_of series_b in
    match bursts_a, bursts_b with
    | [], _ | _, [] => None
    | _, _ =>
        let aligned :=
          fold_left
            (fun aligned burst_a =>
               if existsb (fun burst_b => Z.abs (Z.of_nat burst_a - Z.of_nat burst_b) <=? 1)
                          bursts_b
               then aligned + 1 else aligned)
            bursts_a 0 in
        if aligned <? min_support (args self) then None
        else
          let burst_score :=
            PrimFloat.div (float_of_Z aligned)
              (PrimFloat.sqrt
                 (float_of_Z (Z.of_nat (length bursts_a) * Z.of_nat (length bursts_b)))) in
          if PrimFloat.leb 0.2%float burst_score then Some (aligned, burst_score) else None
    end.

(** [[1 if x > 0 else 0 for x in series]]. *)
Definition binarize (series : list Z) : list Z :=
  map (fun x => if 0 <? x then 1 else 0) series.

(** [_pmi_correlation].  The last test of the source is
    [math.log2(ratio) >= 1.0]; [log2] is increasing and exact at 2, so the
    test is taken on the ratio itself. *)
Definition _pmi_correlation (self : Engine) (series_a series_b : list Z)
  : option (float * Z) :=
  if negb (bool_decide (length series_a = length series_b)) || (length series_a <? 3)%nat
  then None
  else
    let active_a := binarize series_a in
    let active_b := binarize series_b in
    let co_count :=
      zsum (map (fun '(a, b) => if negb (a =? 0) && negb (b =? 0) then 1 else 0)
                (zip active_a active_b)) in
    let count_a := zsum active_a in
    let count_b := zsum active_b in
    let total := Z.of_nat (length series_a) in
    if co_count <? min_support (args self) then None
    else
      let co_count := co_count + 1 in
      let count_a := count_a + 1 in
      let count_b := count_b + 1 in
      let total := total + 4 in
      let p_ab := PrimFloat.div (float_of_Z co_count) (float_of_Z total) in
      let p_a := PrimFloat.div (float_of_Z count_a) (float_of_Z total) in
      let p_b := PrimFloat.div (float_of_Z count_b) (float_of_Z total) in
      if PrimFloat.eqb p_a 0%float || PrimFloat.eqb p_b 0%float then None
      else
        let ratio := PrimFloat.div p_ab (PrimFloat.mul p_a p_b) in
        if PrimFloat.leb 2%float ratio then Some (ratio, co_count - 1) else None.

(** The lag scan of [_leadlag_correlation]: the best score and its lag, in
    bins.  [best_score] starts at 0 and is replaced only by a strictly
    larger score. *)
Definition leadlag_scan (self : Engine) (impulse_a impulse_b : list Z) : float * Z :=
  let max_lag_bins := Z.min (max_lag (args self)) (Z.of_nat (length impulse_a) - 1) in
  fold_left
    (fun '(best_score, best_lag) lag =>
       let '(aligned, total_a, total_b) :=
         if bool_decide (lag = 0%nat) then
           (zsum (map (fun '(a, b) => a * b) (zip impulse_a impulse_b)),
            zsum impulse_a, zsum impulse_b)
         else
           (zsum (map (fun '(a, b) => a * b) (zip impulse_a (drop lag impulse_b))),
            zsum (take (length impulse_a - lag) impulse_a),
            zsum (drop lag impulse_b)) in
       if (total_a =? 0) || (total_b =? 0) then (best_score, best_lag)
       else
         let score :=
           PrimFloat.div (float_of_Z aligned)
                         (PrimFloat.sqrt (float_of_Z (total_a * total_b))) in
         if PrimFloat.ltb best_score score then (score, Z.of_nat lag)
         else (best_score, best_lag))
    (seq 0 (Z.to_nat (max_lag_bins + 1)))
    (0%float, 0).

Definition _leadlag_correlation (self : Engine) (series_a series_b : list Z)
  : option (Z * float) :=
  if negb (bool_decide (length series_a = length series_b)) || (length series_a <? 3)%nat
  then None
  else
    let impulse_a := binarize series_a in
    let impulse_b := binarize series_b in
    let '(best_score, best_lag) := leadlag_scan self impulse_a impulse_b in
    if PrimFloat.leb 0.3%float best_score
       && (2 <=? zsum impulse_a) && (2 <=? zsum impulse_b)
    then Some (best_lag * 1000, best_score)
    else None.

(** ** Running the kernels over a situation *)

Definition MAX_SERIES : Z := 400.
Definition MAX_PAIRS : Z := 20000.

(** [bins[key]]. *)
Definition bins_get (bins : Bins) (key : string) : list Z :=
  match List.find (fun '(k, _) => bool_decide (k = key)) bins with
  | Some (_, series_bins) => series_bins
  | None => []
  end.

(** Order of [(activity, key)] tuples under [sort(reverse=True)]: the larger
    tuple first. *)
Definition tuple_gt (x y : Z * string) : bool :=
  (fst y <? fst x) || ((fst x =? fst y) && String.ltb (snd y) (snd x)).

(** [list(combinations(l, 2))]. *)
Fixpoint combinations2 {A} (l : list A) : list (A * A) :=
  match l with
  | [] => []
  | x :: rest => map (pair x) rest ++ combinations2 rest
  end.

Definition _get_resource_ids_for_series (self : Engine) (situation : Situation.t)
    (series_key : string) : list string :=
  let fingerprint := series_key in
  let resource_ids :=
    flat_map (fun ep => if bool_decide (Episode.fingerprint ep = fingerprint)
                        then Episode.resource_ids ep else [])
             (Situation.raw_episodes situation) in
  take 10 (set_iter self resource_ids).

(** The series keys the pairs are drawn from: the keys of the bin matrix,
    or the 400 most active ones. *)
Definition limited_series_keys (bins : Bins) : list string :=
  let series_keys := map fst bins in
  if MAX_SERIES <? Z.of_nat (length series_keys) then
    let series_activity := map (fun key => (zsum (bins_get bins key), key)) series_keys in
    map snd (take (Z.to_nat MAX_SERIES) (py_sorted tuple_gt series_activity))
  else series_keys.

Definition correlation_pairs (bins : Bins) : list (string * string) :=
  let pairs := combinations2 (limited_series_keys bins) in
  if MAX_PAIRS <? Z.of_nat (length pairs) then take (Z.to_nat MAX_PAIRS) pairs else pairs.

(** The body of the loop over the pairs: up to three records are appended
    to [correlations]. *)
Definition correlate_pair (self : Engine) (situation : Situation.t) (bins : Bins)
    (correlations : list Correlation) (pair : string * string) : list Correlation :=
  let '(a, b) := pair in
  let record m mt :=
    {| method := m;
       c_situation_id := Situation.situation_id situation;
       series_a := a;
       series_b := b;
       c_window := Situation.padded_window situation;
       metrics := mt;
       resource_ids_a := _get_resource_ids_for_series self situation a;
       resource_ids_b := _get_resource_ids_for_series self situation b |} in
  let correlations :=
    match _burst_correlation self (bins_get bins a) (bins_get bins b) with
    | Some (aligned, score) => correlations ++ [record burst (BurstMetrics aligned score)]
    | None => correlations
    end in
  let correlations :=
    match _pmi_correlation self (bins_get bins a) (bins_get bins b) with
    | Some (ratio, co_count) => correlations ++ [record pmi (PmiMetrics ratio co_count)]
    | None => correlations
    end in
  match _leadlag_correlation self (bins_get bins a) (bins_get bins b) with
  | Some (lag_ms, score) => correlations ++ [record leadlag (LeadlagMetrics lag_ms score)]
  | None => correlations
  end.

Definition _run_correlations (self : Engine) (situation : Situation.t) : list Correlation :=
  if Situation.insufficient_temporal_spread situation then []
  else
    match Situation.bins situation with
    | None | Some [] => []
    | Some bins =>
        fold_left (correlate_pair self situation bins) (correlation_pairs bins) []
    end.

(** ** Primary cause *)

Local Open Scope R_scope.

Definition _calculate_flap_score (noise : NoiseState) (fingerprint entity_key : string) : R :=
  match flap_tracker noise !! (fingerprint, entity_key) with
  | None => 0
  | Some entries =>
      let statuses := map snd entries in
      if (length statuses <? 2)%nat then 0
      else
        let toggles :=
          length (List.filter (fun '(prev, cur) => negb (bool_decide (cur = prev)))
                              (zip statuses (drop 1 statuses))) in
        Rmin 0.3 (INR toggles / INR (length statuses))
  end.

(** The adjacency dict read with [graph.get(current, [])]. *)
Definition neighbours (self : Engine) (current : string) : list string :=
  default [] (graph self !! current).

(** The [while queue] loop of [_has_path_bfs]; [fuel] bounds the number of
    pops. *)
Fixpoint bfs_loop (fuel : nat) (self : Engine) (target : string)
    (visited queue : list string) : bool :=
  match fuel with
  | O => false
  | S fuel' =>
      match queue with
      | [] => false
      | current :: queue =>
          if bool_decide (current ∈ visited) then bfs_loop fuel' self target visited queue
          else
            let visited := current :: visited in
            if bool_decide (current = target) then true
            else
              bfs_loop fuel' self target visited
                (queue ++ List.filter (fun neighbor => negb (bool_decide (neighbor ∈ visited)))
                                      (neighbours self current))
      end
  end.

(** Every pop but the first is paid for by one adjacency entry of a node
    visited once: the queue never sees more than this many pops. *)
Definition bfs_fuel (self : Engine) : nat :=
  S (S (map_fold (fun _ ns n => (length ns + n)%nat) 0%nat (graph self))).

Definition _has_path_bfs (self : Engine) (start target : string) : bool :=
  if bool_decide (start = target) then true
  else bfs_loop (bfs_fuel self) self target [] [start].

Definition _check_dependency_path (self : Engine) (cause_episode : Episode.t)
    (all_episodes : list Episode.t) : bool :=
  if negb (has_graph self) then true
  else
    let cause_entity := Episode.entity_key cause_episode in
    existsb
      (fun episode =>
         if bool_decide (episode = cause_episode) then false
         else _has_path_bfs self cause_entity (Episode.entity_key episode))
      all_episodes.

Record ScoreComponents := {
  change_proximity : R;
  lead_lag : R;
  graph_path : R;
  cardinality : R;
  sc_severity : R;
  flap : R;
  echo : R
}.

(** The severity scan over the cause episode's alerts, which stops at the
    first critical one. *)
Fixpoint max_severity_loop (alerts : list Alert.t) (max_severity : string) : string :=
  match alerts with
  | [] => max_severity
  | alert :: rest =>
      let severity := Alert.severity alert in
      if bool_decide (severity = "critical") then "critical"
      else if bool_decide (severity = "high")
              && negb (bool_decide (max_severity = "critical"))
      then max_severity_loop rest "high"
      else if bool_decide (severity = "medium")
              && negb (bool_decide (max_severity ∈ ["critical"; "high"]))
      then max_severity_loop rest "medium"
      else max_severity_loop rest max_severity
  end.

Definition severity_scores (max_severity : string) : R :=
  if bool_decide (max_severity = "low") then 0.25
  else if bool_decide (max_severity = "medium") then 0.5
  else if bool_decide (max_severity = "high") then 0.75
  else if bool_decide (max_severity = "critical") then 1.0
  else 0.25.

Definition _calculate_score_components (self : Engine) (noise : NoiseState)
    (episode : Episode.t) (situation : Situation.t) (has_path : bool) : ScoreComponents :=
  let unique_entities :=
    length (distinct (map Episode.entity_key (Situation.raw_episodes situation))) in
  {| change_proximity :=
       match Episode.deploy_keys episode with
       | [] => 0.0
       | _ => 1.0  (* time_since_change = 0 <= 5 *)
       end;
     lead_lag := 0.0;
     graph_path := if has_path && has_graph self then 1.0 / (1 + 1) else 0.0;
     cardinality := ln (IZR (Z.max 1 (Z.of_nat unique_entities))) / ln 10;
     sc_severity := severity_scores (max_severity_loop (Episode.alerts episode) "low");
     flap := _calculate_flap_score noise (Episode.fingerprint episode)
                                   (Episode.entity_key episode);
     echo :=
       match echo_tracker noise !! (Episode.fingerprint episode, Episode.entity_key episode) with
       | Some entries => if (1 <? length entries)%nat then 0.3 else 0.0
       | None => 0.0
       end |}.

Definition _generate_next_actions (episode : Episode.t) (confidence : R) : list string :=
  if Rlt_dec 0.8 confidence then
    match Episode.deploy_keys episode with
    | deploy_key :: _ =>
        [("rollback deployment " +:+ String.substring 0 8 deploy_key)%string;
         "page oncall team"%string]
    | [] => ["page oncall team"%string]
    end
  else if Rlt_dec 0.5 confidence then
    ["investigate root cause"%string; "check recent changes"%string]
  else ["monitor situation"%string; "gather more data"%string].

(** [min(episodes, key=lambda ep: ep['start'])]: the first episode of least
    start. *)
Definition earliest (ep0 : Episode.t) (rest : list Episode.t) : Episode.t :=
  fold_left (fun best ep => if (Episode.start ep <? Episode.start best)%Z then ep else best)
            rest ep0.

Definition composite_score (c : ScoreComponents) : R :=
  0.35 * change_proximity c + 0.20 * lead_lag c + 0.20 * graph_path c
  + 0.15 * cardinality c + 0.15 * sc_severity c
  - 0.10 * flap c - 0.05 * echo c.

(** The confidence of [_select_primary_cause] for the cause candidate. *)
Definition cause_confidence (self : Engine) (noise : NoiseState)
    (earliest_episode : Episode.t) (situation : Situation.t) : R :=
  let has_path :=
    _check_dependency_path self earliest_episode (Situation.raw_episodes situation) in
  let score_components :=
    _calculate_score_components self noise earliest_episode situation has_path in
  let confidence := Rmin 1.0 (Rmax 0.0 (composite_score score_components)) in
  if negb has_path && has_graph self then Rmin confidence 0.35 else confidence.

Definition store_cause (situation : Situation.t) (cause : PrimaryCause)
    (next_actions : list string) : Situation.t :=
  {| Situation.situation_id := Situation.situation_id situation;
     Situation.window := Situation.window situation;
     Situation.episodes := Situation.episodes situation;
     Situation.blast_entities := Situation.blast_entities situation;
     Situation.blast_services := Situation.blast_services situation;
     Situation.change_refs := Situation.change_refs situation;
     Situation.resource_refs := Situation.resource_refs situation;
     Situation.related_alerts := Situation.related_alerts situation;
     Situation.all_alerts := Situation.all_alerts situation;
     Situation.raw_episodes := Situation.raw_episodes situation;
     Situation.insufficient_temporal_spread :=
       Situation.insufficient_temporal_spread situation;
     Situation.reason := Situation.reason situation;
     Situation.pad_ms_used := Situation.pad_ms_used situation;
     Situation.bin_size_s := Situation.bin_size_s situation;
     Situation.bins := Situation.bins situation;
     Situation.padded_window := Situation.padded_window situation;
     Situation.rehydrated_alerts := Situation.rehydrated_alerts situation;
     Situation.primary_cause := Some cause;
     Situation.score := Some (pc_confidence cause);
     Situation.next_actions := Some next_actions |}.

Definition _select_primary_cause (self : Engine) (noise : NoiseState)
    (situation : Situation.t) : Situation.t :=
  match Situation.raw_episodes situation with
  | [] => situation
  | ep0 :: rest =>
      let earliest_episode := earliest ep0 rest in
      let confidence := cause_confidence self noise earliest_episode situation in
      store_cause situation
        {| pc_entity := Episode.entity_key earliest_episode;
           pc_fingerprint := Episode.fingerprint earliest_episode;
           pc_confidence := confidence;
           pc_lag_ms := 0 |}
        (_generate_next_actions earliest_episode confidence)
  end.

Local Close Scope R_scope.

(** ** The run and its output stream *)

(** The [run_meta] line ([generated_at], the wall-clock time of the run, is
    left out). *)
Record RunMeta := {
  rm_input_dir : string;
  rm_window_sec : Z;
  rm_max_lag_sec : Z;
  rm_min_support : Z;
  rm_dedup_ttl_sec : Z;
  rm_episode_gap_sec : Z;
  rm_raw_alerts : Z;
  rm_processed_alerts : Z;
  rm_episodes_created : Z;
  rm_situations_created : Z;
  rm_correlations_found : Z
}.

Record SituationRecord := {
  sr_situation_id : string;
  sr_window : Window;
  sr_episodes : list EpisodeSummary;
  sr_primary_cause : option PrimaryCause;
  sr_blast_entities : Z;
  sr_blast_services : Z;
  sr_change_refs : list ChangeRef;
  sr_resource_refs : list ResourceRef;
  sr_related_alerts : list RelatedAlert;
  sr_score : R;
  sr_next_actions : list string;
  sr_insufficient_temporal_spread : bool;
  sr_reason : option string;
  sr_pad_ms_used : Z;
  sr_bin_size_s : Z
}.

Inductive OutRecord :=
| RunMetaLine (m : RunMeta)
| SituationLine (s : SituationRecord)
| CorrelationLine (c : Correlation).

(** A raw vendor record as the core sees it: the alert the Normalizer makes
    of it, or nothing when the record is skipped (unknown format, failed
    normalization). *)
Definition RawAlert := option Alert.t.

Definition normalize_alerts (raw_alerts : list RawAlert) : list Alert.t :=
  omap (fun raw_alert : RawAlert => raw_alert) raw_alerts.

Definition output_situation (situation : Situation.t) : SituationRecord :=
  {| sr_situation_id := Situation.situation_id situation;
     sr_window := Situation.window situation;
     sr_episodes := Situation.episodes situation;
     sr_primary_cause := Situation.primary_cause situation;
     sr_blast_entities := Situation.blast_entities situation;
     sr_blast_services := Situation.blast_services situation;
     sr_change_refs := Situation.change_refs situation;
     sr_resource_refs := Situation.resource_refs situation;
     sr_related_alerts := Situation.related_alerts situation;
     sr_score := default 0%R (Situation.score situation);
     sr_next_actions := default [] (Situation.next_actions situation);
     sr_insufficient_temporal_spread := Situation.insufficient_temporal_spread situation;
     sr_reason := Situation.reason situation;
     sr_pad_ms_used := Situation.pad_ms_used situation;
     sr_bin_size_s := Situation.bin_size_s situation |}.

(** The lines [_write_output] writes, from the engine's fields at that
    point. *)
Definition _write_output (self : Engine) (raw_alerts : list RawAlert)
    (alerts : list Alert.t) (episodes : list Episode.t)
    (situations : list Situation.t) (correlations : list Correlation) : list OutRecord :=
  let run_meta :=
    {| rm_input_dir := input (args self);
       rm_window_sec := window (args self);
       rm_max_lag_sec := max_lag (args self);
       rm_min_support := min_support (args self);
       rm_dedup_ttl_sec := dedup_ttl (args self);
       rm_episode_gap_sec := episode_gap (args self);
       rm_raw_alerts := Z.of_nat (length raw_alerts);
       rm_processed_alerts := Z.of_nat (length alerts);
       rm_episodes_created := Z.of_nat (length episodes);
       rm_situations_created := Z.of_nat (length situations);
       rm_correlations_found := Z.of_nat (length correlations) |} in
  RunMetaLine run_meta
    :: map (fun s => SituationLine (output_situation s)) situations
    ++ map CorrelationLine correlations.

(** Step 6 of [run] for one raw situation: spread, correlations unless the
    spread is insufficient, primary cause. *)
Definition process_situation (self : Engine) (noise : NoiseState) (alerts : list Alert.t)
    (acc : list Situation.t * list Correlation) (raw : option Situation.t)
  : list Situation.t * list Correlation :=
  let '(situations, correlations) := acc in
  match raw with
  | None => acc
  | Some situation =>
      let situation := _apply_temporal_spread self alerts situation in
      let correlations :=
        if negb (Situation.insufficient_temporal_spread situation)
        then correlations ++ _run_correlations self situation
        else correlations in
      let situation := _select_primary_cause self noise situation in
      (situations ++ [situation], correlations)
  end.

(** [run]: the lines written to the output file, or [None] when the run
    returns before [_write_output] and writes no file. *)
Definition run (self : Engine) (raw_alerts : list RawAlert) : option (list OutRecord) :=
  match raw_alerts with
  | [] => None
  | _ =>
      match normalize_alerts raw_alerts with
      | [] => None
      | alerts =>
          let '(noise, filtered_alerts) := _apply_noise_cut self fresh_noise alerts in
          let episodes := _build_episodes self filtered_alerts in
          let raw_situations := _build_situations self episodes in
          let '(situations, correlations) :=
            fold_left (process_situation self noise filtered_alerts) raw_situations ([], []) in
          Some (_write_output self raw_alerts filtered_alerts episodes situations correlations)
      end
  end.

(** * Vocabulary of the statements

    Recursive readings of the loops, the lines of the output stream, the
    relations the theorems speak about and the concrete inputs they are
    evaluated on. *)

Fixpoint noise_run (self : Engine) (st : NoiseState) (l : list Alert.t)
  : NoiseState * list Alert.t :=
  match l with
  | [] => (st, [])
  | alert :: l' =>
      match noise_cut_body self st alert with
      | (st', Some a) => let '(st'', out) := noise_run self st' l' in (st'', a :: out)
      | (st', None) => noise_run self st' l'
      end
  end.

Definition ts_sorted (l : list Alert.t) : Prop :=
  StronglySorted (fun x y => Alert.ts x <= Alert.ts y) l.

Definition scenario_key (a0 a : Alert.t) : Prop :=
  Alert.fingerprint a = Alert.fingerprint a0
  /\ Alert.severity a = Alert.severity a0
  /\ Alert.entity_key a = Alert.entity_key a0.

Definition cache_below (c2 c1 : gmap (string * string * string) Z) : Prop :=
  forall k t2, c2 !! k = Some t2 -> exists t1, c1 !! k = Some t1 /\ t2 <= t1.

Definition cache_bounded (st : NoiseState) (l : list Alert.t) : Prop :=
  forall k t, dedup_cache st !! k = Some t -> Forall (fun a => t <= Alert.ts a) l.

Definition good_bins (n : nat) (seen : list string) (bins : Bins) : Prop :=
  Forall (fun '(k, v) => length v = n /\ Forall (Z.le 0) v
                         /\ (k ∈ seen -> Exists (Z.lt 0) v)) bins.

Definition in_window (start_ms end_ms : Z) (alert : Alert.t) : Prop :=
  start_ms <= Alert.ts alert <= end_ms.

Definition pair_records (self : Engine) (situation : Situation.t) (bins : Bins)
    (pair : string * string) : list Correlation :=
  correlate_pair self situation bins [] pair.

Definition method_rank (m : Method) : nat :=
  match m with burst => 0 | pmi => 1 | leadlag => 2 end.

Definition situation_pairs (situation : Situation.t) : list (string * string) :=
  if Situation.insufficient_temporal_spread situation then []
  else match Situation.bins situation with
       | Some bins => correlation_pairs bins
       | None => []
       end.

Definition precedes {A} (x y : A) (l : list A) : Prop :=
  exists l1 l2 l3, l = l1 ++ x :: l2 ++ y :: l3.

Definition correlation_lines (out : list OutRecord) : list Correlation :=
  flat_map (fun line => match line with CorrelationLine c => [c] | _ => [] end) out.

Definition situation_lines (out : list OutRecord) : list SituationRecord :=
  flat_map (fun line => match line with SituationLine s => [s] | _ => [] end) out.

Definition run_meta_lines (out : list OutRecord) : list RunMeta :=
  flat_map (fun line => match line with RunMetaLine m => [m] | _ => [] end) out.

Definition run_noise (self : Engine) (raw_alerts : list RawAlert) : NoiseState :=
  fst (_apply_noise_cut self fresh_noise (normalize_alerts raw_alerts)).

Definition run_filtered (self : Engine) (raw_alerts : list RawAlert) : list Alert.t :=
  snd (_apply_noise_cut self fresh_noise (normalize_alerts raw_alerts)).

Definition run_episodes (self : Engine) (raw_alerts : list RawAlert) : list Episode.t :=
  _build_episodes self (run_filtered self raw_alerts).

Definition run_raw_situations (self : Engine) (raw_alerts : list RawAlert)
  : list Situation.t :=
  omap (fun s : option Situation.t => s)
       (_build_situations self (run_episodes self raw_alerts)).

Definition run_spread (self : Engine) (raw_alerts : list RawAlert) (s : Situation.t)
  : Situation.t :=
  _apply_temporal_spread self (run_filtered self raw_alerts) s.

Definition output_lines (self : Engine) (raw_alerts : list RawAlert) : list OutRecord :=
  default [] (run self raw_alerts).

Definition default_args : Args :=
  {| input := "alerts"; window := 900; hop := 1; dedup_ttl := 120;
     episode_gap := 300; max_lag := 90; min_support := 3 |}.

Definition mk_alert (t : Z) (fingerprint entity_key : string) (deploy_key : option string)
  : RawAlert :=
  Some (Alert.mk t "datadog" "evt" "res" fingerprint "firing" "high" (Some "undefined")
                 entity_key deploy_key None None []).

Definition first_seen_engine : Engine :=
  {| args := default_args; graph := ∅; set_rank := fun _ _ => 0 |}.

Definition reversed_engine : Engine :=
  {| args := default_args; graph := ∅;
     set_rank := fun _ k => if bool_decide (k = "f1") then 3
                            else if bool_decide (k = "f2") then 2 else 1 |}.

Definition three_series_input : list RawAlert :=
  [mk_alert 0 "f1" "svc:a" None; mk_alert 0 "f2" "svc:a" None; mk_alert 0 "f3" "svc:a" None;
   mk_alert 120000 "f1" "svc:a" None; mk_alert 120000 "f2" "svc:a" None;
   mk_alert 120000 "f3" "svc:a" None;
   mk_alert 240000 "f1" "svc:a" None; mk_alert 240000 "f2" "svc:a" None;
   mk_alert 240000 "f3" "svc:a" None].

Definition unsorted_input : list RawAlert :=
  [mk_alert 0 "f1" "svc:a" None; mk_alert 5000 "f2" "svc:b" None;
   mk_alert 1000000 "f1" "svc:a" None].

Definition one_series_input : list RawAlert :=
  [mk_alert 0 "f" "pod:a" None; mk_alert 5000 "f" "pod:b" None;
   mk_alert 10000 "f" "pod:c" None].

Definition one_bin_input : list RawAlert :=
  [mk_alert 0 "f1" "svc:a" None; mk_alert 0 "f2" "svc:a" None; mk_alert 0 "f3" "svc:a" None;
   mk_alert 10000 "f1" "svc:b" None].

(** The number of bins (time slots) in which at least one series has a
    positive count. *)
Definition nonempty_bin_count (bins : Bins) : Z :=
  let num_bins := list_max (map (fun '(_, v) => length v) bins) in
  Z.of_nat
    (length (List.filter (fun i => existsb (fun '(_, v) => 0 <? nth i v 0) bins)
                         (seq 0 num_bins))).

(** The success condition of the spread as the specification words it: some
    padding of the doubling sequence and some bin width give at least
    [MIN_BINS] non-empty bins over the rehydrated padded window. *)
Definition spread_succeeds_by_bins (self : Engine) (alerts : list Alert.t)
    (situation : Situation.t) : bool :=
  let start := w_start (Situation.window situation) in
  let end_ := w_end (Situation.window situation) in
  existsb
    (fun pad_ms =>
       let rehydrated_alerts :=
         filter (fun alert => start - pad_ms <= Alert.ts alert <= end_ + pad_ms)
                (relevant_to situation alerts) in
       existsb
         (fun bin_size_s =>
            MIN_BINS <=? nonempty_bin_count
                           (_create_bins self rehydrated_alerts (start - pad_ms)
                                         (end_ + pad_ms) bin_size_s))
         [BIN_SIZE_S_DEFAULT; BIN_SIZE_S_FALLBACK])
    [60000; 120000; 240000; 480000].

(** The group [g] is non-empty and its first member is the episode at
    position [i] of [all]. *)
Definition first_member_at {K} (all : list Episode.t) (g : K * list Episode.t) (i : nat)
  : Prop :=
  exists ep rest, snd g = ep :: rest /\ all !! i = Some ep.

(** An edge of the adjacency dict, and paths along edges (the empty path
    included). *)
Definition edge (self : Engine) (x y : string) : Prop := y ∈ neighbours self x.

Definition reachable (self : Engine) : string -> string -> Prop := rtc (edge self).




(** An alert of the dedup scenario: one fingerprint, severity and entity. *)
Definition scenario_alert (t : Z) : Alert.t :=
  Alert.mk t "datadog" "evt" "res" "f1" "firing" "high" (Some "undefined") "svc:a"
           None None None [].

(** Every cached timestamp and every tracked echo entry of [st] stems from
    an alert of [seen]. *)
Definition tracked_from (st : NoiseState) (seen : list Alert.t) : Prop :=
  (forall k t, dedup_cache st !! k = Some t ->
               exists b, b ∈ seen /\ dedup_key b = k /\ Alert.ts b = t)
  /\ (forall k t s, (t, s) ∈ dd_get (echo_tracker st) k ->
                    exists b, b ∈ seen /\ echo_key b = k /\ Alert.ts b = t
                              /\ Alert.source b = s).

(** [b] cannot make the noise cut drop [a]: it is no duplicate within the
    TTL and no echo from another source within the echo window. *)
Definition clear_of (self : Engine) (a b : Alert.t) : Prop :=
  (dedup_key b = dedup_key a -> dedup_ttl (args self) * 1000 <= Alert.ts a - Alert.ts b)
  /\ (echo_key b = echo_key a -> Alert.source b <> Alert.source a ->
      echo_window < Alert.ts a - Alert.ts b).

(** Consecutive alerts of [l] are in time order and at most [gap_ms]
    apart. *)
Definition chained (gap_ms : Z) (l : list Alert.t) : Prop :=
  forall i a b, l !! i = Some a -> l !! S i = Some b ->
                0 <= Alert.ts b - Alert.ts a <= gap_ms.

(** The key under which [_build_episodes] groups an alert. *)
Definition group_key (alert : Alert.t) : string * string :=
  (Alert.entity_key alert, Alert.fingerprint alert).

(** The invariant of an episode: its alerts are those of one
    (entity_key, fingerprint) pair, consecutive ones at most [episode_gap]
    seconds apart, and its summary fields describe them. *)
Definition episode_invariant (self : Engine) (ep : Episode.t) : Prop :=
  Forall (fun a => group_key a = (Episode.entity_key ep, Episode.fingerprint ep))
         (Episode.alerts ep)
  /\ chained (episode_gap (args self) * 1000) (Episode.alerts ep)
  /\ Episode.start ep <= Episode.end_ ep
  /\ 1 <= Episode.count ep
  /\ Episode.count ep = Z.of_nat (length (Episode.alerts ep))
  /\ (exists first, head (Episode.alerts ep) = Some first
                    /\ Alert.ts first = Episode.start ep)
  /\ (exists final, last (Episode.alerts ep) = Some final
                    /\ Alert.ts final = Episode.end_ ep).

(** Episodes of one (entity_key, fingerprint) pair come in time order and
    more than [episode_gap] seconds apart. *)
Definition key_separated (self : Engine) (episodes : list Episode.t) : Prop :=
  forall i j ep1 ep2,
    episodes !! i = Some ep1 -> episodes !! j = Some ep2 -> (i < j)%nat ->
    Episode.entity_key ep1 = Episode.entity_key ep2 ->
    Episode.fingerprint ep1 = Episode.fingerprint ep2 ->
    Episode.end_ ep1 + episode_gap (args self) * 1000 < Episode.start ep2.

(** [chain p n x r]: following the parent links of [p] from [x] reaches the
    root [r] in [n] steps. *)
Inductive chain (p : gmap nat nat) : nat -> nat -> nat -> Prop :=
| chain_root x : p !! x = Some x -> chain p 0 x x
| chain_step n x y r : p !! x = Some y -> y <> x -> chain p n y r -> chain p (S n) x r.

(** [r] is the representative of [x]. *)
Definition repr (p : gmap nat nat) (x r : nat) : Prop := exists n, chain p n x r.

(** Every node of the forest has a representative. *)
Definition uf_wf (uf : UnionFind) : Prop :=
  forall x, is_Some (parent uf !! x) -> exists r, repr (parent uf) x r.

(** [x] and [y] are in the same set. *)
Definition same_set (uf : UnionFind) (x y : nat) : Prop :=
  exists r, repr (parent uf) x r /\ repr (parent uf) y r.

(** The sets after [union(x, y)], in terms of the sets before. *)
Definition merged (uf : UnionFind) (x y a b : nat) : Prop :=
  same_set uf a b
  \/ (same_set uf a x /\ same_set uf y b)
  \/ (same_set uf a y /\ same_set uf x b).

(** A forest with the two singleton sets {0} and {1}. *)
Definition two_nodes : UnionFind := snd (find (snd (find uf_empty 0%nat)) 1%nat).




(** The padding tried at iteration [k] of the spread loop. *)
Definition pad_step (k : nat) : Z := PAD_MS_START * 2 ^ Z.of_nat k.

(** The alerts rehydrated for a situation at padding [pad_ms]. *)
Definition rehydrated (situation : Situation.t) (alerts : list Alert.t) (pad_ms : Z)
  : list Alert.t :=
  filter (fun alert =>
            w_start (Situation.window situation) - pad_ms <= Alert.ts alert
            <= w_end (Situation.window situation) + pad_ms)
         (relevant_to situation alerts).

(** The number of distinct fingerprints among them. *)
Definition series_in_padding (situation : Situation.t) (alerts : list Alert.t) (pad_ms : Z)
  : Z :=
  Z.of_nat (length (distinct (map Alert.fingerprint (rehydrated situation alerts pad_ms)))).

(** The count the fill loop of [_create_bins] leaves in bin [i] of series
    [series_key]. *)
Definition bin_count (alerts : list Alert.t) (start_ms bin_size_ms : Z)
    (series_key : string) (i : nat) : Z :=
  Z.of_nat
    (length (filter (fun alert => Alert.fingerprint alert = series_key
                                  /\ int_div (Alert.ts alert - start_ms) bin_size_ms
                                     = Z.of_nat i)
                    alerts)).

(** The thresholds a correlation record's metrics have passed, by method. *)
Definition metrics_pass (self : Engine) (m : Method) (mt : Metrics) : Prop :=
  match m, mt with
  | burst, BurstMetrics aligned score =>
      min_support (args self) <= aligned /\ 1 <= aligned
      /\ PrimFloat.leb 0.2%float score = true
  | pmi, PmiMetrics pm_ratio co_count =>
      min_support (args self) <= co_count /\ 0 <= co_count
      /\ PrimFloat.leb 2%float pm_ratio = true
  | leadlag, LeadlagMetrics lag_ms score =>
      0 <= lag_ms <= max_lag (args self) * 1000 /\ (1000 | lag_ms)
      /\ PrimFloat.leb 0.3%float score = true
  | _, _ => False
  end.

(** The activity of a series: the total count over its bins. *)
Definition activity (bins : Bins) (key : string) : Z := zsum (bins_get bins key).

(** Some alert of the list has severity [s]. *)
Definition has_severity (s : string) (alerts : list Alert.t) : bool :=
  existsb (fun a => bool_decide (Alert.severity a = s)) alerts.

(** The highest of low, medium, high, critical met among the alerts. *)
Definition highest_severity (alerts : list Alert.t) : string :=
  if has_severity "critical" alerts then "critical"
  else if has_severity "high" alerts then "high"
  else if has_severity "medium" alerts then "medium"
  else "low".

(** A path along edges to [target] that stays clear of the nodes in
    [visited]. *)
Inductive avoiding (self : Engine) (visited : list string) (target : string)
  : string -> Prop :=
| avoiding_here : target ∉ visited -> avoiding self visited target target
| avoiding_step x y :
    x ∉ visited -> edge self x y -> avoiding self visited target y ->
    avoiding self visited target x.

(** The adjacency entries of the nodes not yet visited. *)
Definition unvisited_weight (self : Engine) (visited : list string) : nat :=
  map_fold (fun _ ns n => (length ns + n)%nat) 0%nat
           (filter (fun kv : string * list string => kv.1 ∉ visited) (graph self)).

(** An alert of one fingerprint and entity, as reported by [source] with
    [severity]. *)
Definition vendor_alert (t : Z) (source severity : string) : Alert.t :=
  Alert.mk t source "evt" "res" "f1" "firing" severity (Some "undefined") "svc:a"
           None None None [].

(** * Properties *)

Lemma insert_sorted_perm {A} (lt : A -> A -> bool) x l : insert_sorted lt x l ≡ₚ x :: l.
Proof.
  induction l as [|y l IH]; simpl; [done|].
  destruct (lt y x); [|done].
  rewrite IH. apply Permutation_swap.
Qed.

Lemma py_sorted_perm {A} (lt : A -> A -> bool) l : py_sorted lt l ≡ₚ l.
Proof.
  induction l as [|x l IH]; simpl; [done|].
  rewrite insert_sorted_perm. by rewrite IH.
Qed.

Section Sorting.
Context {A : Type} (key : A -> Z).

Lemma insert_sorted_sorted x l :
  StronglySorted (fun x y => key x <= key y) l ->
  StronglySorted (fun x y => key x <= key y)
                 (insert_sorted (fun x y => key x <? key y) x l).
Proof.
  induction 1 as [|y l Hs IH Hall]; simpl.
  - repeat constructor.
  - destruct (Z.ltb_spec (key y) (key x)) as [Hlt|Hge].
    + constructor; [done|].
      rewrite insert_sorted_perm. constructor; [lia | done].
    + constructor; [by constructor|].
      constructor; [done|].
      eapply Forall_impl; [exact Hall|]. simpl. intros; lia.
Qed.

Lemma py_sorted_sorted l :
  StronglySorted (fun x y => key x <= key y) (py_sorted (fun x y => key x <? key y) l).
Proof.
  induction l; simpl; [constructor|]. by apply insert_sorted_sorted.
Qed.

Lemma py_sorted_id l :
  StronglySorted (fun x y => key x <= key y) l ->
  py_sorted (fun x y => key x <? key y) l = l.
Proof.
  induction 1 as [|x l Hs IH Hall]; simpl; [done|].
  rewrite IH. destruct l as [|y l]; simpl; [done|].
  apply Forall_cons in Hall as [Hxy _].
  destruct (Z.ltb_spec (key y) (key x)); [lia | done].
Qed.

End Sorting.

Lemma noise_cut_loop_acc self l st acc :
  fold_left
    (fun '(st, filtered_alerts) alert =>
       match noise_cut_body self st alert with
       | (st', Some a) => (st', filtered_alerts ++ [a])
       | (st', None) => (st', filtered_alerts)
       end)
    l (st, acc)
  = (fst (noise_run self st l), acc ++ snd (noise_run self st l)).
Proof.
  revert st acc. induction l as [|x l IH]; intros st acc; simpl.
  - by rewrite app_nil_r.
  - destruct (noise_cut_body self st x) as [st' [a|]]; rewrite IH.
    + destruct (noise_run self st' l) as [st'' out]. simpl.
      by rewrite <- app_assoc.
    + done.
Qed.

Lemma noise_cut_loop_run self l st :
  noise_cut_loop self l st = noise_run self st l.
Proof.
  unfold noise_cut_loop. rewrite noise_cut_loop_acc. simpl.
  by destruct (noise_run self st l).
Qed.

Lemma dd_get_touch {K} `{Countable K} {V} (m : gmap K (list V)) (k : K) :
  dd_get (dd_touch m k) k = dd_get m k.
Proof.
  unfold dd_get, dd_touch. destruct (m !! k) eqn:E; [by rewrite E|].
  by rewrite lookup_insert_eq.
Qed.

Lemma noise_cut_body_some self st x st' a :
  noise_cut_body self st x = (st', Some a) ->
  a = x /\ is_duplicate self st x = false /\ is_echo st x = false
  /\ dedup_cache st' = <[dedup_key x := Alert.ts x]> (dedup_cache st)
  /\ echo_tracker st' =
       <[echo_key x :=
           filter (fun '(t, _) => Alert.ts x - t <= echo_window)
                  (dd_get (echo_tracker st) (echo_key x)
                     ++ [(Alert.ts x, Alert.source x)])]>
         (dd_touch (echo_tracker st) (echo_key x))
  /\ flap_tracker st' =
       <[echo_key x :=
           filter (fun '(t, _) => Alert.ts x - t <= flap_window)
                  (dd_get (flap_tracker st) (echo_key x)
                     ++ [(Alert.ts x, Alert.status x)])]>
         (flap_tracker st).
Proof.
  unfold noise_cut_body.
  destruct (is_duplicate self st x); [congruence|].
  destruct (is_echo st x); [congruence|].
  intros [= <- <-]. cbn [dedup_cache echo_tracker flap_tracker].
  by rewrite dd_get_touch.
Qed.

Lemma noise_cut_body_accept self st x :
  is_duplicate self st x = false -> is_echo st x = false ->
  exists st', noise_cut_body self st x = (st', Some x).
Proof. unfold noise_cut_body. intros -> ->. eauto. Qed.

Lemma noise_cut_body_dup self st x :
  is_duplicate self st x = true -> noise_cut_body self st x = (st, None).
Proof. unfold noise_cut_body. by intros ->. Qed.

Lemma noise_cut_body_cache self st x st' o :
  noise_cut_body self st x = (st', o) ->
  dedup_cache st' = dedup_cache st
  \/ (is_duplicate self st x = false
      /\ dedup_cache st' = <[dedup_key x := Alert.ts x]> (dedup_cache st)).
Proof.
  unfold noise_cut_body.
  destruct (is_duplicate self st x); [intros [= <- <-]; by left|].
  destruct (is_echo st x); intros [= <- <-]; right; done.
Qed.

Lemma noise_run_sublist self st l : snd (noise_run self st l) `sublist_of` l.
Proof.
  revert st. induction l as [|x l IH]; intros st; simpl; [done|].
  destruct (noise_cut_body self st x) as [st' [a|]] eqn:E.
  - apply noise_cut_body_some in E as [-> _].
    specialize (IH st'). destruct (noise_run self st' l). simpl in *.
    by constructor.
  - by constructor.
Qed.

(** From a state whose cache holds, for key [k], a timestamp not before [t],
    every alert of key [k] accepted later is at least [dedup_ttl] after [t]. *)
Lemma noise_run_after_cached self st l k t t' :
  dedup_cache st !! k = Some t' -> t <= t' ->
  Forall (fun a => t <= Alert.ts a) l ->
  Forall (fun a => dedup_key a = k -> dedup_ttl (args self) * 1000 <= Alert.ts a - t)
         (snd (noise_run self st l)).
Proof.
  revert st t'. induction l as [|x l IH]; intros st t' Hc Ht Hall; simpl; [constructor|].
  apply Forall_cons in Hall as [Hx Hall].
  destruct (noise_cut_body self st x) as [st' o] eqn:E.
  assert (Hnext : exists t'', dedup_cache st' !! k = Some t'' /\ t <= t'').
  { apply noise_cut_body_cache in E as [-> | [_ ->]]; [eauto|].
    destruct (decide (dedup_key x = k)) as [<-|Hne].
    - rewrite lookup_insert_eq. eauto.
    - rewrite lookup_insert_ne; eauto. }
  destruct Hnext as (t'' & Hc' & Ht').
  destruct o as [a|]; [|by eapply IH].
  apply noise_cut_body_some in E as (-> & Hdup & _).
  specialize (IH st' t'' Hc' Ht' Hall).
  destruct (noise_run self st' l) as [st'' out]. simpl in *.
  constructor; [|done].
  intros <-. unfold is_duplicate in Hdup. rewrite Hc in Hdup.
  apply bool_decide_eq_false in Hdup. lia.
Qed.

Lemma noise_run_spaced self st l i j a b :
  ts_sorted l ->
  snd (noise_run self st l) !! i = Some b ->
  snd (noise_run self st l) !! j = Some a ->
  (i < j)%nat -> dedup_key a = dedup_key b ->
  dedup_ttl (args self) * 1000 <= Alert.ts a - Alert.ts b.
Proof.
  revert st i j. induction l as [|x l IH]; intros st i j Hs Hi Hj Hij Hk; simpl in *.
  { by rewrite lookup_nil in Hi. }
  apply StronglySorted_inv in Hs as [Hs Hall].
  destruct (noise_cut_body self st x) as [st' [a'|]] eqn:E; [|by eapply IH].
  pose proof E as E'.
  apply noise_cut_body_some in E as (-> & _ & _ & Hcache & _).
  pose proof (noise_run_after_cached self st' l (dedup_key x) (Alert.ts x) (Alert.ts x)) as Hafter.
  specialize (IH st').
  destruct (noise_run self st' l) as [st'' out]. simpl in *.
  destruct i as [|i]; destruct j as [|j]; simpl in *; try lia.
  - injection Hi as <-.
    rewrite Hcache, lookup_insert_eq in Hafter.
    specialize (Hafter eq_refl ltac:(lia) Hall).
    rewrite Forall_forall in Hafter.
    apply Hafter; [|done]. eapply list_elem_of_lookup_2. exact Hj.
  - eapply IH; eauto. lia.
Qed.

Lemma sublist_ts_sorted l1 l2 : l1 `sublist_of` l2 -> ts_sorted l2 -> ts_sorted l1.
Proof.
  unfold ts_sorted. induction 1 as [|x l1 l2 Hsub IH|x l1 l2 Hsub IH]; intros Hs.
  - constructor.
  - apply StronglySorted_inv in Hs as [Hs Hall]. constructor; [by apply IH|].
    rewrite Forall_forall in *. intros y Hy. apply Hall.
    by eapply elem_of_sublist.
  - apply StronglySorted_inv in Hs as [Hs _]. by apply IH.
Qed.

Lemma ts_sorted_lookup l i j a b :
  ts_sorted l -> l !! i = Some b -> l !! j = Some a -> (i < j)%nat ->
  Alert.ts b <= Alert.ts a.
Proof.
  revert i j. induction l as [|x l IH]; intros i j Hs Hi Hj Hij.
  { by rewrite lookup_nil in Hi. }
  apply StronglySorted_inv in Hs as [Hs Hall].
  destruct i as [|i]; destruct j as [|j]; simpl in *; try lia.
  - injection Hi as <-. rewrite Forall_forall in Hall. apply Hall.
    by eapply list_elem_of_lookup_2.
  - eapply IH; eauto. lia.
Qed.

Lemma apply_noise_cut_run self st alerts :
  _apply_noise_cut self st alerts = noise_run self st (py_sorted ts_lt alerts).
Proof. unfold _apply_noise_cut. by rewrite noise_cut_loop_run. Qed.

Lemma accepted_sorted self st alerts : ts_sorted (snd (_apply_noise_cut self st alerts)).
Proof.
  rewrite apply_noise_cut_run.
  eapply sublist_ts_sorted; [apply noise_run_sublist|].
  apply (py_sorted_sorted Alert.ts).
Qed.

Lemma dedup_scenario self a0 a1 a2 :
  dedup_ttl (args self) = 120 ->
  Alert.ts a0 = 0 -> Alert.ts a1 = 60000 -> Alert.ts a2 = 125000 ->
  scenario_key a0 a1 -> scenario_key a0 a2 ->
  noise_filter self [a0; a1; a2] = [a0; a2].
Proof.
  intros Httl H0 H1 H2 (Hf1 & Hs1 & He1) (Hf2 & Hs2 & He2).
  unfold noise_filter. rewrite apply_noise_cut_run.
  assert (Hsort : py_sorted ts_lt [a0; a1; a2] = [a0; a1; a2]).
  { apply (py_sorted_id Alert.ts). repeat constructor; lia. }
  rewrite Hsort.
  assert (Hk1 : dedup_key a1 = dedup_key a0) by (unfold dedup_key; congruence).
  assert (Hk2 : dedup_key a2 = dedup_key a0) by (unfold dedup_key; congruence).
  assert (He : echo_key a2 = echo_key a0) by (unfold echo_key; congruence).
  destruct (noise_cut_body_accept self fresh_noise a0) as [st1 E0].
  { unfold is_duplicate. cbn. by rewrite lookup_empty. }
  { unfold is_echo, dd_get. cbn. by rewrite lookup_empty. }
  pose proof E0 as (_ & _ & _ & Hc1 & He1' & _)%noise_cut_body_some.
  assert (E1 : noise_cut_body self st1 a1 = (st1, None)).
  { apply noise_cut_body_dup. unfold is_duplicate.
    rewrite Hc1, Hk1, lookup_insert_eq. apply bool_decide_eq_true_2. lia. }
  destruct (noise_cut_body_accept self st1 a2) as [st2 E2].
  { unfold is_duplicate. rewrite Hc1, Hk2, lookup_insert_eq.
    apply bool_decide_eq_false_2. lia. }
  { unfold is_echo, dd_get at 1. rewrite He1', He, lookup_insert_eq.
    unfold dd_get. cbn [fresh_noise echo_tracker]. rewrite lookup_empty.
    cbn [default app]. rewrite filter_cons_True by (unfold echo_window; lia).
    rewrite filter_nil. cbn -[Z.sub Z.le echo_window bool_decide].
    rewrite bool_decide_eq_false_2 by (unfold echo_window; lia). done. }
  cbn [noise_run]. rewrite E0, E1, E2. done.
Qed.

(** Claim C8.  Two accepted alerts of one (fingerprint, severity,
    entity_key) triple are at least [dedup_ttl] seconds apart; and of three
    alerts of one triple at 0, 60000 and 125000 ms with [dedup_ttl = 120]
    the first and the last are accepted. *)
Theorem C8_dedup_spacing :
  (forall self st alerts i j a b,
      snd (_apply_noise_cut self st alerts) !! i = Some b ->
      snd (_apply_noise_cut self st alerts) !! j = Some a ->
      i <> j -> dedup_key a = dedup_key b -> Alert.ts b <= Alert.ts a ->
      dedup_ttl (args self) * 1000 <= Alert.ts a - Alert.ts b)
  /\ (forall self a0 a1 a2,
         dedup_ttl (args self) = 120 ->
         Alert.ts a0 = 0 -> Alert.ts a1 = 60000 -> Alert.ts a2 = 125000 ->
         scenario_key a0 a1 -> scenario_key a0 a2 ->
         noise_filter self [a0; a1; a2] = [a0; a2]).
Proof.
  split; [|apply dedup_scenario].
  intros self st alerts i j a b Hi Hj Hij Hk Hle.
  pose proof (accepted_sorted self st alerts) as Hsorted.
  rewrite apply_noise_cut_run in *.
  destruct (Nat.lt_total i j) as [Hlt | [-> | Hgt]]; [|done|].
  - apply (noise_run_spaced self st (py_sorted ts_lt alerts) i j a b);
      [apply (py_sorted_sorted Alert.ts) | done..].
  - assert (Alert.ts a <= Alert.ts b) by (eapply ts_sorted_lookup; eauto).
    assert (dedup_ttl (args self) * 1000 <= Alert.ts b - Alert.ts a).
    { apply (noise_run_spaced self st (py_sorted ts_lt alerts) j i b a);
        [apply (py_sorted_sorted Alert.ts) | done..]. }
    lia.
Qed.

Lemma is_duplicate_below self st1 st2 x :
  cache_below (dedup_cache st2) (dedup_cache st1) ->
  is_duplicate self st1 x = false -> is_duplicate self st2 x = false.
Proof.
  intros Hb. unfold is_duplicate.
  destruct (dedup_cache st2 !! dedup_key x) as [t2|] eqn:E2; [|done].
  destruct (Hb _ _ E2) as (t1 & -> & Hle).
  intros H%bool_decide_eq_false. apply bool_decide_eq_false. lia.
Qed.

Lemma is_echo_ext st1 st2 x :
  echo_tracker st1 = echo_tracker st2 -> is_echo st1 x = is_echo st2 x.
Proof. unfold is_echo. by intros ->. Qed.

Lemma cache_below_insert c2 c1 k t :
  cache_below c2 c1 -> cache_below (<[k := t]> c2) (<[k := t]> c1).
Proof.
  intros Hb k' t2. destruct (decide (k = k')) as [<-|Hne].
  - rewrite !lookup_insert_eq. intros [= <-]. eauto with lia.
  - rewrite !lookup_insert_ne by done. apply Hb.
Qed.

Lemma noise_run_again self st1 st2 l :
  echo_tracker st1 = echo_tracker st2 ->
  flap_tracker st1 = flap_tracker st2 ->
  cache_below (dedup_cache st2) (dedup_cache st1) ->
  cache_bounded st1 l -> ts_sorted l ->
  snd (noise_run self st2 (snd (noise_run self st1 l))) = snd (noise_run self st1 l).
Proof.
  revert st1 st2. induction l as [|x l IH]; intros st1 st2 He Hf Hb Hbd Hs; [done|].
  apply StronglySorted_inv in Hs as [Hs Hall].
  cbn [noise_run].
  destruct (noise_cut_body self st1 x) as [st1' o] eqn:E1.
  assert (Hbd' : cache_bounded st1' l).
  { intros k t Hk.
    apply noise_cut_body_cache in E1 as [Hc | [_ Hc]]; rewrite Hc in Hk.
    - specialize (Hbd k t Hk). by apply Forall_cons in Hbd as [_ ?].
    - destruct (decide (dedup_key x = k)) as [<-|Hne].
      + rewrite lookup_insert_eq in Hk. by injection Hk as <-.
      + rewrite lookup_insert_ne in Hk by done.
        specialize (Hbd k t Hk). by apply Forall_cons in Hbd as [_ ?]. }
  destruct o as [a|].
  - pose proof E1 as (-> & Hdup & Hecho & Hc1 & He1 & Hf1)%noise_cut_body_some.
    destruct (noise_cut_body_accept self st2 x) as [st2' E2].
    { by eapply is_duplicate_below. }
    { by rewrite <- (is_echo_ext st1 st2). }
    pose proof E2 as (_ & _ & _ & Hc2 & He2 & Hf2)%noise_cut_body_some.
    specialize (IH st1' st2').
    destruct (noise_run self st1' l) as [st1'' out] eqn:Eout. cbn [snd noise_run] in *.
    rewrite E2.
    destruct (noise_run self st2' out) as [st2'' out'] eqn:Eout'. cbn [snd] in *.
    f_equal. apply IH; try done.
    + by rewrite He1, He2, He.
    + by rewrite Hf1, Hf2, Hf.
    + rewrite Hc1, Hc2. by apply cache_below_insert.
  - apply IH; try done.
    + unfold noise_cut_body in E1.
      destruct (is_duplicate self st1 x); [by injection E1 as <-|].
      destruct (is_echo st1 x) eqn:Hecho; [|done].
      injection E1 as <-. cbn [echo_tracker]. rewrite <- He.
      unfold dd_touch. destruct (echo_tracker st1 !! echo_key x) eqn:El; [done|].
      unfold is_echo, dd_get in Hecho. by rewrite El in Hecho.
    + unfold noise_cut_body in E1.
      destruct (is_duplicate self st1 x); [by injection E1 as <-|].
      destruct (is_echo st1 x); [|done]. by injection E1 as <-.
    + intros k t2 Hk. destruct (Hb k t2 Hk) as (t1 & Hk1 & Hle).
      apply noise_cut_body_cache in E1 as [-> | [_ ->]]; [eauto|].
      destruct (decide (dedup_key x = k)) as [<-|Hne].
      * rewrite lookup_insert_eq. eexists; split; [done|].
        specialize (Hbd _ _ Hk1). apply Forall_cons in Hbd as [? _]. lia.
      * rewrite lookup_insert_ne by done. eauto.
Qed.

(** Claim C9.  The noise filter, run with fresh trackers, leaves its own
    output unchanged. *)
Theorem C9_noise_filter_idempotent self alerts :
  noise_filter self (noise_filter self alerts) = noise_filter self alerts.
Proof.
  unfold noise_filter at 1. rewrite apply_noise_cut_run.
  rewrite (py_sorted_id Alert.ts) by apply (accepted_sorted self fresh_noise alerts).
  unfold noise_filter. rewrite apply_noise_cut_run.
  apply noise_run_again.
  - done.
  - done.
  - intros k t. cbn. by rewrite lookup_empty.
  - intros k t. cbn. by rewrite lookup_empty.
  - apply (py_sorted_sorted Alert.ts).
Qed.

Lemma distinct_elem_of x l : x ∈ distinct l <-> x ∈ l.
Proof.
  induction l as [|y l IH]; simpl; [done|].
  rewrite !elem_of_cons, list_elem_of_filter, IH.
  destruct (decide (x = y)); tauto.
Qed.

Lemma distinct_NoDup l : NoDup (distinct l).
Proof.
  induction l as [|y l IH]; simpl; constructor.
  - rewrite list_elem_of_filter. tauto.
  - by apply NoDup_filter.
Qed.

Lemma set_iter_perm self l : set_iter self l ≡ₚ distinct l.
Proof. unfold set_iter. apply py_sorted_perm. Qed.

Lemma set_iter_NoDup self l : NoDup (set_iter self l).
Proof. rewrite set_iter_perm. apply distinct_NoDup. Qed.

Lemma set_iter_elem_of self l x : x ∈ set_iter self l <-> x ∈ l.
Proof. rewrite set_iter_perm. apply distinct_elem_of. Qed.

Lemma set_iter_length self l : length (set_iter self l) = length (distinct l).
Proof. by rewrite set_iter_perm. Qed.

Lemma bins_incr_keys bins k i : map fst (bins_incr bins k i) = map fst bins.
Proof.
  induction bins as [|[k' v] bins IH]; simpl; [done|].
  destruct (decide (k' = k)); simpl; by rewrite ?IH.
Qed.

Lemma bins_incr_good n seen bins k i :
  NoDup (map fst bins) -> (i < n)%nat ->
  good_bins n seen bins -> good_bins n (k :: seen) (bins_incr bins k i).
Proof.
  unfold good_bins.
  induction bins as [|[k' v] bins IH]; simpl; intros Hnd Hi Hg; [constructor|].
  apply NoDup_cons in Hnd as [Hnotin Hnd].
  apply Forall_cons in Hg as [(Hlen & Hpos & Hdata) Hg].
  destruct (decide (k' = k)) as [->|Hne].
  - constructor.
    + split; [by rewrite length_alter|]. split.
      * apply Forall_alter; [done|]. intros x _ Hx. lia.
      * intros _. destruct (lookup_lt_is_Some_2 v i) as [x Hx]; [lia|].
        apply Exists_exists. exists (x + 1). split.
        -- apply list_elem_of_lookup. exists i. by rewrite list_lookup_alter_eq, Hx.
        -- rewrite Forall_lookup in Hpos. specialize (Hpos _ _ Hx). simpl in Hpos. lia.
    + rewrite Forall_forall in Hg. apply Forall_forall. intros [k'' v''] Hin.
      destruct (Hg _ Hin) as (? & ? & Hd). repeat split; try done.
      intros [->|Hs]%elem_of_cons; [|auto].
      exfalso. apply Hnotin. apply list_elem_of_fmap. by exists (k, v'').
  - constructor.
    + repeat split; try done. intros [->|Hin]%elem_of_cons; [done|auto].
    + by apply IH.
Qed.

Lemma bin_index_range ts_ start_ms end_ms bin_size_ms :
  0 < bin_size_ms -> start_ms <= ts_ <= end_ms ->
  0 <= int_div (ts_ - start_ms) bin_size_ms
       < int_div (end_ms - start_ms) bin_size_ms + 1.
Proof.
  intros Hb [H1 H2]. unfold int_div. split.
  - apply Z.quot_pos; lia.
  - assert ((ts_ - start_ms) ÷ bin_size_ms <= (end_ms - start_ms) ÷ bin_size_ms)
      by (apply Z.quot_le_mono; lia).
    lia.
Qed.

Lemma create_bins_fill n start_ms bin_size_ms num_bins alerts seen bins :
  0 < bin_size_ms -> n = Z.to_nat num_bins ->
  Forall (fun a => 0 <= int_div (Alert.ts a - start_ms) bin_size_ms < num_bins) alerts ->
  NoDup (map fst bins) -> good_bins n seen bins ->
  let final :=
    fold_left
      (fun bins alert =>
         let bin_idx := int_div (Alert.ts alert - start_ms) bin_size_ms in
         if (0 <=? bin_idx) && (bin_idx <? num_bins)
         then bins_incr bins (Alert.fingerprint alert) (Z.to_nat bin_idx)
         else bins)
      alerts bins in
  map fst final = map fst bins
  /\ good_bins n (rev (map Alert.fingerprint alerts) ++ seen) final.
Proof.
  intros Hb ->. revert seen bins.
  induction alerts as [|a alerts IH]; intros seen bins Hall Hnd Hg; simpl; [done|].
  apply Forall_cons in Hall as [[Ha1 Ha2] Hall].
  destruct (Z.leb_spec 0 (int_div (Alert.ts a - start_ms) bin_size_ms)); [|lia].
  destruct (Z.ltb_spec (int_div (Alert.ts a - start_ms) bin_size_ms) num_bins); [|lia].
  simpl.
  destruct (IH (Alert.fingerprint a :: seen)
               (bins_incr bins (Alert.fingerprint a)
                  (Z.to_nat (int_div (Alert.ts a - start_ms) bin_size_ms)))) as [Hk Hgood].
  - done.
  - by rewrite bins_incr_keys.
  - apply bins_incr_good; [done|lia|done].
  - split; [etrans; [exact Hk|]; apply bins_incr_keys|].
    rewrite <- app_assoc. exact Hgood.
Qed.

Lemma count_distinct_bins_all bins :
  Forall (fun '(_, v) => Exists (Z.lt 0) v) bins ->
  count_distinct_bins bins = Z.of_nat (length bins).
Proof.
  unfold count_distinct_bins.
  assert (Hgen : forall acc,
    Forall (fun '(_, v) => Exists (Z.lt 0) v) bins ->
    fold_left
      (fun distinct_bins '(_, series_bins) =>
         if existsb (fun count => 0 <? count) series_bins
         then distinct_bins + 1 else distinct_bins)
      bins acc = acc + Z.of_nat (length bins)).
  { induction bins as [|[k v] bins IH]; intros acc Hall; simpl; [lia|].
    apply Forall_cons in Hall as [Hv Hall].
    assert (existsb (fun count => 0 <? count) v = true) as ->.
    { apply existsb_exists. apply Exists_exists in Hv as (x & Hx & Hpos).
      exists x. split; [by apply list_elem_of_In|]. by apply Z.ltb_lt. }
    rewrite IH by done. lia. }
  intros H. by rewrite Hgen.
Qed.

Lemma create_bins_keys self alerts start_ms end_ms bin_size_s :
  0 < bin_size_s -> Forall (in_window start_ms end_ms) alerts ->
  map fst (_create_bins self alerts start_ms end_ms bin_size_s)
  = set_iter self (map Alert.fingerprint alerts)
  /\ Forall (fun '(_, v) => Exists (Z.lt 0) v)
            (_create_bins self alerts start_ms end_ms bin_size_s).
Proof.
  intros Hb Hall. unfold _create_bins. cbv zeta.
  set (bin_size_ms := bin_size_s * 1000).
  set (num_bins := int_div (end_ms - start_ms) bin_size_ms + 1).
  set (zero := map _ (set_iter self (map Alert.fingerprint alerts))).
  assert (Hkeys0 : map fst zero = set_iter self (map Alert.fingerprint alerts)).
  { unfold zero. rewrite map_map. simpl. apply map_id. }
  match goal with
  | |- context [fold_left ?f alerts zero] => set (final := fold_left f alerts zero)
  end.
  assert (Hfill : map fst final = map fst zero
                  /\ good_bins (Z.to_nat num_bins)
                                (rev (map Alert.fingerprint alerts) ++ []) final).
  { apply (create_bins_fill (Z.to_nat num_bins) start_ms bin_size_ms num_bins alerts [] zero).
    - unfold bin_size_ms. lia.
    - done.
    - eapply Forall_impl; [exact Hall|]. intros a Ha. simpl.
      apply bin_index_range; [unfold bin_size_ms; lia | exact Ha].
    - rewrite Hkeys0. apply set_iter_NoDup.
    - unfold good_bins, zero. apply Forall_forall. intros [k v] Hin.
      apply list_elem_of_fmap in Hin as (k' & [= -> ->] & _).
      split; [by rewrite repeat_length|]. split.
      + apply Forall_forall. intros x Hx%list_elem_of_In%repeat_spec. lia.
      + intros Hin. by apply elem_of_nil in Hin. }
  destruct Hfill as [Hk Hgood].
  split; [by rewrite Hk|].
  assert (Hin : Forall (fun k => k ∈ rev (map Alert.fingerprint alerts) ++ [])
                       (map fst final)).
  { rewrite Hk, Hkeys0. apply Forall_forall. intros k Hk'.
    rewrite app_nil_r. apply list_elem_of_In. apply -> in_rev.
    apply list_elem_of_In. by apply set_iter_elem_of in Hk'. }
  clearbody final. clear Hk.
  unfold good_bins in Hgood.
  induction Hgood as [|[k v] final (_ & _ & Hd) Hg IH]; [constructor|].
  simpl in Hin. apply Forall_cons in Hin as [Hk1 Hin].
  constructor; [auto | by apply IH].
Qed.

Lemma create_bins_count self alerts start_ms end_ms bin_size_s :
  0 < bin_size_s -> Forall (in_window start_ms end_ms) alerts ->
  count_distinct_bins (_create_bins self alerts start_ms end_ms bin_size_s)
  = Z.of_nat (length (distinct (map Alert.fingerprint alerts))).
Proof.
  intros Hb Hall.
  destruct (create_bins_keys self alerts start_ms end_ms bin_size_s Hb Hall) as [Hk Hd].
  rewrite count_distinct_bins_all by done.
  by rewrite <- (length_map fst), Hk, set_iter_length.
Qed.

Lemma spread_loop_outcome fuel self rel start end_ pad sit s' :
  spread_loop fuel self rel start end_ pad sit = Some s' ->
  (exists msg, s' = mark_insufficient sit msg)
  \/ (exists pad' rehydrated,
         Forall (in_window (start - pad') (end_ + pad')) rehydrated
         /\ s' = store_spread sit pad' BIN_SIZE_S_DEFAULT
                   (_create_bins self rehydrated (start - pad') (end_ + pad')
                                 BIN_SIZE_S_DEFAULT)
                   {| w_start := start - pad'; w_end := end_ + pad' |} rehydrated).
Proof.
  revert pad. induction fuel as [|fuel IH]; intros pad; simpl; [done|].
  destruct (pad <=? MAX_PAD_MS); [|intros [= <-]; left; eauto].
  set (rehydrated := filter _ rel).
  assert (Hwin : Forall (in_window (start - pad) (end_ + pad)) rehydrated).
  { apply Forall_forall. intros a Ha. unfold rehydrated in Ha.
    by apply list_elem_of_filter in Ha as [? _]. }
  destruct rehydrated as [|a0 rehydrated'] eqn:Er; [apply IH|].
  rewrite <- Er in *. clear Er.
  rewrite !create_bins_count by (done || unfold BIN_SIZE_S_FALLBACK; lia).
  destruct (Z.of_nat (length (distinct (map Alert.fingerprint rehydrated))) <? MIN_BINS) eqn:Hlt.
  - apply Z.ltb_lt in Hlt.
    destruct (Z.leb_spec MIN_BINS
                (Z.of_nat (length (distinct (map Alert.fingerprint rehydrated))))); [lia|].
    simpl. apply IH.
  - destruct (_ && _); [|apply IH].
    intros [= <-]. right. exists pad, rehydrated. done.
Qed.

Lemma spread_loop_total fuel self rel start end_ pad sit :
  0 < pad -> MAX_PAD_MS < pad * 2 ^ Z.of_nat fuel ->
  spread_loop (S fuel) self rel start end_ pad sit <> None.
Proof.
  revert pad. induction fuel as [|fuel IH]; intros pad Hpos Hmax.
  - simpl. destruct (Z.leb_spec pad MAX_PAD_MS); [simpl in Hmax; lia | done].
  - assert (Hrec : spread_loop (S fuel) self rel start end_ (pad * 2) sit <> None).
    { apply IH; [lia|]. rewrite Nat2Z.inj_succ, Z.pow_succ_r in Hmax by lia. lia. }
    remember (S fuel) as n. simpl.
    destruct (pad <=? MAX_PAD_MS); [|done].
    destruct (filter _ rel); [done|].
    destruct (count_distinct_bins _ <? MIN_BINS); destruct (_ && _); done.
Qed.

Lemma apply_temporal_spread_outcome self alerts sit :
  (exists msg, _apply_temporal_spread self alerts sit = mark_insufficient sit msg)
  \/ (exists pad' rehydrated,
         let start := w_start (Situation.window sit) in
         let end_ := w_end (Situation.window sit) in
         Forall (in_window (start - pad') (end_ + pad')) rehydrated
         /\ _apply_temporal_spread self alerts sit
            = store_spread sit pad' BIN_SIZE_S_DEFAULT
                (_create_bins self rehydrated (start - pad') (end_ + pad')
                              BIN_SIZE_S_DEFAULT)
                {| w_start := start - pad'; w_end := end_ + pad' |} rehydrated).
Proof.
  unfold _apply_temporal_spread.
  destruct (_ <? MIN_SITUATION_MS); [left; eauto|].
  destruct (spread_loop _ _ _ _ _ _ _) as [s'|] eqn:E.
  - apply spread_loop_outcome in E as [[msg ->] | (pad' & reh & Hw & ->)]; [left; eauto|].
    right. exists pad', reh. done.
  - exfalso. revert E. apply (spread_loop_total 7); [done|]. by vm_compute.
Qed.

Lemma correlate_pair_app self sit bins acc p :
  correlate_pair self sit bins acc p = acc ++ pair_records self sit bins p.
Proof.
  unfold pair_records, correlate_pair. destruct p as [a b].
  destruct (_burst_correlation _ _ _) as [[? ?]|];
    destruct (_pmi_correlation _ _ _) as [[? ?]|];
    destruct (_leadlag_correlation _ _ _) as [[? ?]|];
    simpl; rewrite <- ?app_assoc, ?app_nil_r; done.
Qed.

Lemma correlate_fold self sit bins pairs acc :
  fold_left (correlate_pair self sit bins) pairs acc
  = acc ++ flat_map (pair_records self sit bins) pairs.
Proof.
  revert acc. induction pairs as [|p pairs IH]; intros acc; simpl.
  - by rewrite app_nil_r.
  - by rewrite IH, correlate_pair_app, <- app_assoc.
Qed.

Lemma run_correlations_pairs self sit :
  _run_correlations self sit
  = flat_map (pair_records self sit (default [] (Situation.bins sit))) (situation_pairs sit).
Proof.
  unfold _run_correlations, situation_pairs.
  destruct (Situation.insufficient_temporal_spread sit); [done|].
  destruct (Situation.bins sit) as [[|b bins]|]; simpl; [done| |done].
  by rewrite correlate_fold.
Qed.

Lemma pair_records_shape self sit bins a b :
  Forall (fun r => series_a r = a /\ series_b r = b) (pair_records self sit bins (a, b))
  /\ StronglySorted lt (map (fun r => method_rank (method r))
                            (pair_records self sit bins (a, b))).
Proof.
  unfold pair_records, correlate_pair.
  destruct (_burst_correlation _ _ _) as [[? ?]|];
    destruct (_pmi_correlation _ _ _) as [[? ?]|];
    destruct (_leadlag_correlation _ _ _) as [[? ?]|];
    simpl; split; repeat constructor; simpl; lia.
Qed.

(** Claim C2, as amended.  The correlation records of a situation are
    emitted pair by pair, in the order the pairs are enumerated; the
    records of one pair carry that pair's series and come in the order
    burst, PMI, lead-lag (each at most once). *)
Theorem C2_pairwise_emission self sit :
  exists groups,
    _run_correlations self sit = concat groups
    /\ Forall2 (fun p g =>
                  Forall (fun r => series_a r = fst p /\ series_b r = snd p) g
                  /\ StronglySorted lt (map (fun r => method_rank (method r)) g))
               (situation_pairs sit) groups.
Proof.
  exists (map (pair_records self sit (default [] (Situation.bins sit))) (situation_pairs sit)).
  split.
  - rewrite run_correlations_pairs. by rewrite flat_map_concat_map.
  - apply Forall2_fmap_r, Forall_Forall2_diag, Forall_forall.
    intros [a b] _. apply pair_records_shape.
Qed.

Lemma run_correlations_insufficient self sit :
  Situation.insufficient_temporal_spread sit = true -> _run_correlations self sit = [].
Proof. unfold _run_correlations. by intros ->. Qed.

Lemma process_fold self noise alerts raws sits cors :
  fold_left (process_situation self noise alerts) raws (sits, cors)
  = (sits ++ map (fun s => _select_primary_cause self noise
                             (_apply_temporal_spread self alerts s))
                 (omap (fun s : option Situation.t => s) raws),
     cors ++ flat_map (fun s => _run_correlations self (_apply_temporal_spread self alerts s))
                      (omap (fun s : option Situation.t => s) raws)).
Proof.
  revert sits cors. induction raws as [|[s|] raws IH]; intros sits cors; simpl.
  - by rewrite !app_nil_r.
  - rewrite IH. f_equal; [by rewrite <- app_assoc|].
    destruct (Situation.insufficient_temporal_spread _) eqn:E; simpl.
    + by rewrite (run_correlations_insufficient _ _ E).
    + by rewrite <- app_assoc.
  - apply IH.
Qed.

Lemma lines_of_output m sits cors :
  run_meta_lines (RunMetaLine m :: map SituationLine sits ++ map CorrelationLine cors) = [m]
  /\ situation_lines (RunMetaLine m :: map SituationLine sits ++ map CorrelationLine cors) = sits
  /\ correlation_lines (RunMetaLine m :: map SituationLine sits ++ map CorrelationLine cors)
     = cors.
Proof.
  unfold run_meta_lines, situation_lines, correlation_lines. simpl.
  rewrite !flat_map_app.
  assert (H1 : forall l, flat_map (fun line => match line with RunMetaLine m => [m] | _ => [] end)
                           (map SituationLine l) = []) by (induction l; simpl; auto).
  assert (H2 : forall l, flat_map (fun line => match line with RunMetaLine m => [m] | _ => [] end)
                           (map CorrelationLine l) = []) by (induction l; simpl; auto).
  assert (H3 : forall l, flat_map (fun line => match line with SituationLine s => [s] | _ => [] end)
                           (map SituationLine l) = l) by (induction l; simpl; congruence).
  assert (H4 : forall l, flat_map (fun line => match line with SituationLine s => [s] | _ => [] end)
                           (map CorrelationLine l) = []) by (induction l; simpl; auto).
  assert (H5 : forall l, flat_map (fun line => match line with CorrelationLine s => [s] | _ => [] end)
                           (map SituationLine l) = []) by (induction l; simpl; auto).
  assert (H6 : forall l, flat_map (fun line => match line with CorrelationLine s => [s] | _ => [] end)
                           (map CorrelationLine l) = l) by (induction l; simpl; congruence).
  by rewrite H1, H2, H3, H4, H5, H6, !app_nil_r.
Qed.

Lemma run_output self raw_alerts out :
  run self raw_alerts = Some out ->
  situation_lines out
  = map (fun s => output_situation
                    (_select_primary_cause self (run_noise self raw_alerts)
                       (run_spread self raw_alerts s)))
        (run_raw_situations self raw_alerts)
  /\ correlation_lines out
     = flat_map (fun s => _run_correlations self (run_spread self raw_alerts s))
                (run_raw_situations self raw_alerts)
  /\ exists m, run_meta_lines out = [m] /\ head out = Some (RunMetaLine m)
               /\ rm_raw_alerts m = Z.of_nat (length raw_alerts).
Proof.
  unfold run, run_raw_situations, run_episodes, run_spread, run_filtered, run_noise.
  destruct raw_alerts as [|r raws]; [done|].
  destruct (normalize_alerts (r :: raws)) as [|a alerts] eqn:En; [done|].
  destruct (_apply_noise_cut self fresh_noise (a :: alerts)) as [noise filtered].
  rewrite process_fold. cbn [fst snd app]. intros [= <-]. unfold _write_output.
  rewrite <- (map_map output_situation SituationLine).
  match goal with
  | |- context [RunMetaLine ?m :: map SituationLine ?s ++ map CorrelationLine ?c] =>
      destruct (lines_of_output m s c) as (H1 & H2 & H3)
  end.
  rewrite H2, H3. split; [by rewrite map_map|]. split; [done|].
  eexists. split; [exact H1|]. done.
Qed.


Lemma leadlag_correlation_some self sa sb lag score :
  _leadlag_correlation self sa sb = Some (lag, score) ->
  exists best_lag,
    leadlag_scan self (binarize sa) (binarize sb) = (score, best_lag)
    /\ lag = best_lag * 1000
    /\ PrimFloat.leb 0.3%float score = true
    /\ 2 <= zsum (binarize sa) /\ 2 <= zsum (binarize sb).
Proof.
  unfold _leadlag_correlation.
  destruct (_ || _); [done|].
  destruct (leadlag_scan self (binarize sa) (binarize sb)) as [best_score best_lag].
  destruct (PrimFloat.leb 0.3%float best_score) eqn:Hs; [|done].
  destruct (Z.leb_spec 2 (zsum (binarize sa))); [|done].
  destruct (Z.leb_spec 2 (zsum (binarize sb))); [|done].
  simpl. intros [= <- <-]. eauto 10.
Qed.

Lemma spread_bins_some self alerts sit bins :
  Situation.insufficient_temporal_spread (_apply_temporal_spread self alerts sit) = false ->
  Situation.bins (_apply_temporal_spread self alerts sit) = Some bins ->
  Situation.bin_size_s (_apply_temporal_spread self alerts sit) = BIN_SIZE_S_DEFAULT
  /\ NoDup (map fst bins).
Proof.
  destruct (apply_temporal_spread_outcome self alerts sit)
    as [[msg ->] | (pad' & reh & Hw & ->)]; [done|].
  simpl. intros _ [= <-]. split; [done|].
  destruct (create_bins_keys self reh
              (w_start (Situation.window sit) - pad') (w_end (Situation.window sit) + pad')
              BIN_SIZE_S_DEFAULT) as [-> _]; [done|exact Hw|].
  apply set_iter_NoDup.
Qed.


Lemma combinations2_precedes {A} (l : list A) a b :
  (a, b) ∈ combinations2 l -> precedes a b l.
Proof.
  induction l as [|x rest IH]; simpl; [by intros ?%elem_of_nil|].
  rewrite elem_of_app, list_elem_of_fmap. intros [(y & [= -> ->] & Hy) | Hin].
  - apply list_elem_of_split in Hy as (l2 & l3 & ->). by exists [], l2, l3.
  - destruct (IH Hin) as (l1 & l2 & l3 & ->). by exists (x :: l1), l2, l3.
Qed.

Lemma precedes_NoDup_ne {A} (l : list A) a b : NoDup l -> precedes a b l -> a <> b.
Proof.
  intros Hnd (l1 & l2 & l3 & ->) <-.
  apply NoDup_app in Hnd as (_ & _ & Hnd).
  apply NoDup_cons in Hnd as [Hnotin _].
  apply Hnotin. rewrite elem_of_app, elem_of_cons. auto.
Qed.

Lemma limited_series_keys_NoDup bins :
  NoDup (map fst bins) -> NoDup (limited_series_keys bins).
Proof.
  intros Hnd. unfold limited_series_keys.
  destruct (_ <? _); [|done].
  change (map snd (take ?n ?l)) with (snd <$> take n l).
  rewrite fmap_take. eapply sublist_NoDup; [|apply sublist_take].
  change (snd <$> ?l) with (map snd l).
  rewrite py_sorted_perm, map_map. simpl. by rewrite map_id.
Qed.

Lemma correlation_pairs_precedes bins a b :
  (a, b) ∈ correlation_pairs bins -> precedes a b (limited_series_keys bins).
Proof.
  unfold correlation_pairs. intros Hin. apply combinations2_precedes.
  destruct (_ <? _); [|done].
  eapply elem_of_sublist; [exact Hin | apply sublist_take].
Qed.

(** Claim C4, as amended.  In every correlation record [series_a] and
    [series_b] are distinct and [series_a] comes before [series_b] in the
    list of series keys the pairs are drawn from (the key order of the bin
    matrix, or the activity order when more than 400 series are present). *)
Theorem C4_series_enumeration_order self alerts sit :
  Forall
    (fun r =>
       series_a r <> series_b r
       /\ exists bins,
            Situation.bins (_apply_temporal_spread self alerts sit) = Some bins
            /\ precedes (series_a r) (series_b r) (limited_series_keys bins))
    (_run_correlations self (_apply_temporal_spread self alerts sit)).
Proof.
  set (s' := _apply_temporal_spread self alerts sit).
  apply Forall_forall. intros r Hin.
  destruct (Situation.insufficient_temporal_spread s') eqn:Hins.
  { rewrite (run_correlations_insufficient _ _ Hins) in Hin. by apply elem_of_nil in Hin. }
  rewrite run_correlations_pairs in Hin.
  destruct (Situation.bins s') as [bins|] eqn:Hbins.
  2:{ unfold situation_pairs in Hin. rewrite Hins, Hbins in Hin. by apply elem_of_nil in Hin. }
  destruct (spread_bins_some self alerts sit bins Hins Hbins) as [_ Hnd].
  apply list_elem_of_In, in_flat_map in Hin as ([a b] & Hp & Hin).
  apply list_elem_of_In in Hin, Hp. simpl in Hin.
  unfold situation_pairs in Hp. rewrite Hins, Hbins in Hp.
  destruct (pair_records_shape self s' bins a b) as [Hshape _].
  rewrite Forall_forall in Hshape. destruct (Hshape r Hin) as [-> ->].
  apply correlation_pairs_precedes in Hp.
  split; [|eauto].
  eapply precedes_NoDup_ne; [|exact Hp]. by apply limited_series_keys_NoDup.
Qed.

Lemma run_some self raw_alerts :
  normalize_alerts raw_alerts <> [] -> exists out, run self raw_alerts = Some out.
Proof.
  unfold run. destruct raw_alerts as [|r raws]; [done|].
  destruct (normalize_alerts (r :: raws)); [done|]. intros _.
  destruct (_apply_noise_cut _ _ _). destruct (fold_left _ _ _). eauto.
Qed.

Lemma spread_window self alerts sit :
  Situation.window (_apply_temporal_spread self alerts sit) = Situation.window sit.
Proof.
  destruct (apply_temporal_spread_outcome self alerts sit)
    as [[msg ->] | (pad' & reh & _ & ->)]; done.
Qed.

Lemma select_window self noise sit :
  Situation.window (_select_primary_cause self noise sit) = Situation.window sit.
Proof. unfold _select_primary_cause. by destruct (Situation.raw_episodes sit). Qed.

(** Claim C1, evaluated on the code.  The spread's counter [distinct_bins]
    counts the series that have data, not the bins that have data.  First
    part: one fingerprint seen on three entities at 0, 5 and 10 s gives a
    situation of 10 s whose padded window has three non-empty bins (the
    condition of the claim holds), and [_apply_temporal_spread] marks it
    insufficient.  Second part: three fingerprints in one bin and a fourth
    alert 10 s later never give three non-empty bins, and the spread
    succeeds at the first padding with one-second bins. *)
Lemma C1_spread_counts_series :
  (exists sit,
      run_raw_situations first_seen_engine one_series_input = [sit]
      /\ MIN_SITUATION_MS <= w_end (Situation.window sit) - w_start (Situation.window sit)
      /\ spread_succeeds_by_bins first_seen_engine
           (run_filtered first_seen_engine one_series_input) sit = true
      /\ Situation.insufficient_temporal_spread
           (run_spread first_seen_engine one_series_input sit) = true)
  /\ (exists sit,
         run_raw_situations first_seen_engine one_bin_input = [sit]
         /\ MIN_SITUATION_MS <= w_end (Situation.window sit) - w_start (Situation.window sit)
         /\ spread_succeeds_by_bins first_seen_engine
              (run_filtered first_seen_engine one_bin_input) sit = false
         /\ Situation.insufficient_temporal_spread
              (run_spread first_seen_engine one_bin_input sit) = false
         /\ Situation.pad_ms_used (run_spread first_seen_engine one_bin_input sit) = 60000
         /\ Situation.bin_size_s (run_spread first_seen_engine one_bin_input sit) = 1).
Proof.
  split.
  - eexists. split; [vm_compute; reflexivity|].
    split; [by vm_compute|]. split; vm_compute; reflexivity.
  - eexists. split; [vm_compute; reflexivity|].
    split; [by vm_compute|]. repeat split; vm_compute; reflexivity.
Qed.

Lemma group_append_first_member {K} `{EqDecision K} all n
    (groups : list (K * list Episode.t)) idxs k ep :
  Forall2 (first_member_at all) groups idxs -> all !! n = Some ep ->
  Forall2 (first_member_at all) (group_append groups k ep) idxs
  \/ Forall2 (first_member_at all) (group_append groups k ep) (idxs ++ [n]).
Proof.
  intros Hf Hep.
  induction Hf as [|[k' vs] i groups idxs (e & rest & Hg & Hi) Hf IH]; simpl.
  - right. repeat constructor. exists ep, []. done.
  - simpl in Hg. subst vs.
    destruct (decide (k' = k)) as [->|Hne].
    + left. constructor; [|done]. exists e, (rest ++ [ep]). done.
    + destruct IH as [IH|IH]; [left|right]; (constructor; [|done]); by exists e, rest.
Qed.

Lemma StronglySorted_snoc (l : list nat) n :
  StronglySorted lt l -> Forall (fun i => (i < n)%nat) l -> StronglySorted lt (l ++ [n]).
Proof.
  induction 1 as [|x l Hs IH Hall]; intros Hb; simpl.
  - repeat constructor.
  - apply Forall_cons in Hb as [Hx Hb]. constructor; [by apply IH|].
    apply Forall_app. split; [done|]. by repeat constructor.
Qed.

Lemma group_by_root_first_members all :
  forall l n uf groups idxs,
    drop n all = l ->
    Forall2 (first_member_at all) groups idxs ->
    StronglySorted lt idxs -> Forall (fun i => (i < n)%nat) idxs ->
    exists idxs',
      Forall2 (first_member_at all)
              (group_by_root uf (zip (seq n (length l)) l) groups) idxs'
      /\ StronglySorted lt idxs'.
Proof.
  induction l as [|ep l IH]; intros n uf groups idxs Hd Hf Hs Hb; simpl; [eauto|].
  destruct (find uf n) as [root uf'].
  assert (Hep : all !! n = Some ep).
  { pose proof (lookup_drop all n 0) as Hl. rewrite Hd, Nat.add_0_r in Hl. by rewrite <- Hl. }
  assert (Hd' : drop (S n) all = l).
  { pose proof (drop_drop all 1 n) as Hl. rewrite Hd in Hl. simpl in Hl.
    by rewrite Nat.add_1_r in Hl. }
  destruct (group_append_first_member all n groups idxs root ep Hf Hep) as [Hf'|Hf'].
  - apply (IH (S n) uf' _ idxs); try done.
    eapply Forall_impl; [exact Hb|]. simpl. lia.
  - apply (IH (S n) uf' _ (idxs ++ [n])); try done.
    + by apply StronglySorted_snoc.
    + apply Forall_app. split.
      * eapply Forall_impl; [exact Hb|]. simpl. lia.
      * repeat constructor.
Qed.

Lemma create_situation_some ep rest :
  exists s, _create_situation (ep :: rest) = Some s
            /\ Situation.episodes s = map summary (ep :: rest)
            /\ Situation.raw_episodes s = ep :: rest.
Proof. eexists. split; [reflexivity|]. done. Qed.

Lemma build_situations_order self episodes :
  exists idxs,
    StronglySorted lt idxs
    /\ Forall2 (fun o i => exists s ep, o = Some s
                                        /\ head (Situation.raw_episodes s) = Some ep
                                        /\ head (Situation.episodes s) = Some (summary ep)
                                        /\ episodes !! i = Some ep)
               (_build_situations self episodes) idxs.
Proof.
  unfold _build_situations. destruct episodes as [|ep0 eps]; [exists []; split; constructor|].
  set (all := ep0 :: eps). unfold enumerate.
  match goal with
  | |- context [group_by_root ?uf _ _] =>
      destruct (group_by_root_first_members all all 0%nat uf [] [])
        as (idxs & Hf & Hs); [done|constructor..|]
  end.
  exists idxs. split; [done|].
  apply Forall2_fmap_l.
  eapply Forall2_impl; [exact Hf|].
  intros [k g] i (ep & rest & Hg & Hi). simpl in Hg. subst g. cbv beta iota delta [compose].
  destruct (create_situation_some ep rest) as (s & -> & He & Hr).
  exists s, ep. rewrite He, Hr. done.
Qed.

Lemma spread_episodes self alerts sit :
  Situation.episodes (_apply_temporal_spread self alerts sit) = Situation.episodes sit
  /\ Situation.raw_episodes (_apply_temporal_spread self alerts sit)
     = Situation.raw_episodes sit.
Proof.
  destruct (apply_temporal_spread_outcome self alerts sit)
    as [[msg ->] | (pad' & reh & _ & ->)]; done.
Qed.

Lemma select_episodes self noise sit :
  Situation.episodes (_select_primary_cause self noise sit) = Situation.episodes sit
  /\ Situation.raw_episodes (_select_primary_cause self noise sit)
     = Situation.raw_episodes sit.
Proof.
  unfold _select_primary_cause.
  destruct (Situation.raw_episodes sit) eqn:E; [by rewrite E|done].
Qed.

Lemma Forall2_omap_some {A B} (R : A -> B -> Prop) (l : list (option A)) (k : list B) :
  Forall2 (fun o i => exists s, o = Some s /\ R s i) l k ->
  Forall2 R (omap (fun o : option A => o) l) k.
Proof.
  induction 1 as [|o i l k (s & -> & Hr) Hf IH]; simpl; [constructor|].
  by constructor.
Qed.

(** Claim C5, as amended.  The situation records appear in the order in
    which their first member episode appears in the episode list: the
    positions of the first members are strictly increasing. *)
Theorem C5_situation_record_order self raw_alerts :
  exists idxs,
    StronglySorted lt idxs
    /\ Forall2 (fun line i =>
                  exists ep, run_episodes self raw_alerts !! i = Some ep
                             /\ head (sr_episodes line) = Some (summary ep))
               (situation_lines (output_lines self raw_alerts)) idxs.
Proof.
  unfold output_lines.
  destruct (run self raw_alerts) as [out|] eqn:E; simpl.
  2:{ exists []. split; constructor. }
  destruct (run_output _ _ _ E) as (Hs & _ & _). rewrite Hs. clear E Hs.
  destruct (build_situations_order self (run_episodes self raw_alerts)) as (idxs & Hsorted & Hf).
  exists idxs. split; [exact Hsorted|].
  apply Forall2_fmap_l. unfold run_raw_situations.
  apply Forall2_omap_some.
  eapply Forall2_impl; [exact Hf|].
  intros o i (s & ep & -> & _ & He & Hi). exists s. split; [reflexivity|].
  exists ep. split; [exact Hi|].
  cbn [sr_episodes output_situation].
  rewrite (proj1 (select_episodes _ _ _)). unfold run_spread.
  rewrite (proj1 (spread_episodes _ _ _)). exact He.
Qed.


Lemma bfs_loop_sound fuel self target visited queue :
  bfs_loop fuel self target visited queue = true ->
  exists x, x ∈ queue /\ reachable self x target.
Proof.
  revert visited queue. induction fuel as [|fuel IH]; intros visited queue; simpl; [done|].
  destruct queue as [|current queue]; [done|].
  destruct (bool_decide (current ∈ visited)).
  - intros (x & Hx & Hr)%IH. exists x. split; [by right|done].
  - destruct (bool_decide (current = target)) eqn:Ht.
    + apply bool_decide_eq_true in Ht as ->. intros _.
      exists target. split; [by left | apply rtc_refl].
    + intros (x & Hx & Hr)%IH. apply elem_of_app in Hx as [Hx|Hx].
      * exists x. split; [by right|done].
      * exists current. split; [by left|].
        apply list_elem_of_In, filter_In in Hx as [Hx _]. apply list_elem_of_In in Hx.
        by eapply rtc_l.
Qed.

Lemma has_path_bfs_sound self start target :
  _has_path_bfs self start target = true -> reachable self start target.
Proof.
  unfold _has_path_bfs. destruct (bool_decide (start = target)) eqn:E.
  - apply bool_decide_eq_true in E as ->. intros _. apply rtc_refl.
  - intros (x & Hx & Hr)%bfs_loop_sound.
    apply list_elem_of_singleton in Hx as ->. done.
Qed.



Local Open Scope R_scope.


Lemma flap_score_bound noise fingerprint entity_key :
  0 <= _calculate_flap_score noise fingerprint entity_key <= 0.3.
Proof.
  unfold _calculate_flap_score.
  destruct (flap_tracker noise !! _) as [entries|]; [|lra].
  destruct (_ <? _)%nat eqn:E; [lra|].
  apply Nat.ltb_ge in E. split; [|apply Rmin_l].
  apply Rmin_glb; [lra|].
  apply Rmult_le_pos; [apply pos_INR|].
  apply Rlt_le, Rinv_0_lt_compat, lt_0_INR. lia.
Qed.

Lemma severity_scores_bound s : 0.25 <= severity_scores s <= 1.
Proof. unfold severity_scores. repeat case_bool_decide; lra. Qed.

Lemma cardinality_nonneg n : 0 <= ln (IZR (Z.max 1 n)) / ln 10.
Proof.
  assert (H10 : 0 < ln 10) by (rewrite <- ln_1; apply ln_increasing; lra).
  apply Rmult_le_pos; [|by apply Rlt_le, Rinv_0_lt_compat].
  rewrite <- ln_1. destruct (Req_dec (IZR (Z.max 1 n)) 1) as [->|Hne]; [lra|].
  apply Rlt_le, ln_increasing; [lra|].
  assert (1 <= IZR (Z.max 1 n)) by (apply IZR_le; lia). lra.
Qed.








Local Close Scope R_scope.



Lemma select_primary_cause_lag self noise sit :
  Situation.raw_episodes sit <> [] ->
  exists pc, Situation.primary_cause (_select_primary_cause self noise sit) = Some pc
             /\ pc_lag_ms pc = 0.
Proof.
  intros H. unfold _select_primary_cause.
  destruct (Situation.raw_episodes sit); [done|]. eexists. split; reflexivity.
Qed.

(** Claim C10.  Every situation record of the output carries a primary
    cause whose [lag_ms] is 0. *)
Theorem C10_primary_cause_lag_zero self raw_alerts :
  Forall (fun line => exists pc, sr_primary_cause line = Some pc /\ pc_lag_ms pc = 0)
         (situation_lines (output_lines self raw_alerts)).
Proof.
  unfold output_lines.
  destruct (run self raw_alerts) as [out|] eqn:E; [|constructor].
  destruct (run_output _ _ _ E) as (Hs & _ & _). simpl. rewrite Hs. clear E Hs.
  apply Forall_fmap, Forall_forall. intros s Hin.
  cbn [sr_primary_cause output_situation compose].
  apply select_primary_cause_lag. unfold run_spread.
  rewrite (proj2 (spread_episodes _ _ _)).
  unfold run_raw_situations in Hin.
  apply list_elem_of_omap in Hin as (o & Hin & ->).
  destruct (build_situations_order self (run_episodes self raw_alerts)) as (idxs & _ & Hf).
  apply (Forall2_Forall_l _ (fun o => forall s, o = Some s -> Situation.raw_episodes s <> []))
    in Hf.
  - rewrite Forall_forall in Hf. by eapply Hf.
  - apply Forall_true. intros i o' (s' & ep & -> & Hh & _) s0 [= <-].
    intros Hnil. by rewrite Hnil in Hh.
Qed.


Lemma three_series_methods out : run first_seen_engine three_series_input = Some out ->
    method <$> correlation_lines out !! 2%nat = Some leadlag
    /\ method <$> correlation_lines out !! 3%nat = Some burst.
Proof.
  intros E.
  destruct (run_output _ _ _ E) as (_ & Hc & _).
  rewrite Hc. split; vm_compute; reflexivity.
Qed.

(** Claim C2 fails as stated: on three series active in the same three
    bins the run emits a lead-lag record (of the first pair) before a burst
    record (of the second pair). *)
Lemma C2_counterexample :
  exists out,
    run first_seen_engine three_series_input = Some out
    /\ method <$> correlation_lines out !! 2%nat = Some leadlag
    /\ method <$> correlation_lines out !! 3%nat = Some burst.
Proof.
  destruct (run_some first_seen_engine three_series_input) as [out E]; [discriminate|].
  exists out. split; [exact E|]. exact (three_series_methods out E).
Qed.

Lemma reversed_first_record out :
  run reversed_engine three_series_input = Some out ->
  (fun r => (series_a r, series_b r)) <$> correlation_lines out !! 0%nat = Some ("f3", "f2").
Proof.
  intros E. destruct (run_output _ _ _ E) as (_ & Hc & _).
  rewrite Hc. vm_compute. reflexivity.
Qed.

(** Claim C4 fails as stated: when the runtime iterates the set of series
    keys as f3, f2, f1, the first record has [series_a = f3] and
    [series_b = f2], and f3 is not below f2. *)
Lemma C4_counterexample :
  exists out r,
    run reversed_engine three_series_input = Some out
    /\ correlation_lines out !! 0%nat = Some r
    /\ series_a r = "f3" /\ series_b r = "f2"
    /\ String.ltb (series_a r) (series_b r) = false.
Proof.
  destruct (run_some reversed_engine three_series_input) as [out E]; [discriminate|].
  pose proof (reversed_first_record out E) as H.
  destruct (correlation_lines out !! 0%nat) as [r|] eqn:Er; [|discriminate H].
  injection H as Ha Hb.
  exists out, r. split; [exact E|]. split; [exact Er|]. clear E Er.
  rewrite Ha, Hb. repeat split; reflexivity.
Qed.

Lemma unsorted_starts out :
  run first_seen_engine unsorted_input = Some out ->
  map (fun line => w_start (sr_window line)) (situation_lines out) = [0; 1000000; 5000].
Proof.
  intros E. destruct (run_output _ _ _ E) as (Hs & _ & _).
  rewrite Hs, map_map. cbn [sr_window output_situation].
  erewrite map_ext; [|intros s; rewrite select_window; unfold run_spread;
                      rewrite spread_window; reflexivity].
  vm_compute. reflexivity.
Qed.

(** Claim C5 fails as stated: two episodes of one series at 0 s and
    1000 s and an unrelated episode at 5 s give three situation records
    whose window starts read 0, 1000000, 5000. *)
Lemma C5_counterexample :
  exists out,
    run first_seen_engine unsorted_input = Some out
    /\ map (fun line => w_start (sr_window line)) (situation_lines out)
       = [0; 1000000; 5000].
Proof.
  destruct (run_some first_seen_engine unsorted_input) as [out E]; [discriminate|].
  exists out. split; [exact E | exact (unsorted_starts out E)].
Qed.


(** The spacing theorem at the dedup scenario. *)
Lemma C8_dedup_spacing_witness :
  dedup_ttl (args first_seen_engine) * 1000
  <= Alert.ts (scenario_alert 125000) - Alert.ts (scenario_alert 0)
  /\ noise_filter first_seen_engine
       [scenario_alert 0; scenario_alert 60000; scenario_alert 125000]
     = [scenario_alert 0; scenario_alert 125000].
Proof.
  split.
  - apply (proj1 C8_dedup_spacing first_seen_engine fresh_noise
             [scenario_alert 0; scenario_alert 60000; scenario_alert 125000]
             0%nat 1%nat (scenario_alert 125000) (scenario_alert 0)).
    + vm_compute; reflexivity.
    + vm_compute; reflexivity.
    + discriminate.
    + reflexivity.
    + vm_compute; discriminate.
  - apply (proj2 C8_dedup_spacing first_seen_engine
             (scenario_alert 0) (scenario_alert 60000) (scenario_alert 125000));
      try reflexivity; repeat split.
Defined.

(** * Further properties of the engine *)

(** ** Noise cut: what is kept *)

(** Property X1.  Whatever the trackers hold, the alerts [_apply_noise_cut]
    keeps are a subsequence of the input in (stable) timestamp order:
    nothing is added or reordered, the output is in time order and is no
    longer than the input. *)
Theorem noise_cut_sorted_subsequence self st alerts :
  snd (_apply_noise_cut self st alerts) `sublist_of` py_sorted ts_lt alerts
  /\ ts_sorted (snd (_apply_noise_cut self st alerts))
  /\ (length (snd (_apply_noise_cut self st alerts)) <= length alerts)%nat.
Proof.
  split; [|split; [apply accepted_sorted|]].
  - rewrite apply_noise_cut_run. apply noise_run_sublist.
  - rewrite apply_noise_cut_run.
    etrans; [apply sublist_length, noise_run_sublist|].
    by rewrite py_sorted_perm.
Qed.

Lemma py_sorted_nil_inv {A} (lt : A -> A -> bool) l : py_sorted lt l = [] -> l = [].
Proof.
  intros H. apply Permutation_nil. by rewrite <- (py_sorted_perm lt l), H.
Qed.

Lemma noise_run_fresh_head self x l :
  exists st out, noise_run self fresh_noise (x :: l) = (st, x :: out).
Proof.
  cbn [noise_run].
  destruct (noise_cut_body_accept self fresh_noise x) as [st' E].
  - unfold is_duplicate. cbn. by rewrite lookup_empty.
  - unfold is_echo, dd_get. cbn. by rewrite lookup_empty.
  - rewrite E. destruct (noise_run self st' l) as [st'' out]. eauto.
Qed.

(** Property X2.  With fresh trackers the earliest alert survives the noise
    cut: the output starts with the first alert of the sorted input, and a
    non-empty input gives a non-empty output. *)
Theorem noise_filter_keeps_earliest self alerts :
  head (noise_filter self alerts) = head (py_sorted ts_lt alerts)
  /\ (alerts <> [] -> noise_filter self alerts <> []).
Proof.
  unfold noise_filter. rewrite apply_noise_cut_run.
  destruct (py_sorted ts_lt alerts) as [|x l] eqn:E.
  { split; [reflexivity|]. intros Hne. by apply py_sorted_nil_inv in E. }
  destruct (noise_run_fresh_head self x l) as (st & out & ->). done.
Qed.

Lemma noise_run_after_tracked self st l k t s :
  ts_sorted l ->
  ((t, s) ∈ dd_get (echo_tracker st) k \/ Forall (fun a => echo_window < Alert.ts a - t) l) ->
  Forall (fun a => echo_key a = k -> Alert.source a <> s -> echo_window < Alert.ts a - t)
         (snd (noise_run self st l)).
Proof.
  revert st. induction l as [|x l IH]; intros st Hs Hin; simpl; [constructor|].
  apply StronglySorted_inv in Hs as [Hs Hall].
  assert (Hfar : echo_window < Alert.ts x - t ->
                 Forall (fun a => echo_window < Alert.ts a - t) l).
  { intros Hx. eapply Forall_impl; [exact Hall|]. simpl. lia. }
  destruct (noise_cut_body self st x) as [st' o] eqn:E.
  destruct o as [a|].
  - pose proof E as (-> & _ & Hecho & _ & He & _)%noise_cut_body_some.
    assert (Hx : echo_key x = k -> Alert.source x <> s -> echo_window < Alert.ts x - t).
    { intros <- Hsrc. destruct Hin as [Hin|Hin].
      - unfold is_echo in Hecho.
        destruct (Z.lt_ge_cases echo_window (Alert.ts x - t)) as [?|Hle]; [done|].
        exfalso. apply not_true_iff_false in Hecho. apply Hecho.
        apply existsb_exists. exists (t, s). split; [by apply list_elem_of_In|].
        rewrite bool_decide_eq_true_2 by lia.
        by rewrite bool_decide_eq_false_2. 
      - by apply Forall_cons in Hin as [? _]. }
    specialize (IH st' Hs).
    destruct (noise_run self st' l) as [st'' out]. simpl in *.
    constructor; [exact Hx|]. apply IH.
    destruct (Z.lt_ge_cases echo_window (Alert.ts x - t)) as [Hgt|Hle]; [right; auto|].
    destruct Hin as [Hin|Hin]; [|apply Forall_cons in Hin as [? _]; lia].
    destruct (decide (echo_key x = k)) as [<-|Hne].
    + left. rewrite He. unfold dd_get at 1. rewrite lookup_insert_eq. simpl.
      apply list_elem_of_filter. split; [lia|]. apply elem_of_app. by left.
    + left. rewrite He. unfold dd_get. rewrite lookup_insert_ne by done.
      unfold dd_touch. destruct (echo_tracker st !! echo_key x) eqn:Ek; [done|].
      by rewrite lookup_insert_ne.
  - apply IH; [done|].
    destruct Hin as [Hin|Hin]; [|right; by apply Forall_cons in Hin as [_ ?]].
    left. unfold noise_cut_body in E.
    destruct (is_duplicate self st x); [by injection E as <-|].
    destruct (is_echo st x); [|done]. injection E as <-. cbn [echo_tracker].
    unfold dd_touch. destruct (echo_tracker st !! echo_key x) eqn:Ek; [done|].
    unfold dd_get in *. destruct (decide (echo_key x = k)) as [<-|Hne].
    + rewrite Ek in Hin. by apply elem_of_nil in Hin.
    + by rewrite lookup_insert_ne.
Qed.

(** Property X3.  Vendor echo suppression: two kept alerts of one
    (fingerprint, entity_key) pair that come from different sources are more
    than the echo window (10 s) apart. *)
Theorem echo_spacing self alerts i j a b :
  noise_filter self alerts !! i = Some b ->
  noise_filter self alerts !! j = Some a ->
  (i < j)%nat -> echo_key a = echo_key b -> Alert.source a <> Alert.source b ->
  echo_window < Alert.ts a - Alert.ts b.
Proof.
  unfold noise_filter. rewrite apply_noise_cut_run.
  pose proof (py_sorted_sorted Alert.ts alerts) as Hs.
  change (ts_sorted (py_sorted ts_lt alerts)) in Hs.
  generalize dependent (py_sorted ts_lt alerts). intros l Hs. generalize fresh_noise.
  revert i j. induction l as [|x l IH]; intros i j st Hi Hj Hij Hk Hsrc; simpl in *.
  { by rewrite lookup_nil in Hi. }
  apply StronglySorted_inv in Hs as [Hs Hall].
  destruct (noise_cut_body self st x) as [st' [a'|]] eqn:E; [|by eapply IH].
  pose proof E as (-> & _ & _ & _ & He & _)%noise_cut_body_some.
  pose proof (noise_run_after_tracked self st' l (echo_key x) (Alert.ts x) (Alert.source x) Hs)
    as Hafter.
  pose proof (fun i j => IH Hs i j st') as IH'. clear IH.
  destruct (noise_run self st' l) as [st'' out]. simpl in *.
  destruct i as [|i]; destruct j as [|j]; simpl in *; try lia.
  - injection Hi as <-.
    assert (Hall' : Forall (fun a => echo_key a = echo_key x -> Alert.source a <> Alert.source x
                                     -> echo_window < Alert.ts a - Alert.ts x) out).
    { apply Hafter. left. rewrite He. unfold dd_get. rewrite lookup_insert_eq. simpl.
      apply list_elem_of_filter. split; [unfold echo_window; lia|].
      apply elem_of_app. right. by apply list_elem_of_singleton. }
    rewrite Forall_forall in Hall'. apply Hall'; [by eapply list_elem_of_lookup_2|done..].
  - apply (IH' i j); [done..|lia|done|done].
Qed.

(** The echo spacing at two vendors 20 s apart. *)
Lemma echo_spacing_witness :
  echo_window
  < Alert.ts (vendor_alert 20000 "grafana" "low") - Alert.ts (vendor_alert 0 "datadog" "high").
Proof.
  apply (echo_spacing first_seen_engine
           [vendor_alert 0 "datadog" "high"; vendor_alert 20000 "grafana" "low"]
           0%nat 1%nat).
  - vm_compute; reflexivity.
  - vm_compute; reflexivity.
  - lia.
  - reflexivity.
  - discriminate.
Defined.

Lemma dd_get_touch_any {K} `{Countable K} {V} (m : gmap K (list V)) (k k' : K) :
  dd_get (dd_touch m k) k' = dd_get m k'.
Proof.
  unfold dd_get, dd_touch. destruct (m !! k) eqn:E; [done|].
  destruct (decide (k = k')) as [<-|Hne].
  - by rewrite lookup_insert_eq, E.
  - by rewrite lookup_insert_ne.
Qed.

Lemma noise_cut_body_tracked self st seen x st' o :
  tracked_from st seen -> noise_cut_body self st x = (st', o) ->
  tracked_from st' (x :: seen).
Proof.
  intros [Hc He]. unfold noise_cut_body.
  assert (Hc' : forall k t, <[dedup_key x := Alert.ts x]> (dedup_cache st) !! k = Some t ->
                            exists b, b ∈ x :: seen /\ dedup_key b = k /\ Alert.ts b = t).
  { intros k t. destruct (decide (dedup_key x = k)) as [<-|Hne].
    - rewrite lookup_insert_eq. intros [= <-]. exists x. split; [by left|done].
    - rewrite lookup_insert_ne by done. intros (b & Hb & Hk)%Hc. exists b.
      split; [by right|done]. }
  assert (He' : forall k t s, (t, s) ∈ dd_get (echo_tracker st) k ->
                  exists b, b ∈ x :: seen /\ echo_key b = k /\ Alert.ts b = t
                            /\ Alert.source b = s).
  { intros k t s (b & Hb & Hk)%He. exists b. split; [by right|done]. }
  destruct (is_duplicate self st x).
  { intros [= <- <-]. split; [|exact He'].
    intros k t (b & Hb & Hk)%Hc. exists b. split; [by right|done]. }
  destruct (is_echo st x); intros [= <- <-]; (split; [exact Hc'|]);
    cbn [echo_tracker dedup_cache]; intros k t s.
  - rewrite dd_get_touch_any. apply He'.
  - destruct (decide (echo_key x = k)) as [<-|Hne].
    + unfold dd_get at 1. rewrite lookup_insert_eq. cbn [default].
      intros [_ Hin]%list_elem_of_filter. rewrite dd_get_touch in Hin.
      apply elem_of_app in Hin as [Hin|Hin]; [by apply He'|].
      apply list_elem_of_singleton in Hin as [= -> ->].
      exists x. split; [by left|done].
    + unfold dd_get at 1. rewrite lookup_insert_ne by done.
      fold (dd_get (dd_touch (echo_tracker st) (echo_key x)) k).
      rewrite dd_get_touch_any. apply He'.
Qed.

Lemma noise_run_keeps self l :
  forall st seen j a,
    tracked_from st seen -> l !! j = Some a ->
    (forall b, b ∈ seen \/ (exists i, (i < j)%nat /\ l !! i = Some b) -> clear_of self a b) ->
    a ∈ snd (noise_run self st l).
Proof.
  induction l as [|x l IH]; intros st seen j a Htr Hj Hclear; [by rewrite lookup_nil in Hj|].
  cbn [noise_run]. destruct j as [|j].
  - injection Hj as ->. destruct Htr as [Hc He].
    destruct (noise_cut_body_accept self st a) as [st' E].
    + unfold is_duplicate. destruct (dedup_cache st !! dedup_key a) as [t|] eqn:Et; [|done].
      destruct (Hc _ _ Et) as (b & Hb & Hk & <-).
      destruct (Hclear b (or_introl Hb)) as [Hd _]. specialize (Hd Hk).
      apply bool_decide_eq_false. lia.
    + unfold is_echo. apply not_true_iff_false. intros Hex.
      apply existsb_exists in Hex as ([t s] & Hin & Hts).
      apply list_elem_of_In in Hin. destruct (He _ _ _ Hin) as (b & Hb & Hk & <- & <-).
      destruct (Hclear b (or_introl Hb)) as [_ Hd]. specialize (Hd Hk).
      apply andb_true_iff in Hts as [H1%bool_decide_eq_true H2%negb_true_iff].
      apply bool_decide_eq_false in H2. specialize (Hd H2). lia.
    + rewrite E. destruct (noise_run self st' l). by left.
  - destruct (noise_cut_body self st x) as [st' o] eqn:E.
    pose proof (noise_cut_body_tracked self st seen x st' o Htr E) as Htr'.
    assert (Hin : a ∈ snd (noise_run self st' l)).
    { apply (IH st' (x :: seen) j a Htr' Hj). intros b [Hb|(i & Hi & Hb)].
      - apply elem_of_cons in Hb as [->|Hb].
        + apply Hclear. right. exists 0%nat. split; [lia|done].
        + apply Hclear. by left.
      - apply Hclear. right. exists (S i). split; [lia|done]. }
    destruct o as [a'|]; [|done].
    destruct (noise_run self st' l). by right.
Qed.

(** Property X4.  The noise cut drops nothing else: an alert is kept when
    every alert before it in time order is clear of it, that is, has
    another dedup key or is at least [dedup_ttl] seconds older, and has
    another echo key, the same source, or is more than the echo window
    older. *)
Theorem noise_filter_keeps_isolated self alerts j a :
  py_sorted ts_lt alerts !! j = Some a ->
  (forall i b, (i < j)%nat -> py_sorted ts_lt alerts !! i = Some b -> clear_of self a b) ->
  a ∈ noise_filter self alerts.
Proof.
  intros Hj Hclear. unfold noise_filter. rewrite apply_noise_cut_run.
  apply (noise_run_keeps self _ fresh_noise [] j a); [|exact Hj|].
  - split.
    + intros k t H. cbn in H. by rewrite lookup_empty in H.
    + intros k t s H. unfold dd_get in H. cbn in H. rewrite lookup_empty in H.
      by apply elem_of_nil in H.
  - intros b [Hb|(i & Hi & Hb)]; [by apply elem_of_nil in Hb|]. by eapply Hclear.
Qed.

(** An alert 200 s after its only predecessor is kept. *)
Lemma noise_filter_keeps_isolated_witness :
  scenario_alert 200000
  ∈ noise_filter first_seen_engine [scenario_alert 0; scenario_alert 200000].
Proof.
  apply (noise_filter_keeps_isolated first_seen_engine
           [scenario_alert 0; scenario_alert 200000] 1%nat).
  - vm_compute; reflexivity.
  - intros i b Hi Hb. destruct i as [|i]; [|lia].
    vm_compute in Hb. injection Hb as <-.
    split; [intros _; vm_compute; discriminate | intros _ Hs; by destruct Hs].
Defined.

(** ** Episodes *)

Lemma ts_sorted_head_le x l :
  ts_sorted (x :: l) -> Forall (fun a => Alert.ts x <= Alert.ts a) (x :: l).
Proof.
  intros [Hs Hall]%StronglySorted_inv. constructor; [lia|done].
Qed.

Lemma ts_sorted_last_ge l z :
  ts_sorted l -> last l = Some z -> Forall (fun a => Alert.ts a <= Alert.ts z) l.
Proof.
  induction l as [|x l IH]; intros Hs Hl; [constructor|].
  apply StronglySorted_inv in Hs as [Hs Hall].
  destruct l as [|y l].
  - injection Hl as ->. repeat constructor. lia.
  - change (last (y :: l) = Some z) in Hl. specialize (IH Hs Hl).
    constructor; [|done].
    rewrite Forall_forall in Hall. apply Hall. by apply last_Some_elem_of.
Qed.

(** Property X5.  [_create_episode] fails only on an empty list.  Otherwise
    the episode holds the alerts in time order and counts them, spans from
    the earliest to the latest timestamp (both are timestamps of its
    alerts), takes its entity key and fingerprint from an earliest alert,
    and keeps at most 50 sample timestamps, vendor event ids and resource
    ids. *)
Theorem create_episode_spec self alerts :
  match _create_episode self alerts with
  | None => alerts = []
  | Some ep =>
      Episode.alerts ep = py_sorted ts_lt alerts
      /\ Episode.count ep = Z.of_nat (length alerts) /\ 1 <= Episode.count ep
      /\ Episode.start ep <= Episode.end_ ep
      /\ Forall (fun a => Episode.start ep <= Alert.ts a <= Episode.end_ ep) alerts
      /\ (exists a, a ∈ alerts /\ Alert.ts a = Episode.start ep
                    /\ Alert.entity_key a = Episode.entity_key ep
                    /\ Alert.fingerprint a = Episode.fingerprint ep)
      /\ (exists a, a ∈ alerts /\ Alert.ts a = Episode.end_ ep)
      /\ (length (Episode.sample_ts ep) <= 50)%nat
      /\ (length (Episode.vendor_event_ids ep) <= 50)%nat
      /\ (length (Episode.resource_ids ep) <= 50)%nat
  end.
Proof.
  unfold _create_episode.
  pose proof (py_sorted_sorted Alert.ts alerts) as Hs.
  pose proof (py_sorted_perm ts_lt alerts) as Hp.
  change (ts_sorted (py_sorted ts_lt alerts)) in Hs.
  destruct (py_sorted ts_lt alerts) as [|x l] eqn:E.
  { simpl. by apply Permutation_nil. }
  destruct (last (x :: l)) as [z|] eqn:El.
  2:{ exfalso. assert (Hsome : is_Some (last (x :: l))) by by apply last_is_Some.
      rewrite El in Hsome. by destruct Hsome. }
  cbn [head Episode.alerts Episode.count Episode.start Episode.end_ Episode.sample_ts
       Episode.vendor_event_ids Episode.resource_ids Episode.entity_key Episode.fingerprint].
  pose proof (ts_sorted_head_le x l Hs) as Hh.
  pose proof (ts_sorted_last_ge (x :: l) z Hs El) as Hl.
  assert (Hlen : length (x :: l) = length alerts) by by rewrite Hp.
  split; [done|]. split; [by rewrite Hlen|]. split; [simpl; lia|].
  split. { apply Forall_cons in Hl as [? _]. lia. }
  split.
  { rewrite <- Hp. rewrite Forall_forall in *. intros a Ha.
    specialize (Hh a Ha). specialize (Hl a Ha). simpl in *. lia. }
  split. { exists x. rewrite <- Hp. split; [by left|done]. }
  split. { exists z. rewrite <- Hp. split; [by apply last_Some_elem_of|done]. }
  repeat split; apply firstn_le_length.
Qed.

Lemma group_append_perm {K} `{EqDecision K} {V} (groups : list (K * list V)) k v :
  flat_map snd (group_append groups k v) ≡ₚ v :: flat_map snd groups.
Proof.
  induction groups as [|[k' vs] groups IH]; simpl; [done|].
  destruct (decide (k' = k)); simpl.
  - rewrite <- app_assoc. simpl. by rewrite Permutation_middle.
  - rewrite IH. by rewrite Permutation_middle.
Qed.

Lemma group_append_keys (groups : list ((string * string) * list Alert.t)) a :
  Forall (fun '(k, vs) => Forall (fun x => group_key x = k) vs) groups ->
  Forall (fun '(k, vs) => Forall (fun x => group_key x = k) vs)
         (group_append groups (group_key a) a).
Proof.
  induction 1 as [|[k' vs] groups Hk Hg IH]; simpl.
  - repeat constructor.
  - destruct (decide (k' = group_key a)) as [->|Hne]; constructor; try done.
    apply Forall_app. split; [done|]. by repeat constructor.
Qed.

Lemma chained_nil g : chained g [].
Proof. intros i a b H. by rewrite lookup_nil in H. Qed.

Lemma chained_singleton g x : chained g [x].
Proof. intros [|i] a b H1 H2; simpl in *; by rewrite ?lookup_nil in *. Qed.

Lemma chained_snoc g l p x :
  chained g l -> last l = Some p -> 0 <= Alert.ts x - Alert.ts p <= g ->
  chained g (l ++ [x]).
Proof.
  intros Hc Hl Hx i a b Ha Hb.
  apply last_Some in Hl as [l' ->].
  destruct (decide (S i < length (l' ++ [p]))%nat) as [Hlt|Hge].
  - rewrite lookup_app_l in Ha by lia. rewrite lookup_app_l in Hb by lia. by eapply Hc.
  - assert (Hi : S i = length (l' ++ [p])).
    { apply lookup_lt_Some in Hb. rewrite !length_app in *. simpl in *. lia. }
    rewrite lookup_app_r in Hb by lia. rewrite Hi, Nat.sub_diag in Hb. injection Hb as <-.
    rewrite lookup_app_l in Ha by lia.
    rewrite length_app in Hi. simpl in Hi.
    rewrite lookup_app_r in Ha by lia.
    replace (i - length l')%nat with 0%nat in Ha by lia. injection Ha as <-. done.
Qed.

Lemma create_episode_sorted self cur k :
  cur <> [] -> ts_sorted cur -> chained (episode_gap (args self) * 1000) cur ->
  Forall (fun a => group_key a = k) cur ->
  exists ep, _create_episode self cur = Some ep
             /\ Episode.alerts ep = cur /\ episode_invariant self ep
             /\ (Episode.entity_key ep, Episode.fingerprint ep) = k.
Proof.
  intros Hne Hs Hc Hk. unfold _create_episode.
  rewrite (py_sorted_id Alert.ts) by exact Hs.
  destruct cur as [|x l]; [done|].
  destruct (last (x :: l)) as [z|] eqn:El.
  2:{ exfalso. assert (Hsome : is_Some (last (x :: l))) by by apply last_is_Some.
      rewrite El in Hsome. by destruct Hsome. }
  cbn [head]. eexists. split; [reflexivity|].
  cbn [Episode.alerts]. split; [reflexivity|].
  assert (Hkx : (Alert.entity_key x, Alert.fingerprint x) = k).
  { apply Forall_cons in Hk as [Hx _]. exact Hx. }
  split; [|exact Hkx].
  unfold episode_invariant.
  cbn [Episode.alerts Episode.entity_key Episode.fingerprint Episode.start Episode.end_
       Episode.count].
  split; [by rewrite Hkx|]. split; [done|]. split.
  { pose proof (ts_sorted_last_ge (x :: l) z Hs El) as Hl.
    apply Forall_cons in Hl as [? _]. done. }
  split; [simpl; lia|]. split; [done|]. split; [by exists x|]. by exists z.
Qed.

Lemma split_loop_spec self k rest :
  forall episodes current,
    ts_sorted (current ++ rest) ->
    chained (episode_gap (args self) * 1000) current ->
    Forall (fun a => group_key a = k) (current ++ rest) ->
    exists new cur',
      fold_left (split_body self) rest (episodes, current) = (episodes ++ new, cur')
      /\ Forall (fun ep => episode_invariant self ep
                           /\ (Episode.entity_key ep, Episode.fingerprint ep) = k) new
      /\ concat (map Episode.alerts new) ++ cur' = current ++ rest
      /\ ts_sorted cur'
      /\ chained (episode_gap (args self) * 1000) cur'
      /\ Forall (fun a => group_key a = k) cur'
      /\ (cur' = [] -> current ++ rest = [])
      /\ key_separated self new
      /\ (forall ep a, ep ∈ new -> a ∈ cur' ->
                       Episode.end_ ep + episode_gap (args self) * 1000 < Alert.ts a).
Proof.
  induction rest as [|x rest IH]; intros episodes current Hs Hc Hk.
  { exists [], current. rewrite !app_nil_r in *. simpl.
    do 7 (split; [done|]). split.
    - intros i j ep1 ep2 H. by rewrite lookup_nil in H.
    - intros ep a H _. by apply elem_of_nil in H. }
  cbn [fold_left]. unfold split_body at 2.
  destruct (last current) as [prev|] eqn:El.
  - assert (Hne : current <> []) by (intros ->; discriminate El).
    assert (Hprev : prev ∈ current) by by apply last_Some_elem_of.
    assert (Hpx : Alert.ts prev <= Alert.ts x).
    { apply (StronglySorted_app_1_elem_of _ _ _ prev x Hs); [done|by left]. }
    destruct (Z.gtb_spec (Alert.ts x - Alert.ts prev) (episode_gap (args self) * 1000))
      as [Hgap|Hgap].
    + destruct (create_episode_sorted self current k) as (ep & Hep & Ha & Hinv & Hkey);
        try done.
      { by eapply StronglySorted_app_1_l. }
      { apply Forall_app in Hk as [? _]. done. }
      unfold append_episode. rewrite Hep.
      assert (Hs2 : ts_sorted ([x] ++ rest)) by by eapply StronglySorted_app_1_r.
      destruct (IH (episodes ++ [ep]) [x])
        as (new & cur' & Hf & Hn & Hcat & Hs' & Hc' & Hk' & He & Hsep & Hcur).
      { exact Hs2. }
      { apply chained_singleton. }
      { apply Forall_app in Hk as [_ ?]. done. }
      assert (Hend : Episode.end_ ep = Alert.ts prev).
      { destruct Hinv as (_ & _ & _ & _ & _ & _ & final & Hl & <-).
        rewrite Ha, El in Hl. by injection Hl as <-. }
      assert (Hlater : forall a, a ∈ [x] ++ rest ->
                Episode.end_ ep + episode_gap (args self) * 1000 < Alert.ts a).
      { intros a Hin. rewrite Hend. simpl in Hin.
        apply elem_of_cons in Hin as [->|Hin]; [lia|].
        apply StronglySorted_inv in Hs2 as [_ Hall]. rewrite Forall_forall in Hall.
        specialize (Hall a Hin). simpl in Hall. lia. }
      exists (ep :: new), cur'. rewrite Hf, <- app_assoc. simpl.
      split; [done|]. split; [by constructor|].
      split; [by rewrite <- app_assoc, Hcat, Ha|]. split; [done|]. split; [done|].
      split; [done|]. split; [intros Hnil; by specialize (He Hnil)|]. split.
      * intros i j ep1 ep2 Hi Hj Hij Hek Hfk. destruct j as [|j]; [lia|].
        destruct i as [|i]; simpl in Hi, Hj.
        -- injection Hi as <-. apply list_elem_of_lookup_2 in Hj as Hin2.
           rewrite Forall_forall in Hn.
           destruct (Hn _ Hin2) as [(_ & _ & _ & _ & _ & (first & Hh & <-) & _) _].
           apply Hlater. rewrite <- Hcat. apply elem_of_app. left.
           apply list_elem_of_In, in_concat. exists (Episode.alerts ep2).
           split; [apply in_map; by apply list_elem_of_In|].
           destruct (Episode.alerts ep2); [done|]. injection Hh as ->. by left.
        -- apply (Hsep i j); [done..|lia|done|done].
      * intros ep' a [->|Hin]%elem_of_cons Ha'.
        -- apply Hlater. rewrite <- Hcat. apply elem_of_app. by right.
        -- by apply Hcur.
    + destruct (IH episodes (current ++ [x]))
        as (new & cur' & Hf & Hn & Hcat & Hs' & Hc' & Hk' & He & Hsep & Hcur).
      { by rewrite <- app_assoc. }
      { eapply chained_snoc; [done..|]. lia. }
      { by rewrite <- app_assoc. }
      exists new, cur'. rewrite Hf. rewrite <- app_assoc in Hcat, He. done.
  - assert (current = []) as ->.
    { destruct current as [|c cs] using rev_ind; [done|]. by rewrite last_snoc in El. }
    destruct (IH episodes [x])
      as (new & cur' & Hf & Hn & Hcat & Hs' & Hc' & Hk' & He & Hsep & Hcur);
      [done | apply chained_singleton | done |].
    exists new, cur'. done.
Qed.

Lemma key_separated_snoc self episodes ep :
  key_separated self episodes ->
  (forall ep1, ep1 ∈ episodes ->
               Episode.end_ ep1 + episode_gap (args self) * 1000 < Episode.start ep) ->
  key_separated self (episodes ++ [ep]).
Proof.
  intros Hsep Hlast i j ep1 ep2 Hi Hj Hij Hek Hfk.
  apply lookup_lt_Some in Hj as Hlen. rewrite length_app in Hlen. simpl in Hlen.
  rewrite lookup_app_l in Hi by lia.
  destruct (decide (j < length episodes)%nat) as [Hlt|Hge].
  - rewrite lookup_app_l in Hj by done. by eapply (Hsep i j).
  - rewrite lookup_app_r in Hj by lia.
    replace (j - length episodes)%nat with 0%nat in Hj by lia. injection Hj as <-.
    apply Hlast. by eapply list_elem_of_lookup_2.
Qed.

Lemma key_separated_app self episodes1 episodes2 :
  key_separated self episodes1 -> key_separated self episodes2 ->
  (forall ep1 ep2, ep1 ∈ episodes1 -> ep2 ∈ episodes2 ->
                   (Episode.entity_key ep1, Episode.fingerprint ep1)
                   <> (Episode.entity_key ep2, Episode.fingerprint ep2)) ->
  key_separated self (episodes1 ++ episodes2).
Proof.
  intros H1 H2 Hne i j ep1 ep2 Hi Hj Hij Hek Hfk.
  destruct (decide (j < length episodes1)%nat) as [Hlt|Hge].
  - rewrite lookup_app_l in Hi by lia. rewrite lookup_app_l in Hj by done.
    by eapply (H1 i j).
  - rewrite lookup_app_r in Hj by lia.
    destruct (decide (i < length episodes1)%nat) as [Hlt'|Hge'].
    + rewrite lookup_app_l in Hi by done. exfalso.
      apply (Hne ep1 ep2); [by eapply list_elem_of_lookup_2..|]. by rewrite Hek, Hfk.
    + rewrite lookup_app_r in Hi by lia.
      eapply (H2 (i - length episodes1)%nat (j - length episodes1)%nat); [done..|lia|done|done].
Qed.

Lemma split_group_spec self k episodes group_alerts :
  Forall (fun a => group_key a = k) group_alerts ->
  exists new,
    split_group self episodes group_alerts = episodes ++ new
    /\ Forall (fun ep => episode_invariant self ep
                         /\ (Episode.entity_key ep, Episode.fingerprint ep) = k) new
    /\ concat (map Episode.alerts new) = py_sorted ts_lt group_alerts
    /\ key_separated self new.
Proof.
  intros Hk. unfold split_group.
  destruct (split_loop_spec self k (py_sorted ts_lt group_alerts) episodes [])
    as (new & cur' & Hf & Hn & Hcat & Hs' & Hc' & Hk' & He & Hsep & Hcur).
  { apply (py_sorted_sorted Alert.ts). }
  { apply chained_nil. }
  { simpl. by rewrite py_sorted_perm. }
  rewrite Hf. simpl in Hcat.
  destruct cur' as [|c cs].
  - exists new. by rewrite app_nil_r in Hcat.
  - destruct (create_episode_sorted self (c :: cs) k) as (ep & Hep & Ha & Hinv & Hkey);
      try done.
    unfold append_episode. rewrite Hep. exists (new ++ [ep]).
    rewrite <- app_assoc. split; [done|]. split.
    + apply Forall_app. split; [done|]. constructor; [done|constructor].
    + split; [rewrite map_app, concat_app; simpl; by rewrite app_nil_r, Ha|].
      apply key_separated_snoc; [done|]. intros ep1 Hin.
      destruct Hinv as (_ & _ & _ & _ & _ & (first & Hh & <-) & _).
      apply Hcur; [done|]. rewrite Ha in Hh. injection Hh as ->. by left.
Qed.

Lemma build_episodes_groups self groups :
  Forall (fun '(k, vs) => Forall (fun x => group_key x = k) vs) groups ->
  NoDup (map fst groups) ->
  forall episodes,
  exists new,
    fold_left (fun episodes '(_, group_alerts) => split_group self episodes group_alerts)
              groups episodes = episodes ++ new
    /\ Forall (fun ep => episode_invariant self ep
                         /\ (Episode.entity_key ep, Episode.fingerprint ep) ∈ map fst groups)
              new
    /\ flat_map Episode.alerts new ≡ₚ flat_map snd groups
    /\ key_separated self new.
Proof.
  induction 1 as [|[k vs] groups Hk Hg IH]; intros Hnd episodes; simpl.
  - exists []. rewrite app_nil_r. split; [done|]. split; [constructor|]. split; [done|].
    intros i j ep1 ep2 H. by rewrite lookup_nil in H.
  - simpl in Hnd. apply NoDup_cons in Hnd as [Hnotin Hnd].
    destruct (split_group_spec self k episodes vs Hk) as (new1 & -> & Hn1 & Hc1 & Hs1).
    destruct (IH Hnd (episodes ++ new1)) as (new2 & -> & Hn2 & Hc2 & Hs2).
    exists (new1 ++ new2). rewrite <- app_assoc. split; [done|]. split.
    { apply Forall_app. split.
      - eapply Forall_impl; [exact Hn1|]. intros ep [Hi ->]. split; [done|by left].
      - eapply Forall_impl; [exact Hn2|]. intros ep [Hi Hin]. split; [done|by right]. }
    split.
    { rewrite flat_map_app, Hc2, flat_map_concat_map, Hc1. by rewrite py_sorted_perm. }
    apply key_separated_app; [done..|].
    intros ep1 ep2 Hin1 Hin2 Heq. rewrite Forall_forall in Hn1, Hn2.
    destruct (Hn1 _ Hin1) as [_ Hk1]. destruct (Hn2 _ Hin2) as [_ Hk2].
    apply Hnotin. by rewrite <- Hk1, Heq.
Qed.

Lemma group_append_fst {K} `{EqDecision K} {V} (groups : list (K * list V)) k v :
  map fst (group_append groups k v)
  = if bool_decide (k ∈ map fst groups) then map fst groups else map fst groups ++ [k].
Proof.
  induction groups as [|[k' vs] groups IH]; simpl; [done|].
  destruct (decide (k' = k)) as [->|Hne]; simpl.
  - rewrite bool_decide_eq_true_2; [done|by left].
  - rewrite IH. case_bool_decide as Hin.
    + rewrite bool_decide_eq_true_2; [done|by right].
    + rewrite bool_decide_eq_false_2; [done|].
      intros [?|?]%elem_of_cons; [congruence|done].
Qed.

Lemma build_groups_spec (alerts : list Alert.t) :
  forall groups,
    Forall (fun '(k, vs) => Forall (fun x => group_key x = k) vs) groups ->
    NoDup (map fst groups) ->
    Forall (fun '(k, vs) => Forall (fun x => group_key x = k) vs)
           (fold_left (fun groups alert =>
                         group_append groups (Alert.entity_key alert, Alert.fingerprint alert)
                                      alert) alerts groups)
    /\ NoDup (map fst (fold_left (fun groups alert =>
                         group_append groups (Alert.entity_key alert, Alert.fingerprint alert)
                                      alert) alerts groups))
    /\ flat_map snd (fold_left (fun groups alert =>
                         group_append groups (Alert.entity_key alert, Alert.fingerprint alert)
                                      alert) alerts groups)
       ≡ₚ flat_map snd groups ++ alerts.
Proof.
  induction alerts as [|a alerts IH]; intros groups Hg Hnd; simpl.
  - by rewrite app_nil_r.
  - destruct (IH (group_append groups (group_key a) a)) as (H1 & H2 & H3).
    { by apply group_append_keys. }
    { rewrite group_append_fst. case_bool_decide as Hin; [done|].
      apply NoDup_app. split; [done|]. split; [|apply NoDup_singleton].
      intros k Hk ->%list_elem_of_singleton. done. }
    split; [exact H1|]. split; [exact H2|]. etrans; [exact H3|].
    rewrite group_append_perm. simpl. apply Permutation_middle.
Qed.

Lemma build_episodes_wellformed self alerts :
  flat_map Episode.alerts (_build_episodes self alerts) ≡ₚ alerts
  /\ Forall (episode_invariant self) (_build_episodes self alerts)
  /\ key_separated self (_build_episodes self alerts).
Proof.
  unfold _build_episodes.
  destruct (build_groups_spec alerts []) as (Hk & Hnd & Hp); [constructor|constructor|].
  destruct (build_episodes_groups self _ Hk Hnd []) as (new & -> & Hn & Hc & Hs).
  simpl. split; [by rewrite Hc, Hp|]. split; [|done].
  eapply Forall_impl; [exact Hn|]. by intros ep [? _].
Qed.

Lemma zsum_counts self episodes :
  Forall (episode_invariant self) episodes ->
  zsum (map Episode.count episodes) = Z.of_nat (length (flat_map Episode.alerts episodes)).
Proof.
  intros Hinv. unfold zsum.
  assert (Hgen : forall z, fold_left Z.add (map Episode.count episodes) z
                           = z + Z.of_nat (length (flat_map Episode.alerts episodes))).
  { induction Hinv as [|ep eps (_ & _ & _ & _ & Hc & _) Hinv IH]; intros z; simpl; [lia|].
    rewrite IH, length_app, Hc. lia. }
  by rewrite Hgen.
Qed.

(** Property X6.  [_build_episodes] partitions the alerts: the alert lists
    of the episodes are together a permutation of the input, and the
    episode counts add up to the number of alerts. *)
Theorem build_episodes_partition self alerts :
  flat_map Episode.alerts (_build_episodes self alerts) ≡ₚ alerts
  /\ zsum (map Episode.count (_build_episodes self alerts)) = Z.of_nat (length alerts).
Proof.
  destruct (build_episodes_wellformed self alerts) as (Hperm & Hinv & _).
  split; [exact Hperm|].
  by rewrite (zsum_counts self _ Hinv), (Permutation_length Hperm).
Qed.

(** Property X7.  Every episode of [_build_episodes] holds alerts of one
    (entity_key, fingerprint) pair, the episode's own; consecutive alerts
    are in time order and at most [episode_gap] seconds apart; [start] and
    [end] are the timestamps of its first and last alert; [count] is the
    number of its alerts and is at least 1. *)
Theorem build_episodes_invariant self alerts :
  Forall (episode_invariant self) (_build_episodes self alerts).
Proof. apply build_episodes_wellformed. Qed.

(** Property X8.  The split is maximal: episodes of one
    (entity_key, fingerprint) pair are listed in time order, and each ends
    more than [episode_gap] seconds before the next one starts. *)
Theorem build_episodes_separated self alerts i j ep1 ep2 :
  _build_episodes self alerts !! i = Some ep1 ->
  _build_episodes self alerts !! j = Some ep2 ->
  (i < j)%nat ->
  Episode.entity_key ep1 = Episode.entity_key ep2 ->
  Episode.fingerprint ep1 = Episode.fingerprint ep2 ->
  Episode.end_ ep1 + episode_gap (args self) * 1000 < Episode.start ep2.
Proof.
  destruct (build_episodes_wellformed self alerts) as (_ & _ & Hsep). apply Hsep.
Qed.

(** Two alerts of one key 400 s apart give two episodes. *)
Lemma build_episodes_separated_witness :
  exists ep1 ep2,
    _build_episodes first_seen_engine [scenario_alert 0; scenario_alert 400000] = [ep1; ep2]
    /\ Episode.end_ ep1 + episode_gap (args first_seen_engine) * 1000 < Episode.start ep2.
Proof.
  let l := eval vm_compute in
      (_build_episodes first_seen_engine [scenario_alert 0; scenario_alert 400000]) in
  match l with
  | [?x; ?y] => exists x, y
  end.
  split; [vm_compute; reflexivity|].
  eapply (build_episodes_separated first_seen_engine
            [scenario_alert 0; scenario_alert 400000] 0%nat 1%nat).
  - vm_compute; reflexivity.
  - vm_compute; reflexivity.
  - lia.
  - reflexivity.
  - reflexivity.
Defined.

(** ** Union-find *)

Lemma chain_det p n x r m r' : chain p n x r -> chain p m x r' -> n = m /\ r = r'.
Proof.
  intros H. revert m r'. induction H as [x Hx|n x y r Hx Hne _ IH]; intros m r' H'.
  - inversion H' as [? Hx'|? ? y' ? Hx' Hne' _]; subst; [done|]. congruence.
  - inversion H' as [? Hx'|m' ? y' ? Hx' Hne' Hc']; subst; [congruence|].
    rewrite Hx in Hx'. injection Hx' as <-. by destruct (IH _ _ Hc') as [-> ->].
Qed.

Lemma repr_det p x r r' : repr p x r -> repr p x r' -> r = r'.
Proof. intros [n H] [m H']. by destruct (chain_det _ _ _ _ _ _ H H'). Qed.

Lemma chain_root_lookup p n x r : chain p n x r -> p !! r = Some r.
Proof. by induction 1. Qed.

Lemma chain_is_Some p n x r : chain p n x r -> is_Some (p !! x).
Proof. destruct 1; by eexists. Qed.

Lemma chain_avoid p n y r x m :
  chain p n y r -> chain p m x r -> (n < m)%nat -> chain (delete x p) n y r.
Proof.
  intros H. revert m. induction H as [y Hy|n y y' r Hy Hne H IH]; intros m Hx Hlt.
  - apply chain_root. rewrite lookup_delete_ne; [done|]. intros ->.
    inversion Hx; subst; [lia|congruence].
  - assert (y <> x).
    { intros ->. pose proof (chain_step p n x y' r Hy Hne H) as H'.
      destruct (chain_det _ _ _ _ _ _ H' Hx). lia. }
    eapply chain_step; [by rewrite lookup_delete_ne|done|]. eapply IH; [exact Hx|lia].
Qed.

Lemma chain_bound p n x r : chain p n x r -> (n < size p)%nat.
Proof.
  revert p x. induction n as [|n IH]; intros p x H.
  - inversion H as [? Hx|]; subst.
    destruct (decide (size p = 0%nat)) as [H0|]; [|lia].
    apply map_size_empty_inv in H0. subst. by rewrite lookup_empty in Hx.
  - inversion H as [|? ? y ? Hx Hne Hc]; subst.
    pose proof (chain_avoid p n y r x (S n) Hc H ltac:(lia)) as Hd.
    apply IH in Hd. rewrite (map_size_delete_Some x p) in Hd by by eexists.
    assert (size p <> 0)%nat; [|lia].
    intros H0. apply map_size_empty_inv in H0. subst. by rewrite lookup_empty in Hx.
Qed.

Lemma chain_compress p x r n y ry :
  repr p x r -> chain p n y ry -> repr (<[x := r]> p) y ry.
Proof.
  intros Hx H. induction H as [y Hy|n y z ry Hy Hne H IH].
  - destruct (decide (y = x)) as [->|Hyx].
    + assert (r = x) as ->. { destruct Hx as [m Hx]. inversion Hx; subst; [done|congruence]. }
      exists 0%nat. apply chain_root. by rewrite lookup_insert_eq.
    + exists 0%nat. apply chain_root. by rewrite lookup_insert_ne.
  - destruct IH as [n' IH]. destruct (decide (y = x)) as [->|Hyx].
    + assert (ry = r) as ->.
      { eapply repr_det; [|exact Hx]. exists (S n). by eapply chain_step. }
      assert (r <> x).
      { intros ->. apply chain_root_lookup in H. congruence. }
      exists 1%nat. eapply chain_step; [by rewrite lookup_insert_eq|done|].
      apply chain_root. rewrite lookup_insert_ne by done. by eapply chain_root_lookup.
    + exists (S n'). eapply chain_step; [by rewrite lookup_insert_ne|done|done].
Qed.

Lemma find_rec_chain n :
  forall fuel uf x r,
    chain (parent uf) n x r -> (n <= fuel)%nat ->
    fst (find_rec fuel uf x) = r
    /\ rank (snd (find_rec fuel uf x)) = rank uf
    /\ dom (parent (snd (find_rec fuel uf x))) = dom (parent uf)
    /\ (forall y ry, repr (parent uf) y ry -> repr (parent (snd (find_rec fuel uf x))) y ry).
Proof.
  induction n as [|n IH]; intros fuel uf x r H Hfuel.
  - inversion H as [? Hx|]; subst.
    assert (E : find_rec fuel uf r = (r, uf)).
    { destruct fuel; simpl; rewrite Hx; simpl; rewrite ?Hx; simpl;
        rewrite (bool_decide_eq_false_2 (r <> r)) by (intros Hn; by apply Hn);
        done. }
    rewrite E. done.
  - inversion H as [|? ? y ? Hx Hne Hc]; subst.
    destruct fuel as [|fuel]; [lia|].
    destruct (IH fuel uf y r Hc ltac:(lia)) as (Hr & Hrk & Hdom & Hpres).
    simpl. rewrite Hx. simpl. rewrite ?Hx. simpl. rewrite bool_decide_eq_true_2 by done.
    destruct (find_rec fuel uf y) as [r' uf'] eqn:E. simpl in *. subst r'.
    split; [done|]. split; [done|]. split.
    + rewrite dom_insert_L, Hdom. apply elem_of_dom_2 in Hx.
      apply set_eq. intros z. rewrite elem_of_union, elem_of_singleton.
      split; [intros [->|Hz]; done | intros Hz; by right].
    + intros z rz [m Hz]. destruct (Hpres z rz (ex_intro _ m Hz)) as [m' Hz'].
      eapply chain_compress; [|exact Hz']. apply Hpres. by exists (S n).
Qed.

Lemma find_known uf x r :
  repr (parent uf) x r ->
  fst (find uf x) = r
  /\ rank (snd (find uf x)) = rank uf
  /\ dom (parent (snd (find uf x))) = dom (parent uf)
  /\ (forall y ry, repr (parent uf) y ry -> repr (parent (snd (find uf x))) y ry).
Proof.
  intros [n H]. unfold find. apply (find_rec_chain n); [done|].
  apply chain_bound in H. lia.
Qed.

Lemma chain_insert_fresh p x n y ry :
  p !! x = None -> chain p n y ry -> chain (<[x := x]> p) n y ry.
Proof.
  intros Hx H. induction H as [y Hy|n y z ry Hy Hne H IH].
  - apply chain_root. rewrite lookup_insert_ne; [done|]. congruence.
  - eapply chain_step; [|done|done]. rewrite lookup_insert_ne; [done|]. congruence.
Qed.

Lemma find_fresh uf x :
  parent uf !! x = None ->
  find uf x = (x, {| parent := <[x := x]> (parent uf); rank := <[x := 0%nat]> (rank uf) |}).
Proof.
  intros Hx. unfold find. simpl. rewrite Hx. simpl. rewrite lookup_insert_eq. simpl.
  by rewrite (bool_decide_eq_false_2 (x <> x)) by (intros Hn; by apply Hn).
Qed.

(** What [find] guarantees on a well-formed forest, whether or not [x] is
    already a node. *)
Lemma find_spec uf x :
  uf_wf uf ->
  uf_wf (snd (find uf x))
  /\ dom (parent (snd (find uf x))) = {[x]} ∪ dom (parent uf)
  /\ repr (parent (snd (find uf x))) x (fst (find uf x))
  /\ (forall y ry, repr (parent uf) y ry -> repr (parent (snd (find uf x))) y ry).
Proof.
  intros Hwf. destruct (parent uf !! x) as [y|] eqn:Hx.
  - destruct (Hwf x) as [r Hr]; [by eexists|].
    destruct (find_known uf x r Hr) as (Hf & _ & Hdom & Hpres).
    split; [|split; [|split]].
    + intros z Hz. apply elem_of_dom in Hz. rewrite Hdom in Hz. apply elem_of_dom in Hz.
      destruct (Hwf z Hz) as [rz Hrz]. exists rz. by apply Hpres.
    + rewrite Hdom. apply elem_of_dom_2 in Hx. symmetry.
      apply set_eq. intros z. rewrite elem_of_union, elem_of_singleton.
      split; [intros [->|Hz]; done | intros Hz; by right].
    + rewrite Hf. by apply Hpres.
    + exact Hpres.
  - rewrite (find_fresh uf x Hx). unfold uf_wf. cbn [fst snd parent].
    assert (Hpres : forall y ry, repr (parent uf) y ry -> repr (<[x := x]> (parent uf)) y ry).
    { intros z rz [n Hz]. exists n. by apply chain_insert_fresh. }
    split; [|split; [|split]].
    + intros z Hz. destruct (decide (z = x)) as [->|Hne].
      * exists x, 0%nat. apply chain_root. by rewrite lookup_insert_eq.
      * rewrite lookup_insert_ne in Hz by done. destruct (Hwf z Hz) as [rz Hrz].
        exists rz. by apply Hpres.
    + by rewrite dom_insert_L.
    + exists 0%nat. apply chain_root. by rewrite lookup_insert_eq.
    + exact Hpres.
Qed.

Lemma same_set_sym uf a b : same_set uf a b -> same_set uf b a.
Proof. intros (r & H1 & H2). by exists r. Qed.

Lemma same_set_trans uf a b c : same_set uf a b -> same_set uf b c -> same_set uf a c.
Proof.
  intros (r & H1 & H2) (r' & H3 & H4). rewrite (repr_det _ _ _ _ H2 H3) in H1. by exists r'.
Qed.

Lemma repr_is_Some p x r : repr p x r -> is_Some (p !! x).
Proof. intros [n H]. by eapply chain_is_Some. Qed.

Lemma repr_root_lookup p x r : repr p x r -> p !! r = Some r.
Proof. intros [n H]. by eapply chain_root_lookup. Qed.

Lemma repr_self p r : p !! r = Some r -> repr p r r.
Proof. intros H. exists 0%nat. by apply chain_root. Qed.

Lemma find_same_inv uf x a b :
  uf_wf uf -> same_set (snd (find uf x)) a b -> same_set uf a b \/ (a = x /\ b = x).
Proof.
  intros Hwf (r & Ha & Hb).
  destruct (find_spec uf x Hwf) as (Hwf' & Hdom & Hx & Hpres).
  assert (Hcase : forall z, repr (parent (snd (find uf x))) z r ->
            repr (parent uf) z r \/ (z = x /\ parent uf !! x = None)).
  { intros z Hz. pose proof (repr_is_Some _ _ _ Hz) as Hs.
    apply elem_of_dom in Hs. rewrite Hdom, elem_of_union, elem_of_singleton in Hs.
    destruct (parent uf !! z) as [pz|] eqn:Ez.
    - left. destruct (Hwf z) as [rz Hrz]; [by eexists|].
      by rewrite (repr_det _ _ _ _ Hz (Hpres _ _ Hrz)).
    - right. destruct Hs as [->|Hs]; [done|]. apply elem_of_dom in Hs.
      rewrite Ez in Hs. by destruct Hs. }
  destruct (Hcase a Ha) as [Ha'|[-> Hnone]]; destruct (Hcase b Hb) as [Hb'|[-> Hnone']].
  - left. by exists r.
  - exfalso. rewrite (find_fresh uf x Hnone') in Hb. cbn [snd parent] in Hb.
    assert (r = x) as ->.
    { eapply repr_det; [exact Hb|]. apply repr_self. by rewrite lookup_insert_eq. }
    apply repr_root_lookup in Ha'. congruence.
  - exfalso. rewrite (find_fresh uf x Hnone) in Ha. cbn [snd parent] in Ha.
    assert (r = x) as ->.
    { eapply repr_det; [exact Ha|]. apply repr_self. by rewrite lookup_insert_eq. }
    apply repr_root_lookup in Hb'. congruence.
  - by right.
Qed.

Lemma chain_link p a0 b0 n y ry :
  p !! a0 = Some a0 -> p !! b0 = Some b0 -> a0 <> b0 ->
  chain p n y ry -> repr (<[b0 := a0]> p) y (if decide (ry = b0) then a0 else ry).
Proof.
  intros Ha Hb Hne H. induction H as [y Hy|n y z ry Hy Hyz H IH].
  - destruct (decide (y = b0)) as [->|Hyb].
    + exists 1%nat. eapply chain_step; [by rewrite lookup_insert_eq|done|].
      apply chain_root. by rewrite lookup_insert_ne.
    + apply repr_self. by rewrite lookup_insert_ne.
  - destruct IH as [n' IH]. exists (S n'). eapply chain_step; [|done|exact IH].
    rewrite lookup_insert_ne; [done|]. congruence.
Qed.

Lemma link_spec uf a0 b0 x y rk (R : relation nat) :
  Equivalence R -> uf_wf uf ->
  parent uf !! a0 = Some a0 -> parent uf !! b0 = Some b0 -> a0 <> b0 ->
  (repr (parent uf) x a0 /\ repr (parent uf) y b0
   \/ repr (parent uf) x b0 /\ repr (parent uf) y a0) ->
  R x y -> (forall a b, same_set uf a b -> R a b) ->
  let uf' := {| parent := <[b0 := a0]> (parent uf); rank := rk |} in
  uf_wf uf'
  /\ dom (parent uf') = dom (parent uf)
  /\ same_set uf' x y
  /\ (forall a b, same_set uf a b -> same_set uf' a b)
  /\ (forall a b, same_set uf' a b -> R a b).
Proof.
  intros HR Hwf Ha Hb Hne Hxy HRxy Hsub uf'.
  assert (Hlink : forall z rz, repr (parent uf) z rz ->
            repr (parent uf') z (if decide (rz = b0) then a0 else rz)).
  { intros z rz [n Hz]. by apply (chain_link _ _ _ n). }
  assert (Hdom : dom (parent uf') = dom (parent uf)).
  { unfold uf'. cbn [parent]. rewrite dom_insert_L. apply elem_of_dom_2 in Hb.
    apply set_eq. intros z. rewrite elem_of_union, elem_of_singleton.
    split; [intros [->|Hz]; done | intros Hz; by right]. }
  assert (Hroots : R a0 b0).
  { destruct Hxy as [[Hx Hy]|[Hx Hy]].
    - transitivity x; [symmetry; apply Hsub; exists a0; split; [done|by apply repr_self]|].
      transitivity y; [done|]. apply Hsub. exists b0. split; [done|by apply repr_self].
    - transitivity y; [symmetry; apply Hsub; exists a0; split; [done|by apply repr_self]|].
      transitivity x; [by symmetry|]. apply Hsub. exists b0. split; [done|by apply repr_self]. }
  split; [|split; [done|split; [|split]]].
  - intros z Hz. apply elem_of_dom in Hz. rewrite Hdom in Hz. apply elem_of_dom in Hz.
    destruct (Hwf z Hz) as [rz Hrz]. eexists. by apply Hlink.
  - exists a0. destruct Hxy as [[Hx Hy]|[Hx Hy]].
    + split; [|generalize (Hlink _ _ Hy); by rewrite decide_True].
      generalize (Hlink _ _ Hx). by rewrite decide_False.
    + split; [generalize (Hlink _ _ Hx); by rewrite decide_True|].
      generalize (Hlink _ _ Hy). by rewrite decide_False.
  - intros a b (r & H1 & H2). eexists. split; by apply Hlink.
  - intros a b (r & H1 & H2).
    assert (Hold : forall z, repr (parent uf') z r ->
              exists rz, repr (parent uf) z rz /\ r = if decide (rz = b0) then a0 else rz).
    { intros z Hz. pose proof (repr_is_Some _ _ _ Hz) as Hs.
      apply elem_of_dom in Hs. rewrite Hdom in Hs. apply elem_of_dom in Hs.
      destruct (Hwf z Hs) as [rz Hrz]. exists rz. split; [done|].
      eapply repr_det; [exact Hz|]. by apply Hlink. }
    destruct (Hold a H1) as (ra & Hra & Ea). destruct (Hold b H2) as (rb & Hrb & Eb).
    assert (Hto : forall z rz, repr (parent uf) z rz -> R z rz).
    { intros z rz Hz. apply Hsub. exists rz. split; [done|].
      apply repr_self. by eapply repr_root_lookup. }
    pose proof (Hto _ _ Hra) as HRa. pose proof (Hto _ _ Hrb) as HRb.
    transitivity ra; [done|]. transitivity rb; [|by symmetry].
    destruct (decide (ra = b0)) as [->|Hna]; destruct (decide (rb = b0)) as [->|Hnb];
      subst; try reflexivity; [by symmetry | done].
Qed.

Lemma union_spec uf x y (R : relation nat) :
  Equivalence R -> uf_wf uf -> R x y -> (forall a b, same_set uf a b -> R a b) ->
  uf_wf (union uf x y)
  /\ dom (parent (union uf x y)) = {[x]} ∪ ({[y]} ∪ dom (parent uf))
  /\ same_set (union uf x y) x y
  /\ (forall a b, same_set uf a b -> same_set (union uf x y) a b)
  /\ (forall a b, same_set (union uf x y) a b -> R a b).
Proof.
  intros HR Hwf HRxy Hsub. unfold union.
  destruct (find_spec uf x Hwf) as (Hwf1 & Hdom1 & Hx1 & Hpres1).
  pose proof (find_same_inv uf x) as Hinv1.
  destruct (find uf x) as [px uf1]. cbn [fst snd] in *.
  destruct (find_spec uf1 y Hwf1) as (Hwf2 & Hdom2 & Hy2 & Hpres2).
  pose proof (find_same_inv uf1 y) as Hinv2.
  destruct (find uf1 y) as [py uf2]. cbn [fst snd] in *.
  assert (Hx2 : repr (parent uf2) x px) by by apply Hpres2.
  assert (Hdom : dom (parent uf2) = {[x]} ∪ ({[y]} ∪ dom (parent uf))).
  { rewrite Hdom2, Hdom1. apply set_eq. intros z.
    rewrite !elem_of_union, !elem_of_singleton. tauto. }
  assert (Hmono : forall a b, same_set uf a b -> same_set uf2 a b).
  { intros a b (r & H1 & H2). exists r. split; by apply Hpres2, Hpres1. }
  assert (Hsub2 : forall a b, same_set uf2 a b -> R a b).
  { intros a b H. destruct (Hinv2 a b Hwf1 H) as [H1|[-> ->]]; [|reflexivity].
    destruct (Hinv1 a b Hwf H1) as [H0|[-> ->]]; [by apply Hsub | reflexivity]. }
  case_bool_decide as Heq.
  { subst py. split; [done|]. split; [done|]. split; [by exists px|]. split; done. }
  cbv zeta.
  assert (Hpx : parent uf2 !! px = Some px) by by eapply repr_root_lookup.
  assert (Hpy : parent uf2 !! py = Some py) by by eapply repr_root_lookup.
  destruct (_ <? _)%nat.
  - destruct (link_spec uf2 py px x y (rank uf2) R HR Hwf2 Hpy Hpx ltac:(auto)
                ltac:(right; done) HRxy Hsub2) as (W1 & W2 & W3 & W4 & W5).
    destruct (bool_decide _); cbn [parent];
      (split; [exact W1|]); (split; [by rewrite <- Hdom|]); (split; [exact W3|]);
      (split; [|exact W5]); intros a b H; by apply W4, Hmono.
  - destruct (link_spec uf2 px py x y (rank uf2) R HR Hwf2 Hpx Hpy ltac:(auto)
                ltac:(left; done) HRxy Hsub2) as (W1 & W2 & W3 & W4 & W5).
    destruct (bool_decide _); cbn [parent];
      (split; [exact W1|]); (split; [by rewrite <- Hdom|]); (split; [exact W3|]);
      (split; [|exact W5]); intros a b H; by apply W4, Hmono.
Qed.

Lemma uf_empty_wf : uf_wf uf_empty.
Proof. intros x Hx. cbn in Hx. rewrite lookup_empty in Hx. by destruct Hx. Qed.

Lemma two_nodes_wf : uf_wf two_nodes.
Proof. apply find_spec, find_spec, uf_empty_wf. Qed.

(** Property X9.  [UnionFind.find] on a well-formed forest: the recursion
    ends within its bound and returns the root of [x] (a second [find]
    returns it again), the forest stays well formed, and path compression
    changes no set; a node seen for the first time becomes a singleton. *)
Theorem find_correct uf x :
  uf_wf uf ->
  uf_wf (snd (find uf x))
  /\ repr (parent (snd (find uf x))) x (fst (find uf x))
  /\ fst (find (snd (find uf x)) x) = fst (find uf x)
  /\ forall a b, same_set (snd (find uf x)) a b <-> same_set uf a b \/ (a = x /\ b = x).
Proof.
  intros Hwf. destruct (find_spec uf x Hwf) as (Hwf' & Hdom & Hx & Hpres).
  split; [done|]. split; [done|]. split.
  { by destruct (find_known _ _ _ Hx) as (-> & _). }
  intros a b. split; [by apply find_same_inv|].
  intros [(r & Ha & Hb)|[-> ->]]; [exists r; split; by apply Hpres|].
  eexists. split; exact Hx.
Qed.

(** [find] on the empty forest. *)
Lemma find_correct_witness :
  uf_wf (snd (find uf_empty 0%nat))
  /\ repr (parent (snd (find uf_empty 0%nat))) 0%nat (fst (find uf_empty 0%nat))
  /\ fst (find (snd (find uf_empty 0%nat)) 0%nat) = fst (find uf_empty 0%nat)
  /\ forall a b, same_set (snd (find uf_empty 0%nat)) a b
                 <-> same_set uf_empty a b \/ (a = 0%nat /\ b = 0%nat).
Proof. apply (find_correct uf_empty 0%nat). exact uf_empty_wf. Defined.

Lemma merged_equiv uf x y : Equivalence (fun a b => a = b \/ merged uf x y a b).
Proof.
  split.
  - intros a. by left.
  - intros a b [->|H]; [by left|]. right. unfold merged in *.
    destruct H as [H|[[H1 H2]|[H1 H2]]];
      [left | right; right | right; left]; eauto using same_set_sym.
  - intros a b c [->|H1] [->|H2]; [by left|by right|by right|]. right.
    unfold merged in *.
    destruct H1 as [H1|[[H1 H1']|[H1 H1']]]; destruct H2 as [H2|[[H2 H2']|[H2 H2']]].
    + left. eauto using same_set_trans.
    + right; left. eauto using same_set_trans.
    + right; right. eauto using same_set_trans.
    + right; left. eauto using same_set_trans.
    + left. apply (same_set_trans _ _ x); [done|]. apply (same_set_trans _ _ y); [|done].
      apply same_set_sym. eauto using same_set_trans.
    + left. eauto using same_set_trans.
    + right; right. eauto using same_set_trans.
    + left. eauto using same_set_trans.
    + left. apply (same_set_trans _ _ y); [done|]. apply (same_set_trans _ _ x); [|done].
      apply same_set_sym. eauto using same_set_trans.
Qed.

(** Property X10.  [UnionFind.union] on two nodes of a well-formed forest
    merges the set of [x] with the set of [y] and nothing else: two nodes
    are in one set afterwards exactly when they were before, or one was with
    [x] and the other with [y]. *)
Theorem union_correct uf x y :
  uf_wf uf -> is_Some (parent uf !! x) -> is_Some (parent uf !! y) ->
  uf_wf (union uf x y)
  /\ dom (parent (union uf x y)) = dom (parent uf)
  /\ forall a b, same_set (union uf x y) a b <-> merged uf x y a b.
Proof.
  intros Hwf Hx Hy.
  destruct (Hwf x Hx) as [rx Hrx]. destruct (Hwf y Hy) as [ry Hry].
  assert (Hxx : same_set uf x x) by by exists rx.
  assert (Hyy : same_set uf y y) by by exists ry.
  destruct (union_spec uf x y (fun a b => a = b \/ merged uf x y a b) (merged_equiv uf x y) Hwf)
    as (Hwf' & Hdom & Hxy & Hmono & Hsub).
  { right. right. by left. }
  { intros a b H. right. by left. }
  assert (Hdom' : dom (parent (union uf x y)) = dom (parent uf)).
  { rewrite Hdom. apply elem_of_dom in Hx, Hy. apply set_eq. intros z.
    rewrite !elem_of_union, !elem_of_singleton.
    split; [intros [->|[->|?]]; done | intros ?; right; by right]. }
  split; [done|]. split; [done|]. intros a b. split.
  - intros H. destruct (Hsub a b H) as [->|Hm]; [|done]. left.
    destruct H as (r & Ha & _). apply repr_is_Some in Ha.
    apply elem_of_dom in Ha. rewrite Hdom' in Ha. apply elem_of_dom in Ha.
    destruct (Hwf b Ha) as [rb Hrb]. by exists rb.
  - intros [H|[[H1 H2]|[H1 H2]]].
    + by apply Hmono.
    + apply (same_set_trans _ _ x); [by apply Hmono|].
      apply (same_set_trans _ _ y); [done|by apply Hmono].
    + apply (same_set_trans _ _ y); [by apply Hmono|].
      apply (same_set_trans _ _ x); [by apply same_set_sym|by apply Hmono].
Qed.

(** [union] of two singletons. *)
Lemma union_correct_witness :
  uf_wf (union two_nodes 0%nat 1%nat)
  /\ dom (parent (union two_nodes 0%nat 1%nat)) = dom (parent two_nodes)
  /\ forall a b, same_set (union two_nodes 0%nat 1%nat) a b
                 <-> merged two_nodes 0%nat 1%nat a b.
Proof.
  apply (union_correct two_nodes 0%nat 1%nat).
  - exact two_nodes_wf.
  - vm_compute. by eexists.
  - vm_compute. by eexists.
Defined.

(** ** Situations *)

Lemma zmin_list_spec x l :
  zmin_list x l <= x /\ Forall (fun y => zmin_list x l <= y) l
  /\ (zmin_list x l = x \/ zmin_list x l ∈ l).
Proof.
  unfold zmin_list. revert x. induction l as [|y l IH]; intros x; simpl.
  - split; [lia|]. split; [constructor|by left].
  - destruct (IH (Z.min x y)) as (H1 & H2 & H3). split; [lia|]. split.
    + constructor; [lia|done].
    + destruct H3 as [H3|H3]; [|right; by right].
      remember (fold_left Z.min l (Z.min x y)) as m.
      destruct (Z.min_spec x y) as [[_ Hm]|[_ Hm]]; rewrite Hm in H3.
      * by left.
      * right. rewrite H3. by left.
Qed.

Lemma zmax_list_spec x l :
  x <= zmax_list x l /\ Forall (fun y => y <= zmax_list x l) l
  /\ (zmax_list x l = x \/ zmax_list x l ∈ l).
Proof.
  unfold zmax_list. revert x. induction l as [|y l IH]; intros x; simpl.
  - split; [lia|]. split; [constructor|by left].
  - destruct (IH (Z.max x y)) as (H1 & H2 & H3). split; [lia|]. split.
    + constructor; [lia|done].
    + destruct H3 as [H3|H3]; [|right; by right].
      remember (fold_left Z.max l (Z.max x y)) as m.
      destruct (Z.max_spec x y) as [[_ Hm]|[_ Hm]]; rewrite Hm in H3.
      * right. rewrite H3. by left.
      * by left.
Qed.

Lemma create_situation_window ep0 rest :
  exists s,
    _create_situation (ep0 :: rest) = Some s
    /\ Situation.raw_episodes s = ep0 :: rest
    /\ Forall (fun ep => w_start (Situation.window s) <= Episode.start ep
                         /\ Episode.end_ ep <= w_end (Situation.window s)) (ep0 :: rest)
    /\ (exists ep, ep ∈ ep0 :: rest /\ Episode.start ep = w_start (Situation.window s))
    /\ (exists ep, ep ∈ ep0 :: rest /\ Episode.end_ ep = w_end (Situation.window s)).
Proof.
  eexists. split; [reflexivity|].
  cbn [Situation.raw_episodes Situation.window w_start w_end].
  destruct (zmin_list_spec (Episode.start ep0) (map Episode.start rest)) as (Hm1 & Hm2 & Hm3).
  destruct (zmax_list_spec (Episode.end_ ep0) (map Episode.end_ rest)) as (HM1 & HM2 & HM3).
  split; [done|]. split.
  { constructor; [lia|]. apply Forall_forall. intros ep Hin. split.
    - rewrite Forall_forall in Hm2. apply Hm2. apply list_elem_of_fmap. by exists ep.
    - rewrite Forall_forall in HM2. apply HM2. apply list_elem_of_fmap. by exists ep. }
  split.
  { destruct Hm3 as [->|Hin]; [exists ep0; split; [by left|done]|].
    apply list_elem_of_fmap in Hin as (ep & -> & Hin). exists ep. split; [by right|done]. }
  destruct HM3 as [->|Hin]; [exists ep0; split; [by left|done]|].
  apply list_elem_of_fmap in Hin as (ep & -> & Hin). exists ep. split; [by right|done].
Qed.




Lemma group_by_root_perm uf indexed :
  forall groups,
    Forall (fun g : nat * list Episode.t => snd g <> []) groups ->
    Forall (fun g : nat * list Episode.t => snd g <> []) (group_by_root uf indexed groups)
    /\ flat_map snd (group_by_root uf indexed groups)
       ≡ₚ flat_map snd groups ++ map snd indexed.
Proof.
  revert uf. induction indexed as [|[i ep] indexed IH]; intros uf groups Hne; simpl.
  - by rewrite app_nil_r.
  - destruct (find uf i) as [root uf'].
    destruct (IH uf' (group_append groups root ep)) as [H1 H2].
    { clear IH. induction Hne as [|[k vs] groups Hv Hne IHg]; simpl.
      - by repeat constructor.
      - destruct (decide (k = root)); constructor; try done.
        simpl. intros Hnil. by apply app_eq_nil in Hnil as [_ ?]. }
    split; [exact H1|]. etrans; [exact H2|].
    rewrite group_append_perm. simpl. apply Permutation_middle.
Qed.

Lemma enumerate_snd {A} (l : list A) : map snd (enumerate l) = l.
Proof.
  unfold enumerate. generalize 0%nat. induction l as [|x l IH]; intros n; simpl; [done|].
  by rewrite IH.
Qed.







Lemma fold_left_invariant {A B} (P : A -> Prop) (f : A -> B -> A) (l : list B) (a : A) :
  P a -> (forall a b, b ∈ l -> P a -> P (f a b)) -> P (fold_left f l a).
Proof.
  revert a. induction l as [|b l IH]; intros a Ha Hstep; simpl; [done|].
  apply IH; [apply Hstep; [by left|done]|]. intros a' b' Hb'. apply Hstep. by right.
Qed.



Section Components.
Context (self : Engine) (episodes : list Episode.t).















End Components.

(** ** Temporal spread and bins *)

Lemma pad_step_succ k : pad_step (S k) = pad_step k * 2.
Proof. unfold pad_step. rewrite Nat2Z.inj_succ, Z.pow_succ_r by lia. lia. Qed.

Lemma pad_step_pos k : 0 < pad_step k.
Proof.
  unfold pad_step, PAD_MS_START.
  assert (0 < 2 ^ Z.of_nat k) by (apply Z.pow_pos_nonneg; lia). lia.
Qed.

Lemma pad_step_mono j k : (j <= k)%nat -> pad_step j <= pad_step k.
Proof.
  intros H. unfold pad_step, PAD_MS_START.
  assert (2 ^ Z.of_nat j <= 2 ^ Z.of_nat k) by (apply Z.pow_le_mono_r; lia). lia.
Qed.

Lemma pad_step_max k : pad_step k <= MAX_PAD_MS <-> (k < 4)%nat.
Proof.
  split.
  - intros H. destruct (le_lt_dec 4 k) as [Hk|Hk]; [|done].
    pose proof (pad_step_mono 4 k Hk) as Hm.
    assert (pad_step 4 = 960000) by reflexivity. unfold MAX_PAD_MS in H. lia.
  - intros H. pose proof (pad_step_mono k 3 ltac:(lia)) as Hm.
    assert (pad_step 3 = 480000) by reflexivity. unfold MAX_PAD_MS. lia.
Qed.

Lemma spread_loop_padding fuel self alerts sit k0 s' :
  MIN_SITUATION_MS <= w_end (Situation.window sit) - w_start (Situation.window sit) ->
  spread_loop fuel self (relevant_to sit alerts) (w_start (Situation.window sit))
              (w_end (Situation.window sit)) (pad_step k0) sit = Some s' ->
  (exists msg, s' = mark_insufficient sit msg
     /\ forall k, (k0 <= k)%nat -> pad_step k <= MAX_PAD_MS ->
                  series_in_padding sit alerts (pad_step k) < MIN_BINS)
  \/ (exists k, (k0 <= k)%nat /\ pad_step k <= MAX_PAD_MS
        /\ (forall j, (k0 <= j < k)%nat -> series_in_padding sit alerts (pad_step j) < MIN_BINS)
        /\ MIN_BINS <= series_in_padding sit alerts (pad_step k)
        /\ s' = store_spread sit (pad_step k) BIN_SIZE_S_DEFAULT
                  (_create_bins self (rehydrated sit alerts (pad_step k))
                     (w_start (Situation.window sit) - pad_step k)
                     (w_end (Situation.window sit) + pad_step k) BIN_SIZE_S_DEFAULT)
                  {| w_start := w_start (Situation.window sit) - pad_step k;
                     w_end := w_end (Situation.window sit) + pad_step k |}
                  (rehydrated sit alerts (pad_step k))).
Proof.
  intros Hdur. revert k0. induction fuel as [|fuel IH]; intros k0; simpl; [done|].
  assert (Hnext : series_in_padding sit alerts (pad_step k0) < MIN_BINS ->
    spread_loop fuel self (relevant_to sit alerts) (w_start (Situation.window sit))
      (w_end (Situation.window sit)) (pad_step k0 * 2) sit = Some s' ->
    (exists msg, s' = mark_insufficient sit msg
       /\ forall k, (k0 <= k)%nat -> pad_step k <= MAX_PAD_MS ->
                    series_in_padding sit alerts (pad_step k) < MIN_BINS)
    \/ (exists k, (k0 <= k)%nat /\ pad_step k <= MAX_PAD_MS
          /\ (forall j, (k0 <= j < k)%nat ->
                        series_in_padding sit alerts (pad_step j) < MIN_BINS)
          /\ MIN_BINS <= series_in_padding sit alerts (pad_step k)
          /\ s' = store_spread sit (pad_step k) BIN_SIZE_S_DEFAULT
                    (_create_bins self (rehydrated sit alerts (pad_step k))
                       (w_start (Situation.window sit) - pad_step k)
                       (w_end (Situation.window sit) + pad_step k) BIN_SIZE_S_DEFAULT)
                    {| w_start := w_start (Situation.window sit) - pad_step k;
                       w_end := w_end (Situation.window sit) + pad_step k |}
                    (rehydrated sit alerts (pad_step k)))).
  { intros Hlt E. rewrite <- pad_step_succ in E.
    destruct (IH _ E) as [(msg & -> & Hall) | (k & Hk & Hmax & Hbelow & Hk3 & ->)].
    - left. exists msg. split; [done|]. intros k Hk Hmax.
      destruct (decide (k = k0)) as [->|]; [done|]. apply Hall; [lia|done].
    - right. exists k. split; [lia|]. split; [done|]. split; [|done].
      intros j Hj. destruct (decide (j = k0)) as [->|]; [done|]. apply Hbelow. lia. }
  destruct (Z.leb_spec (pad_step k0) MAX_PAD_MS) as [Hle|Hgt].
  2: { intros [= <-]. left. eexists. split; [done|]. intros k Hk Hmax.
       pose proof (pad_step_mono _ _ Hk). lia. }
  fold (rehydrated sit alerts (pad_step k0)).
  assert (Hwin : Forall (in_window (w_start (Situation.window sit) - pad_step k0)
                                   (w_end (Situation.window sit) + pad_step k0))
                        (rehydrated sit alerts (pad_step k0))).
  { apply Forall_forall. intros a Ha. unfold rehydrated in Ha.
    by apply list_elem_of_filter in Ha as [? _]. }
  destruct (rehydrated sit alerts (pad_step k0)) as [|a0 reh'] eqn:Er.
  { apply Hnext. unfold series_in_padding. rewrite Er. done. }
  rewrite <- Er in *.
  rewrite !create_bins_count by (done || unfold BIN_SIZE_S_FALLBACK; lia).
  fold (series_in_padding sit alerts (pad_step k0)).
  destruct (Z.ltb_spec (series_in_padding sit alerts (pad_step k0)) MIN_BINS) as [Hlt|Hge].
  - destruct (Z.leb_spec MIN_BINS (series_in_padding sit alerts (pad_step k0))); [lia|].
    simpl. by apply Hnext.
  - destruct (Z.leb_spec MIN_BINS (series_in_padding sit alerts (pad_step k0))); [|lia].
    pose proof (pad_step_pos k0).
    destruct (Z.leb_spec MIN_SITUATION_MS
                (w_end (Situation.window sit) + pad_step k0
                 - (w_start (Situation.window sit) - pad_step k0))); [|lia].
    simpl. intros [= <-]. right. exists k0. split; [lia|]. split; [done|].
    split; [intros j Hj; lia|]. split; [done|]. by rewrite Er.
Qed.

(** Property X15.  [_apply_temporal_spread] marks a situation insufficient
    when it is shorter than [MIN_SITUATION_MS] or when none of the paddings
    60, 120, 240, 480 s rehydrates alerts of [MIN_BINS] fingerprints;
    otherwise it stores the first such padding, one-second bins, the padded
    window and the alerts rehydrated at that padding. *)
Theorem temporal_spread_padding self alerts sit :
  (exists msg,
      _apply_temporal_spread self alerts sit = mark_insufficient sit msg
      /\ (w_end (Situation.window sit) - w_start (Situation.window sit) < MIN_SITUATION_MS
          \/ forall k, (k < 4)%nat ->
                       series_in_padding sit alerts (pad_step k) < MIN_BINS))
  \/ (exists k,
         (k < 4)%nat
         /\ MIN_SITUATION_MS
            <= w_end (Situation.window sit) - w_start (Situation.window sit)
         /\ (forall j, (j < k)%nat -> series_in_padding sit alerts (pad_step j) < MIN_BINS)
         /\ MIN_BINS <= series_in_padding sit alerts (pad_step k)
         /\ _apply_temporal_spread self alerts sit
            = store_spread sit (pad_step k) BIN_SIZE_S_DEFAULT
                (_create_bins self (rehydrated sit alerts (pad_step k))
                   (w_start (Situation.window sit) - pad_step k)
                   (w_end (Situation.window sit) + pad_step k) BIN_SIZE_S_DEFAULT)
                {| w_start := w_start (Situation.window sit) - pad_step k;
                   w_end := w_end (Situation.window sit) + pad_step k |}
                (rehydrated sit alerts (pad_step k))).
Proof.
  unfold _apply_temporal_spread.
  destruct (Z.ltb_spec (w_end (Situation.window sit) - w_start (Situation.window sit))
                       MIN_SITUATION_MS) as [Hshort|Hdur].
  { left. eexists. split; [done|]. by left. }
  destruct (spread_loop _ _ _ _ _ _ _) as [s'|] eqn:E.
  2: { exfalso. revert E. apply (spread_loop_total 7); [done|]. by vm_compute. }
  change PAD_MS_START with (pad_step 0) in E.
  destruct (spread_loop_padding _ _ _ _ _ _ Hdur E)
    as [(msg & -> & Hall) | (k & _ & Hmax & Hbelow & Hk & ->)].
  - left. exists msg. split; [done|]. right. intros k Hk. apply Hall; [lia|].
    by apply pad_step_max.
  - right. exists k. split; [by apply pad_step_max|]. split; [done|].
    split; [intros j Hj; apply Hbelow; lia|]. done.
Qed.

Lemma bins_incr_map bins k i :
  NoDup (map fst bins) ->
  bins_incr bins k i
  = map (fun '(k', v) => if decide (k' = k) then (k', alter (fun count => count + 1) i v)
                         else (k', v)) bins.
Proof.
  induction bins as [|[k' v] bins IH]; simpl; intros Hnd; [done|].
  apply NoDup_cons in Hnd as [Hnotin Hnd].
  destruct (decide (k' = k)) as [->|Hne]; [|by rewrite IH].
  f_equal. clear IH Hnd. induction bins as [|[k'' v''] bins IH]; simpl; [done|].
  simpl in Hnotin. apply not_elem_of_cons in Hnotin as [Hne Hnotin].
  destruct (decide (k'' = k)); [congruence|]. by rewrite <- IH.
Qed.

Lemma bin_count_snoc alerts a start_ms bin_size_ms k i :
  bin_count (alerts ++ [a]) start_ms bin_size_ms k i
  = bin_count alerts start_ms bin_size_ms k i
    + (if decide (Alert.fingerprint a = k
                  /\ int_div (Alert.ts a - start_ms) bin_size_ms = Z.of_nat i)
       then 1 else 0).
Proof.
  unfold bin_count. rewrite filter_app, length_app, Nat2Z.inj_add. f_equal.
  rewrite filter_cons, filter_nil. by destruct (decide _).
Qed.

Lemma create_bins_content self alerts start_ms end_ms bin_size_s :
  map fst (_create_bins self alerts start_ms end_ms bin_size_s)
  = set_iter self (map Alert.fingerprint alerts)
  /\ Forall
       (fun '(series_key, series_bins) =>
          Z.of_nat (length series_bins)
          = Z.max 0 (int_div (end_ms - start_ms) (bin_size_s * 1000) + 1)
          /\ forall i count,
               series_bins !! i = Some count ->
               count = bin_count alerts start_ms (bin_size_s * 1000) series_key i)
       (_create_bins self alerts start_ms end_ms bin_size_s).
Proof.
  unfold _create_bins. cbv zeta.
  set (bin_size_ms := bin_size_s * 1000).
  set (num_bins := int_div (end_ms - start_ms) bin_size_ms + 1).
  set (keys := set_iter self (map Alert.fingerprint alerts)).
  assert (Hnd : NoDup keys) by apply set_iter_NoDup.
  clearbody keys.
  match goal with
  | |- context [fold_left ?f alerts ?z] => set (step := f); set (zero := z)
  end.
  induction alerts as [|a alerts IH] using rev_ind.
  - simpl. unfold zero. rewrite map_map. simpl. split; [apply map_id|].
    apply Forall_forall. intros [k v] (k' & [= -> ->] & _)%list_elem_of_fmap.
    split; [rewrite repeat_length; lia|].
    intros i count Hi. apply list_elem_of_lookup_2, list_elem_of_In, repeat_spec in Hi.
    by subst.
  - rewrite fold_left_app. simpl. destruct IH as [Hk IH].
    set (cur := fold_left step alerts zero) in *. clearbody cur. unfold step. cbv zeta.
    destruct ((0 <=? int_div (Alert.ts a - start_ms) bin_size_ms)
              && (int_div (Alert.ts a - start_ms) bin_size_ms <? num_bins)) eqn:Hin.
    + apply andb_true_iff in Hin as [H0%Z.leb_le Hn%Z.ltb_lt].
      rewrite bins_incr_map by (by rewrite Hk). split.
      { rewrite map_map, <- Hk. apply map_ext. intros [k v]. by destruct (decide _). }
      apply Forall_fmap. eapply Forall_impl; [exact IH|].
      intros [k v] [Hlen Hv]. simpl.
      destruct (decide (k = Alert.fingerprint a)) as [->|Hne].
      * split; [by rewrite length_alter|]. intros i count Hi.
        rewrite bin_count_snoc.
        destruct (decide (i = Z.to_nat (int_div (Alert.ts a - start_ms) bin_size_ms)))
          as [->|Hi'].
        -- rewrite list_lookup_alter_eq in Hi.
           destruct (v !! _) as [c|] eqn:Hc; [|done]. simpl in Hi. injection Hi as <-.
           rewrite (Hv _ _ Hc). destruct (decide _) as [_|Hn']; [done|].
           exfalso. apply Hn'. split; [done|]. lia.
        -- rewrite list_lookup_alter_ne in Hi by done. rewrite (Hv _ _ Hi).
           destruct (decide _) as [[_ Hx]|_]; [|lia]. exfalso. apply Hi'. lia.
      * split; [done|]. intros i count Hi. rewrite bin_count_snoc, (Hv _ _ Hi).
        destruct (decide _) as [[Hx _]|_]; [congruence|lia].
    + split; [done|]. eapply Forall_impl; [exact IH|]. intros [k v] [Hlen Hv].
      split; [done|]. intros i count Hi. rewrite bin_count_snoc, (Hv _ _ Hi).
      destruct (decide _) as [[_ Hx]|_]; [|lia]. exfalso.
      apply lookup_lt_Some in Hi.
      apply andb_false_iff in Hin as [Hin%Z.leb_gt|Hin%Z.ltb_ge]; lia.
Qed.

(** Property X16.  [_create_bins] has one vector per fingerprint, in the
    iteration order of the key set, each with
    [int((end - start) / bin_size_ms) + 1] bins (none if that is negative),
    and bin [i] of a series counts exactly the alerts of that fingerprint
    whose bin index is [i]. *)
Theorem create_bins_counts self alerts start_ms end_ms bin_size_s :
  bin_size_s <> 0 ->
  map fst (_create_bins self alerts start_ms end_ms bin_size_s)
  = set_iter self (map Alert.fingerprint alerts)
  /\ Forall
       (fun '(series_key, series_bins) =>
          Z.of_nat (length series_bins)
          = Z.max 0 (int_div (end_ms - start_ms) (bin_size_s * 1000) + 1)
          /\ forall i count,
               series_bins !! i = Some count ->
               count = bin_count alerts start_ms (bin_size_s * 1000) series_key i)
       (_create_bins self alerts start_ms end_ms bin_size_s).
Proof. intros _. apply create_bins_content. Qed.

(** Two alerts binned over a window of two seconds. *)
Lemma create_bins_counts_witness :
  map fst (_create_bins first_seen_engine [scenario_alert 0; scenario_alert 1500] 0 2000 1)
  = set_iter first_seen_engine (map Alert.fingerprint [scenario_alert 0; scenario_alert 1500])
  /\ Forall
       (fun '(series_key, series_bins) =>
          Z.of_nat (length series_bins) = Z.max 0 (int_div (2000 - 0) (1 * 1000) + 1)
          /\ forall i count,
               series_bins !! i = Some count ->
               count = bin_count [scenario_alert 0; scenario_alert 1500] 0 (1 * 1000)
                                 series_key i)
       (_create_bins first_seen_engine [scenario_alert 0; scenario_alert 1500] 0 2000 1).
Proof.
  apply (create_bins_counts first_seen_engine [scenario_alert 0; scenario_alert 1500] 0 2000 1).
  lia.
Defined.

(** Property X17.  After a successful spread the bin matrix has at least
    three series, under distinct keys, and all its vectors have the same
    length, the number of one-second bins of the padded window, which is at
    least 131: the length guards of the three kernels never reject a pair
    of such a matrix. *)
Theorem spread_bins_shape self alerts sit :
  (exists msg, _apply_temporal_spread self alerts sit = mark_insufficient sit msg)
  \/ (exists bins n,
         Situation.bins (_apply_temporal_spread self alerts sit) = Some bins
         /\ Situation.insufficient_temporal_spread (_apply_temporal_spread self alerts sit)
            = Situation.insufficient_temporal_spread sit
         /\ (3 <= length bins)%nat
         /\ NoDup (map fst bins)
         /\ n = (w_end (Situation.window sit) - w_start (Situation.window sit)
                 + 2 * Situation.pad_ms_used (_apply_temporal_spread self alerts sit))
                ÷ 1000 + 1
         /\ 131 <= n
         /\ Forall (fun '(_, series_bins) => Z.of_nat (length series_bins) = n) bins).
Proof.
  unfold _apply_temporal_spread.
  destruct (Z.ltb_spec (w_end (Situation.window sit) - w_start (Situation.window sit))
                       MIN_SITUATION_MS) as [Hshort|Hdur].
  { left. by eexists. }
  destruct (spread_loop _ _ _ _ _ _ _) as [s'|] eqn:E.
  2: { exfalso. revert E. apply (spread_loop_total 7); [done|]. by vm_compute. }
  change PAD_MS_START with (pad_step 0) in E.
  destruct (spread_loop_padding _ _ _ _ _ _ Hdur E)
    as [(msg & -> & _) | (k & _ & Hmax & _ & Hk & ->)]; [left; by eexists|].
  right.
  set (start := w_start (Situation.window sit)) in *.
  set (end_ := w_end (Situation.window sit)) in *.
  destruct (create_bins_content self (rehydrated sit alerts (pad_step k))
              (start - pad_step k) (end_ + pad_step k) BIN_SIZE_S_DEFAULT) as [Hkeys Hshape].
  eexists _, _. cbn [store_spread Situation.bins Situation.insufficient_temporal_spread
                     Situation.pad_ms_used].
  split; [reflexivity|]. split; [reflexivity|].
  assert (Hlen : length (_create_bins self (rehydrated sit alerts (pad_step k))
                           (start - pad_step k) (end_ + pad_step k) BIN_SIZE_S_DEFAULT)
                 = length (distinct (map Alert.fingerprint (rehydrated sit alerts (pad_step k))))).
  { by rewrite <- (length_map fst), Hkeys, set_iter_length. }
  split. { rewrite Hlen. unfold series_in_padding, MIN_BINS in Hk. lia. }
  split. { rewrite Hkeys. apply set_iter_NoDup. }
  split; [reflexivity|].
  pose proof (pad_step_mono 0 k ltac:(lia)) as Hpad.
  change (pad_step 0) with 60000 in Hpad. unfold MIN_SITUATION_MS in Hdur.
  assert (Hq : 130 <= (end_ - start + 2 * pad_step k) ÷ 1000).
  { apply Z.quot_le_lower_bound; lia. }
  split; [lia|].
  eapply Forall_impl; [exact Hshape|]. intros [key v] [Hv _].
  rewrite Hv. unfold int_div, BIN_SIZE_S_DEFAULT. change (1 * 1000) with 1000.
  replace (end_ + pad_step k - (start - pad_step k)) with (end_ - start + 2 * pad_step k) by lia.
  lia.
Qed.

(** ** Correlation records *)

Lemma zsum_nonneg l : Forall (Z.le 0) l -> 0 <= zsum l.
Proof.
  unfold zsum.
  assert (Hgen : forall acc, Forall (Z.le 0) l -> 0 <= acc -> 0 <= fold_left Z.add l acc).
  { induction l as [|x l IH]; intros acc Hall Hacc; simpl; [done|].
    apply Forall_cons in Hall as [Hx Hall]. apply IH; [done|lia]. }
  intros H. by apply Hgen.
Qed.

Lemma leadlag_scan_lag self impulse_a impulse_b :
  leadlag_scan self impulse_a impulse_b = (0%float, 0)
  \/ 0 <= snd (leadlag_scan self impulse_a impulse_b)
          <= Z.min (max_lag (args self)) (Z.of_nat (length impulse_a) - 1).
Proof.
  unfold leadlag_scan. cbv zeta.
  set (m := Z.min (max_lag (args self)) (Z.of_nat (length impulse_a) - 1)).
  apply (fold_left_invariant
           (fun r : float * Z => r = (0%float, 0) \/ 0 <= snd r <= m)); [by left|].
  intros [best_score best_lag] lag Hlag Hr.
  apply elem_of_seq in Hlag.
  destruct (if bool_decide (lag = 0%nat) then _ else _) as [[aligned total_a] total_b].
  destruct (_ || _); [done|].
  destruct (PrimFloat.ltb _ _); [|done].
  right. simpl. lia.
Qed.

Lemma leadlag_correlation_bounds self sa sb lag_ms score :
  _leadlag_correlation self sa sb = Some (lag_ms, score) ->
  0 <= lag_ms <= max_lag (args self) * 1000
  /\ lag_ms <= (Z.of_nat (length sa) - 1) * 1000
  /\ (1000 | lag_ms)
  /\ PrimFloat.leb 0.3%float score = true.
Proof.
  intros H. destruct (leadlag_correlation_some _ _ _ _ _ H) as (best_lag & Hscan & -> & Hs & _).
  destruct (leadlag_scan_lag self (binarize sa) (binarize sb)) as [H0|Hr].
  - rewrite Hscan in H0. injection H0 as -> ->. exfalso. clear -Hs.
    vm_compute in Hs. discriminate Hs.
  - rewrite Hscan in Hr. simpl in Hr. unfold binarize in Hr. rewrite length_map in Hr.
    split; [lia|]. split; [lia|]. split; [|done]. by exists best_lag.
Qed.

Lemma burst_correlation_bounds self sa sb aligned score :
  _burst_correlation self sa sb = Some (aligned, score) ->
  min_support (args self) <= aligned /\ 1 <= aligned
  /\ PrimFloat.leb 0.2%float score = true.
Proof.
  unfold _burst_correlation. destruct (_ || _); [done|].
  destruct (bursts_of sa) as [|ba bursts_a] eqn:Ea; [done|].
  destruct (bursts_of sb) as [|bb bursts_b] eqn:Eb; [done|].
  set (al := fold_left _ (ba :: bursts_a) 0).
  assert (Hal : 0 <= al).
  { apply (fold_left_invariant (fun x => 0 <= x)); [done|].
    intros a b _ Ha. destruct (existsb _ _); lia. }
  destruct (Z.ltb_spec al (min_support (args self))) as [|Hms]; [done|].
  set (sc := PrimFloat.div _ _).
  destruct (PrimFloat.leb 0.2%float sc) eqn:Hs; [|done].
  intros [= <- <-]. split; [done|]. split; [|done].
  destruct (decide (al = 0)) as [H0|]; [|lia]. exfalso.
  unfold sc in Hs. rewrite H0 in Hs. clear -Hs.
  (* 0 / sqrt(n) is +0 or NaN, never >= 0.2 *)
  revert Hs. generalize (PrimFloat.sqrt
     (float_of_Z (Z.of_nat (length (ba :: bursts_a)) * Z.of_nat (length (bb :: bursts_b))))).
  intros d Hs. change (float_of_Z 0) with 0%float in Hs.
  rewrite FloatAxioms.leb_spec, FloatAxioms.div_spec in Hs.
  destruct (Prim2SF d) as [s|s| |s m e]; try destruct s; vm_compute in Hs; discriminate Hs.
Qed.

Lemma pmi_correlation_bounds self sa sb pm_ratio co_count :
  _pmi_correlation self sa sb = Some (pm_ratio, co_count) ->
  min_support (args self) <= co_count /\ 0 <= co_count
  /\ PrimFloat.leb 2%float pm_ratio = true.
Proof.
  unfold _pmi_correlation. destruct (_ || _); [done|]. cbv zeta.
  set (co := zsum _).
  assert (Hco : 0 <= co).
  { apply zsum_nonneg, Forall_forall. intros x Hx.
    apply list_elem_of_fmap in Hx as ([a b] & -> & _). destruct (_ && _); lia. }
  destruct (Z.ltb_spec co (min_support (args self))); [done|].
  destruct (_ || _); [done|].
  match goal with
  | |- context [PrimFloat.leb 2%float ?r] => destruct (PrimFloat.leb 2%float r) eqn:Hs
  end; [|done].
  intros [= <- <-]. split; [lia|]. split; [lia|done].
Qed.

Lemma pair_records_pass self sit bins a b :
  Forall (fun r => metrics_pass self (method r) (metrics r)
                   /\ c_situation_id r = Situation.situation_id sit
                   /\ c_window r = Situation.padded_window sit
                   /\ resource_ids_a r = _get_resource_ids_for_series self sit (series_a r)
                   /\ resource_ids_b r = _get_resource_ids_for_series self sit (series_b r))
         (pair_records self sit bins (a, b)).
Proof.
  unfold pair_records, correlate_pair.
  pose proof (burst_correlation_bounds self (bins_get bins a) (bins_get bins b)) as Hb.
  pose proof (pmi_correlation_bounds self (bins_get bins a) (bins_get bins b)) as Hp.
  pose proof (leadlag_correlation_bounds self (bins_get bins a) (bins_get bins b)) as Hl.
  destruct (_burst_correlation _ _ _) as [[aligned bscore]|];
    destruct (_pmi_correlation _ _ _) as [[ratio co]|];
    destruct (_leadlag_correlation _ _ _) as [[lag lscore]|];
    simpl;
    try (specialize (Hb _ _ eq_refl));
    try (specialize (Hp _ _ eq_refl));
    try (specialize (Hl _ _ eq_refl));
    repeat (constructor; [simpl; tauto|]); constructor.
Qed.

(** Property X18.  Every record of [_run_correlations] has passed the
    thresholds of its method (burst: at least [min_support] and at least one
    aligned burst, score at least 0.2; PMI: co-occurrence count at least
    [min_support], ratio at least 2, i.e. PMI at least 1; lead-lag: a
    whole number of seconds between 0 and [max_lag], score at least 0.3),
    and carries the situation's id, its padded window and the resource ids
    of its two series. *)
Theorem correlation_thresholds self sit :
  Forall (fun r => metrics_pass self (method r) (metrics r)
                   /\ c_situation_id r = Situation.situation_id sit
                   /\ c_window r = Situation.padded_window sit
                   /\ resource_ids_a r = _get_resource_ids_for_series self sit (series_a r)
                   /\ resource_ids_b r = _get_resource_ids_for_series self sit (series_b r))
         (_run_correlations self sit).
Proof.
  rewrite run_correlations_pairs. apply Forall_forall. intros r Hin.
  apply list_elem_of_In, in_flat_map in Hin as ([a b] & _ & Hin).
  apply list_elem_of_In in Hin.
  pose proof (pair_records_pass self sit (default [] (Situation.bins sit)) a b) as H.
  rewrite Forall_forall in H. by apply H.
Qed.

(** Property X19.  [_get_resource_ids_for_series] returns at most 10
    distinct resource ids, each a resource id of an episode of the situation
    with the series' fingerprint. *)
Theorem resource_ids_for_series_spec self sit series_key :
  (length (_get_resource_ids_for_series self sit series_key) <= 10)%nat
  /\ NoDup (_get_resource_ids_for_series self sit series_key)
  /\ Forall (fun resource_id =>
               exists ep, ep ∈ Situation.raw_episodes sit
                          /\ Episode.fingerprint ep = series_key
                          /\ resource_id ∈ Episode.resource_ids ep)
            (_get_resource_ids_for_series self sit series_key).
Proof.
  unfold _get_resource_ids_for_series. cbv zeta. split; [apply firstn_le_length|]. split.
  - eapply sublist_NoDup; [apply set_iter_NoDup | apply sublist_take].
  - apply Forall_forall. intros rid Hin.
    pose proof (elem_of_sublist _ _ _ Hin (sublist_take _ _)) as Hin'.
    apply set_iter_elem_of, list_elem_of_In, in_flat_map in Hin' as (ep & Hep & Hr).
    exists ep. split; [by apply list_elem_of_In|].
    destruct (bool_decide_reflect (Episode.fingerprint ep = series_key)); [|done].
    split; [done|by apply list_elem_of_In].
Qed.

Lemma combinations2_length {A} (l : list A) :
  (2 * length (combinations2 l) = length l * (length l - 1))%nat.
Proof.
  induction l as [|x l IH]; simpl; [done|].
  rewrite length_app, length_map. nia.
Qed.

Lemma pair_records_length self sit bins p : (length (pair_records self sit bins p) <= 3)%nat.
Proof.
  unfold pair_records, correlate_pair. destruct p as [a b].
  destruct (_burst_correlation _ _ _) as [[? ?]|];
    destruct (_pmi_correlation _ _ _) as [[? ?]|];
    destruct (_leadlag_correlation _ _ _) as [[? ?]|]; simpl; lia.
Qed.

Lemma flat_map_length_le {A B} (f : A -> list B) (n : nat) (l : list A) :
  (forall x, length (f x) <= n)%nat -> (length (flat_map f l) <= n * length l)%nat.
Proof.
  intros Hf. induction l as [|x l IH]; simpl; [lia|].
  rewrite length_app. specialize (Hf x). lia.
Qed.

(** Property X20.  The guards of [_run_correlations]: at most [MAX_SERIES]
    series keys, all keys of the bin matrix, are paired; at most
    [MAX_PAIRS] pairs are analysed (all pairs when there are at most 200
    series); a situation yields at most three records per pair. *)
Theorem correlation_limits self sit bins :
  Z.of_nat (length (limited_series_keys bins)) <= MAX_SERIES
  /\ limited_series_keys bins ⊆ map fst bins
  /\ Z.of_nat (length (correlation_pairs bins)) <= MAX_PAIRS
  /\ (Z.of_nat (length bins) <= 200 ->
      correlation_pairs bins = combinations2 (map fst bins))
  /\ Z.of_nat (length (_run_correlations self sit)) <= 3 * MAX_PAIRS.
Proof.
  assert (Hk : Z.of_nat (length (limited_series_keys bins)) <= MAX_SERIES).
  { unfold limited_series_keys. cbv zeta. rewrite length_map.
    destruct (Z.ltb_spec MAX_SERIES (Z.of_nat (length bins))) as [Hlt|Hle].
    - rewrite length_map.
      pose proof (firstn_le_length (Z.to_nat MAX_SERIES)
                    (py_sorted tuple_gt
                       (map (fun key => (zsum (bins_get bins key), key)) (map fst bins)))).
      unfold MAX_SERIES in *. lia.
    - by rewrite length_map. }
  assert (Hp : forall bins, Z.of_nat (length (correlation_pairs bins)) <= MAX_PAIRS).
  { intros bins'. unfold correlation_pairs. cbv zeta.
    destruct (Z.ltb_spec MAX_PAIRS (Z.of_nat (length (combinations2 (limited_series_keys bins')))))
      as [Hlt|Hle]; [|done].
    pose proof (firstn_le_length (Z.to_nat MAX_PAIRS)
                  (combinations2 (limited_series_keys bins'))).
    unfold MAX_PAIRS in *. lia. }
  split; [exact Hk|]. split.
  { unfold limited_series_keys. cbv zeta. destruct (_ <? _); [|done].
    intros k Hin. apply list_elem_of_fmap in Hin as ([act k'] & -> & Hin).
    pose proof (elem_of_sublist _ _ _ Hin (sublist_take _ _)) as Hin'.
    rewrite py_sorted_perm in Hin'.
    apply list_elem_of_fmap in Hin' as (k'' & [= _ ->] & Hin'). done. }
  split; [apply Hp|]. split.
  { intros Hlen. unfold correlation_pairs, limited_series_keys. cbv zeta.
    rewrite length_map.
    destruct (Z.ltb_spec MAX_SERIES (Z.of_nat (length bins))) as [Hlt|_];
      [unfold MAX_SERIES in Hlt; lia|].
    pose proof (combinations2_length (map fst bins)) as Hc. rewrite length_map in Hc.
    destruct (Z.ltb_spec MAX_PAIRS (Z.of_nat (length (combinations2 (map fst bins)))))
      as [Hlt|_]; [|done].
    unfold MAX_PAIRS in Hlt. nia. }
  rewrite run_correlations_pairs.
  pose proof (flat_map_length_le (pair_records self sit (default [] (Situation.bins sit))) 3
                (situation_pairs sit) (pair_records_length self sit _)) as Hl.
  assert (Z.of_nat (length (situation_pairs sit)) <= MAX_PAIRS).
  { unfold situation_pairs. destruct (Situation.insufficient_temporal_spread sit); [done|].
    destruct (Situation.bins sit) as [bins'|]; [apply Hp|done]. }
  lia.
Qed.

Section InsertionSort.
Context {A : Type} (lt : A -> A -> bool) (R : relation A).
Hypothesis R_trans : forall x y z, R x y -> R y z -> R x z.
Hypothesis lt_true : forall x y, lt x y = true -> R x y.
Hypothesis lt_false : forall x y, lt x y = false -> R y x.

Lemma insert_sorted_by x l :
  StronglySorted R l -> StronglySorted R (insert_sorted lt x l).
Proof.
  induction 1 as [|y l Hs IH Hall]; simpl.
  - repeat constructor.
  - destruct (lt y x) eqn:E.
    + constructor; [done|]. rewrite insert_sorted_perm. constructor; [by apply lt_true|done].
    + constructor; [by constructor|]. constructor; [by apply lt_false|].
      eapply Forall_impl; [exact Hall|]. intros z Hz. eapply R_trans; [|exact Hz].
      by apply lt_false.
Qed.

Lemma py_sorted_by l : StronglySorted R (py_sorted lt l).
Proof. induction l; simpl; [constructor|]. by apply insert_sorted_by. Qed.

End InsertionSort.

(** Property X21.  When more than [MAX_SERIES] series are present the 400
    kept are the most active: every series is kept or has no more activity
    than each kept one. *)
Theorem limited_series_most_active bins :
  Z.of_nat (length (limited_series_keys bins))
  = Z.min MAX_SERIES (Z.of_nat (length bins))
  /\ Forall
       (fun key =>
          Forall (fun key' => key' ∈ limited_series_keys bins
                              \/ activity bins key' <= activity bins key)
                 (map fst bins))
       (limited_series_keys bins).
Proof.
  unfold limited_series_keys. cbv zeta. rewrite length_map.
  destruct (Z.ltb_spec MAX_SERIES (Z.of_nat (length bins))) as [Hlt|Hle].
  2:{ rewrite length_map. split; [lia|]. apply Forall_forall. intros key _.
      apply Forall_forall. intros key' Hin. by left. }
  set (acts := map (fun key => (zsum (bins_get bins key), key)) (map fst bins)).
  set (sorted := py_sorted tuple_gt acts).
  assert (Hs : StronglySorted (fun x y : Z * string => fst y <= fst x) sorted).
  { apply py_sorted_by.
    - intros x y z. lia.
    - intros x y. unfold tuple_gt. intros [H%Z.ltb_lt|[H%Z.eqb_eq _]%andb_true_iff]%orb_true_iff;
        lia.
    - intros x y. unfold tuple_gt. intros [H%Z.ltb_ge _]%orb_false_iff. lia. }
  assert (Hperm : sorted ≡ₚ acts) by apply py_sorted_perm.
  assert (Hlen : length sorted = length bins).
  { rewrite Hperm. unfold acts. by rewrite !length_map. }
  split.
  { rewrite length_map, length_take, Hlen. unfold MAX_SERIES in *. lia. }
  apply Forall_forall. intros key Hin. apply Forall_forall. intros key' Hin'.
  apply list_elem_of_fmap in Hin as ([a k] & -> & Hin). simpl.
  assert (Hin2 : (activity bins key', key') ∈ sorted).
  { rewrite Hperm. unfold acts. apply list_elem_of_fmap. by exists key'. }
  rewrite <- (take_drop (Z.to_nat MAX_SERIES) sorted) in Hin2, Hs.
  apply elem_of_app in Hin2 as [Hin2|Hin2].
  { left. apply list_elem_of_fmap. by exists (activity bins key', key'). }
  right.
  pose proof (StronglySorted_app_1_elem_of _ _ _ _ _ Hs Hin Hin2) as Hle. simpl in Hle.
  assert (Ha : a = activity bins k).
  { pose proof (elem_of_sublist _ _ _ Hin (sublist_take _ _)) as Hk.
    rewrite Hperm in Hk. unfold acts in Hk.
    by apply list_elem_of_fmap in Hk as (k0 & [= -> ->] & _). }
  by rewrite <- Ha.
Qed.

(** ** Dependency paths *)

Lemma avoiding_unvisited self visited target x :
  avoiding self visited target x -> x ∉ visited.
Proof. by destruct 1. Qed.

Lemma reachable_avoiding self x target : reachable self x target -> avoiding self [] target x.
Proof.
  induction 1 as [x|x y z Hxy _ IH].
  - apply avoiding_here. apply not_elem_of_nil.
  - eapply avoiding_step; [apply not_elem_of_nil | exact Hxy | exact IH].
Qed.

Lemma avoiding_visit self visited target x c :
  avoiding self visited target x -> c <> target ->
  avoiding self (c :: visited) target x
  \/ exists y, edge self c y /\ avoiding self (c :: visited) target y.
Proof.
  intros Hav Hne. induction Hav as [Ht|x y Hx Hxy Hav IH].
  - left. apply avoiding_here. by apply not_elem_of_cons.
  - destruct IH as [IH|IH]; [|by right].
    destruct (decide (x = c)) as [->|Hxc].
    + right. by exists y.
    + left. eapply avoiding_step; [|exact Hxy|exact IH]. by apply not_elem_of_cons.
Qed.

Lemma unvisited_weight_visit self visited c :
  c ∉ visited ->
  (length (neighbours self c) + unvisited_weight self (c :: visited)
   = unvisited_weight self visited)%nat.
Proof.
  intros Hc. unfold unvisited_weight, neighbours.
  set (P := fun (V : list string) (kv : string * list string) => kv.1 ∉ V).
  assert (Hdel : filter (P (c :: visited)) (graph self)
                 = delete c (filter (P visited) (graph self))).
  { apply map_eq. intros k. destruct (decide (k = c)) as [->|Hk].
    - rewrite lookup_delete_eq. apply map_lookup_filter_None. right.
      intros ns _ Hn. apply Hn. by left.
    - rewrite lookup_delete_ne by done.
      destruct (filter (P visited) (graph self) !! k) as [ns|] eqn:E.
      + apply map_lookup_filter_Some in E as [E Hp]. apply map_lookup_filter_Some.
        split; [done|]. unfold P in *. simpl in *. by apply not_elem_of_cons.
      + apply map_lookup_filter_None in E as [E|E]; apply map_lookup_filter_None.
        * by left.
        * right. intros ns Hns Hp. apply (E ns Hns). unfold P in *. simpl in *.
          by apply not_elem_of_cons in Hp as [_ ?]. }
  change (filter (fun kv : string * list string => kv.1 ∉ c :: visited) (graph self))
    with (filter (P (c :: visited)) (graph self)).
  change (filter (fun kv : string * list string => kv.1 ∉ visited) (graph self))
    with (filter (P visited) (graph self)).
  rewrite Hdel. destruct (graph self !! c) as [ns|] eqn:E; simpl.
  - symmetry. apply (map_fold_delete_L (fun _ ns n => (length ns + n)%nat)).
    + intros; lia.
    + apply map_lookup_filter_Some. done.
  - rewrite delete_id; [done|]. apply map_lookup_filter_None. by left.
Qed.

Lemma bfs_loop_complete fuel self target visited queue :
  (length queue + unvisited_weight self visited < fuel)%nat ->
  (exists x, x ∈ queue /\ avoiding self visited target x) ->
  bfs_loop fuel self target visited queue = true.
Proof.
  revert visited queue. induction fuel as [|fuel IH]; intros visited queue Hfuel (x & Hx & Hav);
    [lia|].
  simpl. destruct queue as [|current queue]; [by apply elem_of_nil in Hx|].
  simpl in Hfuel. case_bool_decide as Hvis.
  - apply IH; [lia|]. exists x. split; [|done].
    apply elem_of_cons in Hx as [->|Hx]; [|done].
    by apply avoiding_unvisited in Hav.
  - case_bool_decide as Ht; [done|].
    pose proof (unvisited_weight_visit self visited current Hvis) as Hw.
    apply IH.
    + rewrite length_app.
      pose proof (filter_length_le
                    (fun neighbor => negb (bool_decide (neighbor ∈ current :: visited)))
                    (neighbours self current)) as Hf.
      lia.
    + destruct (avoiding_visit self visited target x current Hav Ht) as [Hav'|(y & Hy & Hav')].
      * exists x. split; [|done]. apply elem_of_app. left.
        apply elem_of_cons in Hx as [->|Hx]; [|done].
        apply avoiding_unvisited in Hav'. exfalso. apply Hav'. by left.
      * exists y. split; [|done]. apply elem_of_app. right.
        apply list_elem_of_In, filter_In. split; [by apply list_elem_of_In|].
        apply negb_true_iff, bool_decide_eq_false. by apply avoiding_unvisited in Hav'.
Qed.

Lemma has_path_bfs_complete self start target :
  reachable self start target -> _has_path_bfs self start target = true.
Proof.
  intros Hr. unfold _has_path_bfs.
  case_bool_decide; [done|]. apply bfs_loop_complete.
  - unfold bfs_fuel, unvisited_weight. rewrite map_filter_id; [simpl; lia|].
    intros k ns _. apply not_elem_of_nil.
  - exists start. split; [by left | by apply reachable_avoiding].
Qed.

(** Property X22.  [_has_path_bfs] decides reachability in the adjacency
    dict: it returns [True] exactly when a path of edges (possibly empty)
    leads from [start] to [target]. *)
Theorem has_path_bfs_reachable self start target :
  _has_path_bfs self start target = true <-> reachable self start target.
Proof. split; [apply has_path_bfs_sound | apply has_path_bfs_complete]. Qed.

(** Property X23.  [_check_dependency_path] holds exactly when there is no
    graph, or some episode other than the cause has an entity reachable from
    the cause's entity. *)
Theorem check_dependency_path_spec self cause_episode all_episodes :
  _check_dependency_path self cause_episode all_episodes = true
  <-> graph self = ∅
      \/ exists episode,
           episode ∈ all_episodes /\ episode <> cause_episode
           /\ reachable self (Episode.entity_key cause_episode) (Episode.entity_key episode).
Proof.
  unfold _check_dependency_path, has_graph.
  case_bool_decide as Hg; simpl.
  { split; [by left|done]. }
  rewrite existsb_exists. split.
  - intros (ep & Hin & Hp). right. exists ep. split; [by apply list_elem_of_In|].
    case_bool_decide; [done|]. split; [done|]. by apply has_path_bfs_sound.
  - intros [Hempty|(ep & Hin & Hne & Hr)]; [done|]. exists ep.
    split; [by apply list_elem_of_In|]. case_bool_decide; [done|].
    by apply has_path_bfs_complete.
Qed.

(** ** Scoring and the primary cause *)

Lemma max_severity_loop_spec alerts max_severity :
  max_severity ∈ ["low"; "medium"; "high"] ->
  max_severity_loop alerts max_severity
  = if has_severity "critical" alerts then "critical"
    else if bool_decide (max_severity = "high") || has_severity "high" alerts then "high"
    else if bool_decide (max_severity = "medium") || has_severity "medium" alerts
         then "medium"
    else "low".
Proof.
  revert max_severity. induction alerts as [|a alerts IH]; intros m Hm.
  - repeat (apply elem_of_cons in Hm as [->|Hm]); [done..|by apply elem_of_nil in Hm].
  - cbn [max_severity_loop has_severity existsb].
    fold (has_severity "critical" alerts). fold (has_severity "high" alerts).
    fold (has_severity "medium" alerts).
    destruct (decide (Alert.severity a = "critical")) as [Hc|Hc].
    { by rewrite !(bool_decide_eq_true_2 _ Hc). }
    rewrite !(bool_decide_eq_false_2 _ Hc). cbn [orb].
    destruct (decide (Alert.severity a = "high")) as [Hh|Hh].
    { rewrite !(bool_decide_eq_true_2 _ Hh).
      assert (Hmd : Alert.severity a <> "medium") by (by rewrite Hh).
      rewrite !(bool_decide_eq_false_2 _ Hmd).
      repeat (apply elem_of_cons in Hm as [->|Hm]); [| | |by apply elem_of_nil in Hm];
        cbn; rewrite IH by (right; right; by left); cbn;
        by destruct (has_severity "critical" alerts). }
    rewrite !(bool_decide_eq_false_2 _ Hh). cbn [andb orb].
    destruct (decide (Alert.severity a = "medium")) as [Hmd|Hmd].
    { rewrite !(bool_decide_eq_true_2 _ Hmd).
      assert (Hnot : forall s : string, s <> "critical" -> s <> "high" ->
                       bool_decide (s ∈ ["critical"; "high"]) = false).
      { intros s H1 H2. apply bool_decide_eq_false_2.
        intros [?|[?|?%elem_of_nil]%elem_of_cons]%elem_of_cons; done. }
      repeat (apply elem_of_cons in Hm as [->|Hm]); [| | |by apply elem_of_nil in Hm].
      - rewrite Hnot by done. cbn. rewrite IH by (right; by left). cbn.
        by destruct (has_severity "critical" alerts), (has_severity "high" alerts).
      - rewrite Hnot by done. cbn. rewrite IH by (right; by left). cbn.
        by destruct (has_severity "critical" alerts), (has_severity "high" alerts).
      - rewrite bool_decide_eq_true_2 by (right; by left). cbn.
        rewrite IH by (right; right; by left). cbn.
        by destruct (has_severity "critical" alerts). }
    rewrite !(bool_decide_eq_false_2 _ Hmd). cbn [andb orb]. by rewrite IH.
Qed.

(** Property X24.  The severity scan of [_calculate_score_components],
    although it stops at the first critical alert, ends with the highest of
    low, medium, high and critical present among the episode's alerts. *)
Theorem max_severity_highest alerts :
  max_severity_loop alerts "low" = highest_severity alerts.
Proof. by rewrite max_severity_loop_spec by (by left). Qed.

Local Open Scope R_scope.

(** Property X25.  The ranges of the score components: change proximity is
    0 or 1, lead-lag is 0, graph path is 0 or 0.5 (the latter only with a
    path and a graph), cardinality is non-negative, severity lies in
    [0.25, 1], flap in [0, 0.3], echo is 0 or 0.3; the weighted sum is at
    least -0.0075. *)
Theorem score_components_range self noise episode situation has_path :
  (change_proximity (_calculate_score_components self noise episode situation has_path) = 0
   \/ change_proximity (_calculate_score_components self noise episode situation has_path) = 1)
  /\ lead_lag (_calculate_score_components self noise episode situation has_path) = 0
  /\ (graph_path (_calculate_score_components self noise episode situation has_path) = 0
      \/ (graph_path (_calculate_score_components self noise episode situation has_path) = 0.5
          /\ has_path = true /\ graph self <> ∅))
  /\ 0 <= cardinality (_calculate_score_components self noise episode situation has_path)
  /\ 0.25 <= sc_severity (_calculate_score_components self noise episode situation has_path)
          <= 1
  /\ 0 <= flap (_calculate_score_components self noise episode situation has_path) <= 0.3
  /\ (echo (_calculate_score_components self noise episode situation has_path) = 0
      \/ echo (_calculate_score_components self noise episode situation has_path) = 0.3)
  /\ -0.0075
     <= composite_score (_calculate_score_components self noise episode situation has_path).
Proof.
  unfold composite_score, _calculate_score_components.
  cbn [change_proximity lead_lag graph_path cardinality sc_severity flap echo].
  pose proof (flap_score_bound noise (Episode.fingerprint episode)
                (Episode.entity_key episode)) as Hf.
  pose proof (severity_scores_bound (max_severity_loop (Episode.alerts episode) "low")) as Hs.
  pose proof (cardinality_nonneg
                (Z.of_nat (length (distinct (map Episode.entity_key
                                                 (Situation.raw_episodes situation)))))) as Hc.
  set (e := match echo_tracker noise !! _ with Some _ => _ | None => _ end).
  assert (He : e = 0 \/ e = 0.3).
  { unfold e. destruct (echo_tracker noise !! _); [destruct (_ <? _)%nat|]; auto; left; lra. }
  set (cp := match Episode.deploy_keys episode with [] => _ | _ => _ end).
  assert (Hcp : cp = 0 \/ cp = 1).
  { unfold cp. destruct (Episode.deploy_keys episode); [left|right]; lra. }
  set (gp := if has_path && has_graph self then _ else _).
  assert (Hgp : gp = 0 \/ (gp = 0.5 /\ has_path = true /\ graph self <> ∅)).
  { unfold gp, has_graph. destruct has_path; cbn [andb]; [|left; lra].
    case_bool_decide; cbn [negb]; [left; lra|right]. split; [lra|done]. }
  split; [done|]. split; [lra|]. split; [done|]. split; [done|]. split; [done|].
  split; [done|]. split; [done|].
  destruct He as [-> | ->], Hcp as [-> | ->], Hgp as [-> | [-> _]]; lra.
Qed.

Local Close Scope R_scope.

Lemma earliest_snoc ep0 rest x :
  earliest ep0 (rest ++ [x])
  = if Episode.start x <? Episode.start (earliest ep0 rest) then x else earliest ep0 rest.
Proof. unfold earliest. by rewrite fold_left_app. Qed.

Lemma earliest_first_least ep0 rest :
  exists i,
    (ep0 :: rest) !! i = Some (earliest ep0 rest)
    /\ Forall (fun ep => Episode.start (earliest ep0 rest) <= Episode.start ep) (ep0 :: rest)
    /\ forall j ep, (j < i)%nat -> (ep0 :: rest) !! j = Some ep ->
                    Episode.start (earliest ep0 rest) < Episode.start ep.
Proof.
  induction rest as [|x rest IH] using rev_ind.
  - exists 0%nat. split; [done|]. split; [by repeat constructor|]. intros j ep Hj. lia.
  - destruct IH as (i & Hi & Hall & Hbefore). rewrite earliest_snoc.
    change (ep0 :: rest ++ [x]) with ((ep0 :: rest) ++ [x]).
    destruct (Z.ltb_spec (Episode.start x) (Episode.start (earliest ep0 rest))) as [Hlt|Hge].
    + exists (length (ep0 :: rest)). split.
      { rewrite lookup_app_r by lia. by rewrite Nat.sub_diag. }
      split.
      { apply Forall_app. split; [|by repeat constructor].
        eapply Forall_impl; [exact Hall|]. intros ep Hep. simpl in Hep. lia. }
      intros j ep Hj Hep. rewrite lookup_app_l in Hep by done.
      rewrite Forall_forall in Hall. apply list_elem_of_lookup_2 in Hep.
      specialize (Hall _ Hep). simpl in Hall. lia.
    + exists i. apply lookup_lt_Some in Hi as Hlen. split.
      { by rewrite lookup_app_l. }
      split.
      { apply Forall_app. split; [done|]. by repeat constructor. }
      intros j ep Hj Hep. rewrite lookup_app_l in Hep by lia. by eapply Hbefore.
Qed.

Local Open Scope R_scope.

Lemma cause_confidence_bound self noise ep sit : 0 <= cause_confidence self noise ep sit <= 1.
Proof.
  unfold cause_confidence. cbv zeta.
  set (c := composite_score _).
  assert (H : 0 <= Rmin 1.0 (Rmax 0.0 c) <= 1).
  { unfold Rmin, Rmax. repeat destruct (Rle_dec _ _); lra. }
  set (m := Rmin 1.0 (Rmax 0.0 c)) in *. clearbody m.
  destruct (_ && _); [|exact H].
  unfold Rmin. destruct (Rle_dec _ _); lra.
Qed.

Lemma generate_next_actions_nonempty ep confidence : _generate_next_actions ep confidence <> [].
Proof.
  unfold _generate_next_actions.
  destruct (Rlt_dec 0.8 confidence); [by destruct (Episode.deploy_keys ep)|].
  by destruct (Rlt_dec 0.5 confidence).
Qed.

Lemma select_primary_cause_some self noise sit ep0 rest :
  Situation.raw_episodes sit = ep0 :: rest ->
  exists pc,
    Situation.primary_cause (_select_primary_cause self noise sit) = Some pc
    /\ pc_entity pc = Episode.entity_key (earliest ep0 rest)
    /\ pc_fingerprint pc = Episode.fingerprint (earliest ep0 rest)
    /\ pc_lag_ms pc = 0%Z
    /\ 0 <= pc_confidence pc <= 1
    /\ Situation.score (_select_primary_cause self noise sit) = Some (pc_confidence pc)
    /\ Situation.next_actions (_select_primary_cause self noise sit)
       = Some (_generate_next_actions (earliest ep0 rest) (pc_confidence pc)).
Proof.
  intros Hraw. unfold _select_primary_cause. rewrite Hraw. eexists.
  split; [reflexivity|]. cbn [pc_entity pc_fingerprint pc_lag_ms pc_confidence].
  split; [done|]. split; [done|]. split; [done|].
  split; [apply cause_confidence_bound|]. done.
Qed.


Local Close Scope R_scope.

(** ** The run *)






Lemma build_situations_groups self episodes :
  exists groups : list (list Episode.t),
    Forall (fun g => g <> []) groups
    /\ concat groups ≡ₚ episodes
    /\ _build_situations self episodes = map _create_situation groups.
Proof.
  unfold _build_situations. destruct episodes as [|ep0 eps].
  { exists []. split; [constructor|done]. }
  set (all := ep0 :: eps).
  match goal with
  | |- context [group_by_root ?uf _ _] =>
      destruct (group_by_root_perm uf (enumerate all) []) as [Hne Hp]; [constructor|];
      generalize dependent (group_by_root uf (enumerate all) [])
  end.
  intros groups Hne Hp. rewrite enumerate_snd in Hp. simpl in Hp.
  exists (map snd groups). split; [by apply Forall_fmap|]. split.
  - by rewrite <- flat_map_concat_map.
  - rewrite map_map. apply map_ext. by intros [k g].
Qed.

Lemma raw_situations_groups self episodes :
  exists groups : list (list Episode.t),
    concat groups ≡ₚ episodes
    /\ Forall2 (fun g s => g <> [] /\ _create_situation g = Some s) groups
               (omap (fun o : option Situation.t => o) (_build_situations self episodes)).
Proof.
  destruct (build_situations_groups self episodes) as (groups & Hne & Hp & ->).
  exists groups. split; [done|]. clear Hp.
  induction Hne as [|g groups Hg Hne IH]; simpl; [constructor|].
  destruct g as [|ep rest]; [done|].
  destruct (create_situation_some ep rest) as (s & Hs & _). rewrite Hs.
  constructor; [done|exact IH].
Qed.

Lemma output_situation_lines self raw_alerts :
  situation_lines (output_lines self raw_alerts)
  = map (fun s => output_situation
                    (_select_primary_cause self (run_noise self raw_alerts)
                       (run_spread self raw_alerts s)))
        (run_raw_situations self raw_alerts).
Proof.
  unfold output_lines. destruct (run self raw_alerts) as [out|] eqn:E.
  - simpl. by destruct (run_output _ _ _ E) as (-> & _).
  - simpl. unfold run_raw_situations, run_episodes, run_filtered.
    assert (Hn : normalize_alerts raw_alerts = []).
    { destruct (normalize_alerts raw_alerts) eqn:En; [done|].
      destruct (run_some self raw_alerts) as [out Hout]; [by rewrite En|].
      rewrite Hout in E. discriminate E. }
    by rewrite Hn.
Qed.



Lemma output_record_fields self raw_alerts :
  Forall2
    (fun s line =>
       sr_episodes line = Situation.episodes s
       /\ sr_window line = Situation.window s
       /\ sr_related_alerts line = Situation.related_alerts s
       /\ sr_primary_cause line
          = Situation.primary_cause
              (_select_primary_cause self (run_noise self raw_alerts)
                 (run_spread self raw_alerts s))
       /\ sr_score line
          = default 0%R (Situation.score
                           (_select_primary_cause self (run_noise self raw_alerts)
                              (run_spread self raw_alerts s)))
       /\ sr_next_actions line
          = default [] (Situation.next_actions
                          (_select_primary_cause self (run_noise self raw_alerts)
                             (run_spread self raw_alerts s))))
    (run_raw_situations self raw_alerts)
    (situation_lines (output_lines self raw_alerts)).
Proof.
  rewrite output_situation_lines. apply Forall2_fmap_r, Forall_Forall2_diag, Forall_forall.
  intros s _. unfold compose.
  cbn [output_situation sr_episodes sr_window sr_related_alerts sr_primary_cause
       sr_score sr_next_actions].
  unfold run_spread.
  rewrite (proj1 (select_episodes _ _ _)), (proj1 (spread_episodes _ _ _)).
  rewrite select_window, spread_window.
  split; [done|]. split; [done|]. split; [|done].
  assert (Hsel : forall sit, Situation.related_alerts
                               (_select_primary_cause self (run_noise self raw_alerts) sit)
                             = Situation.related_alerts sit).
  { intros sit. unfold _select_primary_cause. by destruct (Situation.raw_episodes sit). }
  rewrite Hsel.
  destruct (apply_temporal_spread_outcome self (run_filtered self raw_alerts) s)
    as [[msg ->] | (pad' & reh & _ & ->)]; done.
Qed.


Lemma raw_situation_facts self raw_alerts :
  Forall
    (fun s =>
       exists ep0 rest,
         _create_situation (ep0 :: rest) = Some s
         /\ Forall (episode_invariant self) (ep0 :: rest))
    (run_raw_situations self raw_alerts).
Proof.
  unfold run_raw_situations.
  destruct (raw_situations_groups self (run_episodes self raw_alerts)) as (groups & Hp & Hg).
  destruct (build_episodes_wellformed self (run_filtered self raw_alerts)) as (_ & Hinv & _).
  fold (run_episodes self raw_alerts) in Hinv. rewrite <- Hp in Hinv.
  apply Forall_concat in Hinv.
  eapply Forall2_Forall_r; [exact Hg|].
  eapply Forall_impl; [exact Hinv|].
  intros g Hgi s [Hne Hs]. destruct g as [|ep0 rest]; [done|]. eauto.
Qed.

(** Property X27.  In every situation record of the output the window
    covers each member episode, every member has [start <= end] and a
    positive count, some member ends at the window end, the primary cause
    is a member that starts at the window start, the score is the cause's
    confidence and lies in [0, 1], next actions are given, and at most 200
    related alerts are listed. *)
Theorem situation_records_wellformed self raw_alerts :
  Forall
    (fun line =>
       Forall (fun es => w_start (sr_window line) <= es_start es
                         /\ es_start es <= es_end es
                         /\ es_end es <= w_end (sr_window line)
                         /\ 1 <= es_count es)
              (sr_episodes line)
       /\ (exists es pc,
              es ∈ sr_episodes line
              /\ es_start es = w_start (sr_window line)
              /\ sr_primary_cause line = Some pc
              /\ pc_entity pc = es_entity_key es
              /\ pc_fingerprint pc = es_fingerprint es
              /\ sr_score line = pc_confidence pc
              /\ (0 <= sr_score line <= 1)%R)
       /\ (exists es, es ∈ sr_episodes line /\ es_end es = w_end (sr_window line))
       /\ sr_next_actions line <> []
       /\ (length (sr_related_alerts line) <= 200)%nat)
    (situation_lines (output_lines self raw_alerts)).
Proof.
  eapply Forall2_Forall_r; [apply output_record_fields|].
  eapply Forall_impl; [apply raw_situation_facts|].
  intros s (ep0 & rest & Hs & Hinv) line (He & Hw & Hrel & Hpc & Hsc & Hna).
  destruct (create_situation_window ep0 rest) as (s' & Hs' & Hraw & Hcover & Hmin & Hmax).
  rewrite Hs in Hs'. injection Hs' as <-.
  assert (Hsum : Situation.episodes s = map summary (ep0 :: rest)).
  { by injection Hs as <-. }
  assert (Hrl : (length (Situation.related_alerts s) <= 200)%nat).
  { injection Hs as <-. cbn [Situation.related_alerts]. rewrite length_map.
    apply firstn_le_length. }
  assert (Hraw' : Situation.raw_episodes (run_spread self raw_alerts s) = ep0 :: rest).
  { unfold run_spread. by rewrite (proj2 (spread_episodes _ _ _)). }
  destruct (select_primary_cause_some self (run_noise self raw_alerts) _ ep0 rest Hraw')
    as (pc & Hpc' & Hent & Hfp & _ & Hconf & Hscore & Hacts).
  destruct (earliest_first_least ep0 rest) as (i & Hi & Hleast & _).
  rewrite He, Hw, Hrel, Hsum. clear Hs.
  split.
  { apply Forall_fmap. rewrite Forall_forall in Hcover, Hinv. apply Forall_forall.
    intros ep Hin. destruct (Hcover ep Hin) as [H1 H2].
    destruct (Hinv ep Hin) as (_ & _ & H3 & H4 & _). cbn. done. }
  split.
  { exists (summary (earliest ep0 rest)), pc.
    apply list_elem_of_lookup_2 in Hi.
    split; [apply list_elem_of_fmap; by exists (earliest ep0 rest)|].
    split.
    { cbn [summary es_start]. destruct Hmin as (epm & Hin & Hm).
      rewrite Forall_forall in Hcover, Hleast.
      pose proof (Hleast _ Hin) as H1. simpl in H1.
      destruct (Hcover _ Hi) as [H2 _]. lia. }
    rewrite Hpc, Hsc, Hscore. done. }
  split.
  { destruct Hmax as (epM & Hin & HM). exists (summary epM).
    split; [apply list_elem_of_fmap; by exists epM | done]. }
  split; [|done].
  rewrite Hna, Hacts. apply generate_next_actions_nonempty.
Qed.


Lemma spread_fields self alerts sit :
  Situation.insufficient_temporal_spread sit = false ->
  Situation.reason sit = None ->
  Situation.pad_ms_used sit = PAD_MS_START ->
  Situation.bin_size_s sit = BIN_SIZE_S_DEFAULT ->
  Situation.bin_size_s (_apply_temporal_spread self alerts sit) = 1
  /\ Situation.pad_ms_used (_apply_temporal_spread self alerts sit)
     ∈ [60000; 120000; 240000; 480000]
  /\ (Situation.insufficient_temporal_spread (_apply_temporal_spread self alerts sit) = true ->
      Situation.pad_ms_used (_apply_temporal_spread self alerts sit) = 60000
      /\ Situation.reason (_apply_temporal_spread self alerts sit) <> None)
  /\ (Situation.insufficient_temporal_spread (_apply_temporal_spread self alerts sit) = false ->
      Situation.reason (_apply_temporal_spread self alerts sit) = None).
Proof.
  intros Hins Hreason Hpad Hbin.
  assert (Hmark : forall msg,
    Situation.bin_size_s (mark_insufficient sit msg) = 1
    /\ Situation.pad_ms_used (mark_insufficient sit msg) ∈ [60000; 120000; 240000; 480000]
    /\ (Situation.insufficient_temporal_spread (mark_insufficient sit msg) = true ->
        Situation.pad_ms_used (mark_insufficient sit msg) = 60000
        /\ Situation.reason (mark_insufficient sit msg) <> None)
    /\ (Situation.insufficient_temporal_spread (mark_insufficient sit msg) = false ->
        Situation.reason (mark_insufficient sit msg) = None)).
  { intros msg. cbn [mark_insufficient Situation.bin_size_s Situation.pad_ms_used
                     Situation.insufficient_temporal_spread Situation.reason].
    rewrite Hpad, Hbin. split; [done|]. split; [by left|]. split; [done|]. intros H.
    discriminate H. }
  unfold _apply_temporal_spread.
  destruct (Z.ltb_spec (w_end (Situation.window sit) - w_start (Situation.window sit))
                       MIN_SITUATION_MS) as [Hshort|Hdur]; [apply Hmark|].
  destruct (spread_loop _ _ _ _ _ _ _) as [s'|] eqn:E.
  2: { exfalso. revert E. apply (spread_loop_total 7); [done|]. by vm_compute. }
  change PAD_MS_START with (pad_step 0) in E.
  destruct (spread_loop_padding _ _ _ _ _ _ Hdur E)
    as [(msg & -> & _) | (k & _ & Hmax & _ & _ & ->)]; [apply Hmark|].
  cbn [store_spread Situation.bin_size_s Situation.pad_ms_used
       Situation.insufficient_temporal_spread Situation.reason].
  rewrite Hins, Hreason. split; [done|]. split; [|split; [intros H; discriminate H|done]].
  apply pad_step_max in Hmax.
  destruct k as [|[|[|[|k]]]]; [| | | |lia].
  - by left.
  - right. by left.
  - right. right. by left.
  - right. right. right. by left.
Qed.

(** Property X28.  The spread fields of the situation records:
    [bin_size_s] is always 1 and [pad_ms_used] is one of 60000, 120000,
    240000, 480000; a record marked insufficient keeps the initial padding
    and carries a reason, any other record carries none. *)
Theorem situation_records_spread self raw_alerts :
  Forall
    (fun line =>
       sr_bin_size_s line = 1
       /\ sr_pad_ms_used line ∈ [60000; 120000; 240000; 480000]
       /\ (sr_insufficient_temporal_spread line = true ->
           sr_pad_ms_used line = 60000 /\ sr_reason line <> None)
       /\ (sr_insufficient_temporal_spread line = false -> sr_reason line = None))
    (situation_lines (output_lines self raw_alerts)).
Proof.
  rewrite output_situation_lines. apply Forall_fmap.
  eapply Forall_impl; [apply raw_situation_facts|].
  intros s (ep0 & rest & Hs & _). unfold compose.
  cbn [output_situation sr_bin_size_s sr_pad_ms_used sr_insufficient_temporal_spread
       sr_reason].
  assert (Hsel : forall sit,
    Situation.bin_size_s (_select_primary_cause self (run_noise self raw_alerts) sit)
    = Situation.bin_size_s sit
    /\ Situation.pad_ms_used (_select_primary_cause self (run_noise self raw_alerts) sit)
       = Situation.pad_ms_used sit
    /\ Situation.insufficient_temporal_spread
         (_select_primary_cause self (run_noise self raw_alerts) sit)
       = Situation.insufficient_temporal_spread sit
    /\ Situation.reason (_select_primary_cause self (run_noise self raw_alerts) sit)
       = Situation.reason sit).
  { intros sit. unfold _select_primary_cause. by destruct (Situation.raw_episodes sit). }
  destruct (Hsel (run_spread self raw_alerts s)) as (-> & -> & -> & ->).
  unfold run_spread. injection Hs as <-. by apply spread_fields.
Qed.
